(** * Proof-of-work engine of the Bitcoin PoW demo (main.ts)

    Shallow embedding of the numeric core of
    [interactive/bitcoin-pow-demo/src/main.ts]: the byte/hex codec, the
    compact target ("nBits") codec, the difficulty conversion, the 80-byte
    block header serialisation, the scrypt ROMix chain and the nonce search.

    Conventions.
    - A JavaScript [number] that holds an integer is a [Z]; the 32-bit
      conversions that the bit operators perform are written out
      ([toInt32], [toUint32]).  [NaN], where [parseInt] can produce it, is
      [None].  The [difficulty] argument of [difficultyToBits] is a binary64
      [float].
    - A JavaScript string is a [list ascii] (every string handled by the
      core is ASCII).
    - A [Uint8Array]/[Uint32Array] is a [list Z]; reads out of range give
      [undefined], writes out of range are dropped.
    - A [throw] is the [Throw] case of [completion]. *)

From Stdlib Require Import ZArith List Ascii String Lia QArith Floats Sorted.
From stdpp Require Import list.
Import ListNotations.
Open Scope Z_scope.

(** ** JavaScript runtime primitives *)

Module JS.

Inductive error : Type := RangeError | SyntaxError | TypeError.

Inductive completion (A : Type) : Type :=
| Normal (a : A)
| Throw (e : error).
Arguments Normal {A} a.
Arguments Throw {A} e.

Definition bind {A B} (c : completion A) (k : A -> completion B) : completion B :=
  match c with
  | Normal a => k a
  | Throw e => Throw e
  end.

Definition str (s : string) : list ascii := list_ascii_of_string s.

(** ToInt32 / ToUint32 of an integral number. *)
Definition toInt32 (z : Z) : Z := (z + 2 ^ 31) mod 2 ^ 32 - 2 ^ 31.
Definition toUint32 (z : Z) : Z := z mod 2 ^ 32.
Definition toUint8 (z : Z) : Z := z mod 2 ^ 8.

(** ToInt32 of a possibly-NaN number: NaN becomes 0. *)
Definition numToInt32 (n : option Z) : Z :=
  match n with
  | Some z => toInt32 z
  | None => 0
  end.

(** The operators [&], [|], [^], [<<], [>>], [>>>]. *)
Definition band (a b : Z) : Z := Z.land (toInt32 a) (toInt32 b).
Definition bor (a b : Z) : Z := Z.lor (toInt32 a) (toInt32 b).
Definition bxor (a b : Z) : Z := Z.lxor (toInt32 a) (toInt32 b).
Definition shl (a b : Z) : Z := toInt32 (Z.shiftl (toInt32 a) (toUint32 b mod 32)).
Definition sar (a b : Z) : Z := Z.shiftr (toInt32 a) (toUint32 b mod 32).
Definition shr (a b : Z) : Z := Z.shiftr (toUint32 a) (toUint32 b mod 32).

(** *** Strings *)

Definition repeatStr (c : ascii) (n : Z) : list ascii := repeat c (Z.to_nat n).

Definition padStart (n : nat) (c : ascii) (s : list ascii) : list ascii :=
  repeat c (n - length s) ++ s.

Definition padEnd (n : nat) (c : ascii) (s : list ascii) : list ascii :=
  s ++ repeat c (n - length s).

(** [s.slice(0, n)] *)
Definition slice0 (n : nat) (s : list ascii) : list ascii := firstn n s.

(** [s.substr(i, n)] *)
Definition substr (i n : nat) (s : list ascii) : list ascii := firstn n (skipn i s).

(** [s.replace(/^0+/, '')] *)
Fixpoint stripLeadingZeros (s : list ascii) : list ascii :=
  match s with
  | c :: s' => if Ascii.eqb c "0" then stripLeadingZeros s' else s
  | [] => []
  end.

Definition hexAlphabet : list ascii := str "0123456789abcdef".

Definition hexDigit (d : Z) : ascii := nth (Z.to_nat d) hexAlphabet "0"%char.

Fixpoint toHexDigits (fuel : nat) (n : Z) (acc : list ascii) : list ascii :=
  match fuel with
  | O => acc
  | S f =>
      let acc' := hexDigit (n mod 16) :: acc in
      if n / 16 =? 0 then acc' else toHexDigits f (n / 16) acc'
  end.

(** [n.toString(16)] for a number or BigInt; a negative value prints a
    minus sign followed by the digits of its magnitude. *)
Definition toString16 (n : Z) : list ascii :=
  if n <? 0
  then "-"%char :: toHexDigits (S (Z.to_nat (Z.log2 (- n)))) (- n) []
  else toHexDigits (S (Z.to_nat (Z.log2 n))) n [].

(** Value of one character as a digit in radix 16. *)
Definition digitVal (c : ascii) : option Z :=
  let n := Z.of_nat (nat_of_ascii c) in
  if (48 <=? n) && (n <=? 57) then Some (n - 48)
  else if (97 <=? n) && (n <=? 102) then Some (n - 87)
  else if (65 <=? n) && (n <=? 70) then Some (n - 55)
  else None.

(** Longest prefix of radix-16 digits, as (value, number of digits). *)
Fixpoint readDigits (s : list ascii) (acc : Z) (count : nat) : Z * nat :=
  match s with
  | c :: s' =>
      match digitVal c with
      | Some d => readDigits s' (acc * 16 + d) (S count)
      | None => (acc, count)
      end
  | [] => (acc, count)
  end.

Definition isWhiteSpace (c : ascii) : bool :=
  let n := nat_of_ascii c in
  ((9 <=? n)%nat && (n <=? 13)%nat) || (n =? 32)%nat.

Fixpoint trimStart (s : list ascii) : list ascii :=
  match s with
  | c :: s' => if isWhiteSpace c then trimStart s' else s
  | [] => []
  end.

Definition stripHexPrefix (s : list ascii) : list ascii :=
  match s with
  | c0 :: c1 :: s' =>
      if Ascii.eqb c0 "0" && (Ascii.eqb c1 "x" || Ascii.eqb c1 "X") then s' else s
  | _ => s
  end.

(** [parseInt(s, 16)]; [None] is NaN. *)
Definition parseInt16 (s : list ascii) : option Z :=
  let s1 := trimStart s in
  let '(neg, s2) :=
    match s1 with
    | c :: s' =>
        if Ascii.eqb c "-" then (true, s')
        else if Ascii.eqb c "+" then (false, s')
        else (false, s1)
    | [] => (false, s1)
    end in
  let '(v, k) := readDigits (stripHexPrefix s2) 0 0 in
  match k with
  | O => None
  | S _ => Some (if neg then - v else v)
  end.

(** [BigInt('0x' + s)]: the whole of [s] must be radix-16 digits, else a
    SyntaxError is thrown.  (Surrounding white space, which StringToBigInt
    trims, cannot occur after the ['0x'] that the callers prepend except at
    the end; it is accepted there.) *)
Fixpoint trimEndAux (s : list ascii) : list ascii * bool :=
  match s with
  | c :: s' =>
      let '(t, blank) := trimEndAux s' in
      if blank && isWhiteSpace c then ([], true) else (c :: t, false)
  | [] => ([], true)
  end.

Definition bigIntOfHex (s : list ascii) : completion Z :=
  let t := fst (trimEndAux s) in
  let '(v, k) := readDigits t 0 0 in
  if (Nat.eqb k (length t)) && negb (Nat.eqb k 0) then Normal v else Throw SyntaxError.

(** *** Typed arrays *)

(** [a[i]] where [undefined] is then coerced to a number or used by [||]. *)
Definition getIdx (a : list Z) (i : Z) : option Z :=
  if i <? 0 then None else a !! Z.to_nat i.

(** [a[i] = v] on a [Uint32Array] / [Uint8Array]. *)
Definition setU32 (a : list Z) (i : Z) (v : Z) : list Z :=
  if i <? 0 then a else <[Z.to_nat i := toUint32 v]> a.

Definition setU8 (a : list Z) (i : Z) (v : option Z) : list Z :=
  if i <? 0 then a else <[Z.to_nat i := toUint8 (default 0 v)]> a.

End JS.

Import JS.

(** ** Byte/Hex utilities *)

(** [b.toString(16).padStart(2, '0')] joined over the array. *)
Definition bytesToHex (bytes : list Z) : list ascii :=
  concat (map (fun b => padStart 2 "0" (toString16 b)) bytes).

(** The loop [for (let i = 0; i < hex.length; i += 2)], at most
    [hex.length] rounds. *)
Fixpoint hexToBytes_loop (steps : nat) (hex : list ascii) (i : nat) (bytes : list Z) : list Z :=
  match steps with
  | O => bytes
  | S steps' =>
      if (i <? length hex)%nat
      then hexToBytes_loop steps' hex (i + 2)
             (setU8 bytes (Z.of_nat i / 2) (parseInt16 (substr i 2 hex)))
      else bytes
  end.

(** [new Uint8Array(hex.length / 2)] truncates a fractional length, so an
    odd-length string gets floor(length / 2) bytes and the store of its last
    character falls outside the array. *)
Definition hexToBytes (hex : list ascii) : list Z :=
  let bytes := repeat 0 (length hex / 2)%nat in
  hexToBytes_loop (length hex) hex 0 bytes.

Definition reverseBytes (bytes : list Z) : list Z := rev bytes.

(** ** Compact target (nBits) codec *)

Definition exponentOf (bits : Z) : Z := JS.band (sar bits 24) 255.

Definition bitsToTarget (bits : Z) : list ascii :=
  let exponent := exponentOf bits in
  let coefficient := JS.band bits 8388607 in
  let coefficient := if JS.band bits 8388608 =? 0 then coefficient else 0 in
  let target :=
    if exponent <=? 3 then
      let coefficient := sar coefficient (8 * (3 - exponent)) in
      padStart 64 "0" (toString16 coefficient)
    else
      let coeffHex := padStart 6 "0" (toString16 coefficient) in
      let shiftBytes := exponent - 3 in
      let totalHexChars := 64 in
      let coeffPosition := totalHexChars - shiftBytes * 2 - 6 in
      if coeffPosition <? 0 then repeatStr "f" 64
      else repeatStr "0" coeffPosition ++ coeffHex ++ repeatStr "0" (shiftBytes * 2) in
  slice0 64 target.

Definition targetToBits (targetHex : list ascii) : Z :=
  let stripped :=
    match stripLeadingZeros targetHex with
    | [] => str "0"
    | s => s
    end in
  let stripped :=
    if negb (Nat.eqb (length stripped mod 2) 0) then "0"%char :: stripped else stripped in
  let numBytes := Z.of_nat (length stripped / 2) in
  let coeffHex := padEnd 6 "0" (slice0 6 stripped) in
  let coefficient := parseInt16 coeffHex in
  let exponent := numBytes in
  let '(coefficient, exponent) :=
    if JS.band (numToInt32 coefficient) 8388608 =? 0
    then (numToInt32 coefficient, exponent)
    else (sar (numToInt32 coefficient) 8, exponent + 1) in
  JS.bor (shl exponent 24) coefficient.


(** ** Difficulty *)

Definition MAX_TARGET_BITS : Z := 486604799.  (* 0x1d00ffff *)

(** [BigInt(Math.floor(x))]: the floor of a finite binary64 value is an
    integer-valued double, which [BigInt] converts exactly; NaN and the
    infinities are left unchanged by [Math.floor] and make [BigInt] throw a
    RangeError. *)
Definition bigIntOfFloor (x : float) : completion Z :=
  match Prim2SF x with
  | S754_zero _ => Normal 0
  | S754_infinity _ => Throw RangeError
  | S754_nan => Throw RangeError
  | S754_finite s m e =>
      let mag := Z.pos m in
      let num := (if s then - mag else mag) * 2 ^ Z.max e 0 in
      Normal (num / 2 ^ Z.max (- e) 0)
  end.

(** BigInt division truncates towards zero and throws on a zero divisor. *)
Definition bigIntDiv (a b : Z) : completion Z :=
  if b =? 0 then Throw RangeError else Normal (Z.quot a b).

(** Lines 525-535 of [difficultyToBits], once [maxTarget] and
    [difficultyBig] are known. *)
Definition difficultyToBits_rest (maxTargetHex : list ascii) (maxTarget difficultyBig : Z)
  : completion Z :=
  bind (bigIntDiv (maxTarget * 1000000) difficultyBig) (fun target =>
  let targetHex := padStart 64 "0" (toString16 target) in
  bind (bigIntOfHex targetHex) (fun targetBig =>
  let targetHex := if targetBig >? maxTarget then maxTargetHex else targetHex in
  Normal (targetToBits targetHex))).

Definition difficultyToBits (difficulty : float) : completion Z :=
  let maxTargetHex := bitsToTarget MAX_TARGET_BITS in
  bind (bigIntOfHex maxTargetHex) (fun maxTarget =>
  bind (bigIntOfFloor (difficulty * 1000000)%float) (fun difficultyBig =>
  difficultyToBits_rest maxTargetHex maxTarget difficultyBig)).

(** ** Hash comparison *)

Definition hashMeetsTarget (hashHex targetHex : list ascii) : completion bool :=
  bind (bigIntOfHex hashHex) (fun hashBig =>
  bind (bigIntOfHex targetHex) (fun targetBig =>
  Normal (hashBig <=? targetBig))).

(** ** Block header serialisation *)

Record BlockHeader : Type := mkBlockHeader {
  version : Z;
  previousBlockHash : list ascii;
  merkleRoot : list ascii;
  timestamp : Z;
  bits : Z;
  nonce : Z
}.

Definition setNonce (h : BlockHeader) (n : Z) : BlockHeader :=
  mkBlockHeader (version h) (previousBlockHash h) (merkleRoot h) (timestamp h) (bits h) n.

(** [for (let i = start; i < start + n; i++) body] *)
Fixpoint forLoop {S : Type} (n : nat) (i : Z) (body : Z -> S -> S) (s : S) : S :=
  match n with
  | O => s
  | S n' => forLoop n' (i + 1) body (body i s)
  end.

(** [view.setUint8(off, v)] and [view.setUint32(off, v, true)] on offsets
    inside the buffer. *)
Definition setUint8 (buf : list Z) (off : Z) (v : Z) : list Z :=
  <[Z.to_nat off := toUint8 v]> buf.

Definition setUint32LE (buf : list Z) (off : Z) (v : Z) : list Z :=
  let u := toUint32 v in
  let buf := <[Z.to_nat off := u mod 256]> buf in
  let buf := <[Z.to_nat (off + 1) := (u / 256) mod 256]> buf in
  let buf := <[Z.to_nat (off + 2) := (u / 65536) mod 256]> buf in
  <[Z.to_nat (off + 3) := (u / 16777216) mod 256]> buf.

Definition serializeBlockHeader (header : BlockHeader) : list Z :=
  let view := repeat 0 80 in
  let view := setUint32LE view 0 (version header) in
  let prevHashBytes := hexToBytes (previousBlockHash header) in
  let view :=
    forLoop 32 0 (fun i view => setUint8 view (4 + i) (default 0 (getIdx prevHashBytes i))) view in
  let merkleBytes := hexToBytes (merkleRoot header) in
  let view :=
    forLoop 32 0 (fun i view => setUint8 view (36 + i) (default 0 (getIdx merkleBytes i))) view in
  let view := setUint32LE view 68 (timestamp header) in
  let view := setUint32LE view 72 (bits header) in
  setUint32LE view 76 (nonce header).

(** ** Scrypt: Salsa20/8, BlockMix, ROMix *)

(** Reading a typed array element as a number operand: [undefined] acts
    as 0 under the bit operators and under a typed-array store. *)
Definition rd (a : list Z) (i : Z) : Z := default 0 (getIdx a i).

(** [R(a, b)] of [salsa20_8]. *)
Definition R (a b : Z) : Z := shr (JS.bor (shl a b) (shr a (32 - b))) 0.

(** [x[t] ^= R(x[a] + x[b], s)] *)
Definition arx (x : list Z) (q : Z * Z * Z * Z) : list Z :=
  let '(t, a, b, s) := q in
  setU32 x t (JS.bxor (rd x t) (R (rd x a + rd x b) s)).

Definition columnRound : list (Z * Z * Z * Z) :=
  [ (4, 0, 12, 7); (8, 4, 0, 9); (12, 8, 4, 13); (0, 12, 8, 18);
    (9, 5, 1, 7); (13, 9, 5, 9); (1, 13, 9, 13); (5, 1, 13, 18);
    (14, 10, 6, 7); (2, 14, 10, 9); (6, 2, 14, 13); (10, 6, 2, 18);
    (3, 15, 11, 7); (7, 3, 15, 9); (11, 7, 3, 13); (15, 11, 7, 18) ].

Definition rowRound : list (Z * Z * Z * Z) :=
  [ (1, 0, 3, 7); (2, 1, 0, 9); (3, 2, 1, 13); (0, 3, 2, 18);
    (6, 5, 4, 7); (7, 6, 5, 9); (4, 7, 6, 13); (5, 4, 7, 18);
    (11, 10, 9, 7); (8, 11, 10, 9); (9, 8, 11, 13); (10, 9, 8, 18);
    (12, 15, 14, 7); (13, 12, 15, 9); (14, 13, 12, 13); (15, 14, 13, 18) ].

Definition salsa20_8 (B : list Z) : list Z :=
  let x := repeat 0 16 in
  let x := forLoop 16 0 (fun i x => setU32 x i (rd B i)) x in
  let x := forLoop 4 0 (fun _ x => fold_left arx (columnRound ++ rowRound) x) x in
  forLoop 16 0 (fun i B => setU32 B i (shr (rd B i + rd x i) 0)) B.

Definition scryptBlockMix (B : list Z) (r : nat) : list Z :=
  let r := Z.of_nat r in
  let X := repeat 0 16 in
  let Y := repeat 0 (Z.to_nat (32 * r)) in
  let X := forLoop 16 0 (fun i X => setU32 X i (rd B ((2 * r - 1) * 16 + i))) X in
  let '(X, Y) :=
    forLoop (Z.to_nat (2 * r)) 0 (fun i '(X, Y) =>
      let X := forLoop 16 0 (fun j X => setU32 X j (JS.bxor (rd X j) (rd B (i * 16 + j)))) X in
      let X := salsa20_8 X in
      let Y := forLoop 16 0 (fun j Y => setU32 Y (i * 16 + j) (rd X j)) Y in
      (X, Y)) (X, Y) in
  forLoop (Z.to_nat r) 0 (fun i B =>
    forLoop 16 0 (fun j B =>
      let B := setU32 B (i * 16 + j) (rd Y (i * 2 * 16 + j)) in
      setU32 B ((r + i) * 16 + j) (rd Y ((i * 2 + 1) * 16 + j))) B) B.

(** Step 1 of [scryptROMix]; [V] grows by one copy of [B] per iteration
    ([V[i] = new Uint32Array(B)] for i = 0, 1, ...). *)
Fixpoint romixFill (n : nat) (r : nat) (s : list (list Z) * list Z) : list (list Z) * list Z :=
  match n with
  | O => s
  | S n' => let '(V, B) := s in romixFill n' r (V ++ [B], scryptBlockMix B r)
  end.

(** One iteration of step 2; [V[j][k]] on a missing [V[j]] is a TypeError. *)
Definition romixMixIter (V : list (list Z)) (N r : nat) (B : list Z) : completion (list Z) :=
  let blockSize := 32 * Z.of_nat r in
  let j := JS.band (rd B ((2 * Z.of_nat r - 1) * 16)) (Z.of_nat N - 1) in
  match (if j <? 0 then None else V !! Z.to_nat j) with
  | None => if blockSize <=? 0 then Normal (scryptBlockMix B r) else Throw TypeError
  | Some Vj =>
      let B := forLoop (Z.to_nat blockSize) 0 (fun k B => setU32 B k (JS.bxor (rd B k) (rd Vj k))) B in
      Normal (scryptBlockMix B r)
  end.

Fixpoint romixMix (n : nat) (V : list (list Z)) (N r : nat) (B : list Z) : completion (list Z) :=
  match n with
  | O => Normal B
  | S n' => bind (romixMixIter V N r B) (romixMix n' V N r)
  end.

Definition scryptROMix (B : list Z) (N r : nat) : completion (list Z) :=
  let '(V, B) := romixFill N r ([], B) in
  romixMix N V N r B.

(** *** The ROMix chain as section 4.5 words it *)

(** 32-bit XOR of two state blocks, word by word. *)
Definition xorBlocks (a b : list Z) : list Z :=
  zip_with (fun x y => toUint32 (JS.bxor x y)) a b.

(** Fill phase: [V[i] = state], then [state = BlockMix(state)]. *)
Fixpoint fillPhase (n r : nat) (state : list Z) : list (list Z) * list Z :=
  match n with
  | O => ([], state)
  | S n' =>
      let '(V, final) := fillPhase n' r (scryptBlockMix state r) in
      (state :: V, final)
  end.

(** Mix phase with the scratch index taken from the word at [idx]:
    [j = state[idx] & (N-1)], then [state = BlockMix(state XOR V[j])]. *)
Definition mixStep (idx : nat) (V : list (list Z)) (N r : nat) (state : list Z) : list Z :=
  let j := Z.land (state !!! idx) (Z.of_nat N - 1) in
  scryptBlockMix (xorBlocks state (V !!! Z.to_nat j)) r.

Definition romixWith (idx : nat) (B : list Z) (N r : nat) : list Z :=
  let '(V, state) := fillPhase N r B in
  Nat.iter N (mixStep idx V N r) state.

(** Index of the first word of the last 64-byte sub-block, and of the last
    word of the state. *)
Definition firstWordOfLastBlock (r : nat) : nat := (2 * r - 1) * 16.
Definition lastWordOfState (r : nat) : nat := 32 * r - 1.

(** ** Mining *)

Record MiningStats : Type := mkMiningStats {
  hashesComputed : Z;
  startTime : Q;
  hashRate : Q;
  elapsedTime : Q
}.

Record MiningResult : Type := mkMiningResult {
  success : bool;
  resultNonce : Z;
  resultHash : list ascii;
  resultStats : MiningStats
}.

(** One call [onProgress(nonce, hash, stats)]. *)
Record Progress : Type := mkProgress {
  progressNonce : Z;
  progressHash : list ascii;
  progressStats : MiningStats
}.

(** The variables of [mineBlock], the header object it shares with its
    caller, the calls made to [onProgress] so far (earliest first), and the
    position in the two streams the environment supplies. *)
Record MineState : Type := mkMineState {
  header : BlockHeader;
  curNonce : Z;
  curHash : list ascii;
  currentMiningStats : MiningStats;
  lastUpdateTime : Q;
  delivered : list Progress;
  clockReads : nat;
  awaits : nat
}.

Inductive BatchOutcome : Type :=
| BatchEnd (st : MineState)
| Returned (r : MiningResult) (st : MineState)
| Threw (e : error) (st : MineState).

Definition batchSize : nat := 100.

Section Mining.

(** [crypto.subtle]'s double SHA-256 (external). *)
Variable doubleSha256Bytes : list Z -> list Z.
(** The k-th reading of [performance.now()], in milliseconds. *)
Variable now : nat -> Q.
(** The value of the global [shouldStopMining] after the a-th [await]:
    other handlers run, and can set the flag, only while [mineBlock] is
    suspended. *)
Variable shouldStopMining : nat -> bool.

Definition loopCondition (maxAttempts : Z) (st : MineState) : bool :=
  (curNonce st <? maxAttempts) && negb (shouldStopMining (awaits st)).

(** Body of the inner [for], lines 701-726. *)
Definition attempt (target : list ascii) (st : MineState) : BatchOutcome :=
  let nonce := curNonce st in
  let header := setNonce (header st) nonce in
  let serialized := serializeBlockHeader header in
  let hashBytes := doubleSha256Bytes serialized in
  let awaits := S (awaits st) in
  let hash := bytesToHex (reverseBytes hashBytes) in
  let stats := currentMiningStats st in
  let hashes := hashesComputed stats + 1 in
  let t := now (clockReads st) in
  let clockReads := S (clockReads st) in
  let elapsed := ((t - startTime stats) / 1000)%Q in
  let rate :=
    if Qle_bool elapsed 0 then hashRate stats else (inject_Z hashes / elapsed)%Q in
  let stats := mkMiningStats hashes (startTime stats) rate elapsed in
  let st' :=
    mkMineState header nonce hash stats (lastUpdateTime st) (delivered st) clockReads awaits in
  match hashMeetsTarget hash target with
  | Throw e => Threw e st'
  | Normal true =>
      let st'' :=
        mkMineState header nonce hash stats (lastUpdateTime st)
          (delivered st ++ [mkProgress nonce hash stats]) clockReads awaits in
      Returned (mkMiningResult true nonce hash stats) st''
  | Normal false =>
      BatchEnd
        (mkMineState header (nonce + 1) hash stats (lastUpdateTime st) (delivered st)
           clockReads awaits)
  end.

(** The inner [for] with [left = batchSize - i] iterations to go. *)
Fixpoint batch (left : nat) (target : list ascii) (maxAttempts : Z) (st : MineState)
  : BatchOutcome :=
  match left with
  | O => BatchEnd st
  | S left' =>
      if loopCondition maxAttempts st then
        match attempt target st with
        | BatchEnd st' => batch left' target maxAttempts st'
        | other => other
        end
      else BatchEnd st
  end.

(** Lines 729-736: the periodic report and the yield. *)
Definition periodicUpdate (st : MineState) : MineState :=
  let t := now (clockReads st) in
  let clockReads := S (clockReads st) in
  if negb (Qle_bool (t - lastUpdateTime st) 50) then
    mkMineState (header st) (curNonce st) (curHash st) (currentMiningStats st) t
      (delivered st ++ [mkProgress (curNonce st - 1) (curHash st) (currentMiningStats st)])
      clockReads (S (awaits st))
  else
    mkMineState (header st) (curNonce st) (curHash st) (currentMiningStats st)
      (lastUpdateTime st) (delivered st) clockReads (awaits st).

(** The outer [while]; [fuel] bounds the number of batches. *)
Fixpoint mineLoop (fuel : nat) (target : list ascii) (maxAttempts : Z) (st : MineState)
  : option (completion MiningResult * MineState) :=
  match fuel with
  | O => None
  | S fuel' =>
      if loopCondition maxAttempts st then
        match batch batchSize target maxAttempts st with
        | BatchEnd st' => mineLoop fuel' target maxAttempts (periodicUpdate st')
        | Returned r st' => Some (Normal r, st')
        | Threw e st' => Some (Throw e, st')
        end
      else
        Some (Normal (mkMiningResult false (curNonce st) (curHash st) (currentMiningStats st)),
              st)
  end.

Definition initialState (hdr : BlockHeader) : MineState :=
  let start := now 0%nat in
  let stats := mkMiningStats 0 start 0 0 in
  mkMineState hdr 0 [] stats (now 1%nat) [] 2 0.

(** [mineBlock]: the result (or the exception) together with the final
    state, which holds the header object and the [onProgress] calls. *)
Definition mineBlock (hdr : BlockHeader) (maxAttempts : Z)
  : option (completion MiningResult * MineState) :=
  mineLoop (S (Z.to_nat maxAttempts)) (bitsToTarget (bits hdr)) maxAttempts (initialState hdr).

(** The digest that the search computes for nonce [n]. *)
Definition digestAt (hdr : BlockHeader) (n : Z) : list ascii :=
  bytesToHex (reverseBytes (doubleSha256Bytes (serializeBlockHeader (setNonce hdr n)))).

End Mining.

(** A stand-in digest for concrete runs: 32 bytes derived from the nonce
    bytes of the serialised header. *)
Definition toyDigest (data : list Z) : list Z :=
  let n := rd data 76 + 256 * rd data 77 in
  repeat 0 30 ++ [(n * 37 + 11) mod 256; (200 - n * 40) mod 256].

(** The inputs used by the concrete evaluations below. *)
Definition sampleBlock : list Z :=
  map (fun i => (Z.of_nat i * 2654435761) mod 2 ^ 32) (seq 0 32).

Definition sampleHeader : BlockHeader := mkBlockHeader 1 [] [] 0 536936447 0.

Definition steadyClock (k : nat) : Q := 0%Q.
Definition neverStop (a : nat) : bool := false.
Definition alwaysStop (a : nat) : bool := true.

(** A string is malformed hex when its length is odd or some character is
    not a radix-16 digit. *)
Definition isHexChar (c : ascii) : bool :=
  match digitVal c with
  | Some _ => true
  | None => false
  end.

Definition isMalformedHex (s : list ascii) : bool :=
  negb (Nat.eqb (length s mod 2) 0) || negb (forallb isHexChar s).

Definition isLowerHex (c : ascii) : bool := existsb (Ascii.eqb c) hexAlphabet.

(** Exactly [k] radix-16 digits of [n], most significant first. *)
Fixpoint hexDigitsOf (k : nat) (n : Z) : list ascii :=
  match k with
  | O => []
  | S k' => hexDigitsOf k' (n / 16) ++ [hexDigit (n mod 16)]
  end.

(** The 3-byte coefficient field of a compact value. *)
Definition coefficientOf (bits : Z) : Z := Z.land bits 16777215.

(** The coefficient that [bitsToTarget] keeps after the sign test. *)
Definition decodedCoefficient (bits : Z) : Z :=
  if JS.band bits 8388608 =? 0 then JS.band bits 8388607 else 0.

(** Value of a digit list read most significant digit first. *)
Definition digitsValue (ds : list Z) (acc : Z) : Z := fold_left (fun a d => a * 16 + d) ds acc.

(** The k-th byte that [hexToBytes] stores. *)
Definition byteAt (hex : list ascii) (k : nat) : Z :=
  toUint8 (default 0 (parseInt16 (substr (2 * k) 2 hex))).

(** [hexToBytes] and [targetToBits] contain no [throw] and call only
    built-ins that cannot throw on a string: their completion is normal. *)
Definition hexToBytes_completion (hex : list ascii) : completion (list Z) :=
  Normal (hexToBytes hex).

Definition targetToBits_completion (targetHex : list ascii) : completion Z :=
  Normal (targetToBits targetHex).

(** The difficulty-1 target, 0xffff * 2^208, as a number. *)
Definition maxTargetValue : Z := 65535 * 2 ^ 208.

(** The header fields other than [nonce]. *)
Definition frameOf (h : BlockHeader) : Z * list ascii * list ascii * Z * Z :=
  (version h, previousBlockHash h, merkleRoot h, timestamp h, bits h).

(** The snapshot that a result stands for. *)
Definition snapshotOf (r : MiningResult) : Progress :=
  mkProgress (resultNonce r) (resultHash r) (resultStats r).

(** Nonces of a sequence of snapshots, in delivery order. *)
Definition noncesOf (ps : list Progress) : list Z := map progressNonce ps.

(** What holds of the snapshots delivered so far at the head of the outer
    loop of [mineBlock]: their nonces increase and lie below the cursor. *)
Definition ordered (st : MineState) : Prop :=
  StronglySorted Z.lt (noncesOf (delivered st)) /\
  Forall (fun x => x < curNonce st) (noncesOf (delivered st)).

(** The cancellation flag set during the k-th [await]. *)
Definition stopAfter (k a : nat) : bool := (k <=? a)%nat.

(** NaN and the two infinities. *)
Definition nonFinite (d : float) : Prop :=
  Prim2SF d = S754_nan \/ exists s, Prim2SF d = S754_infinity s.

(** Sixteen little-endian 32-bit words of a 64-byte string, and the
    Salsa20/8 core test vector of RFC 7914, section 8. *)
Definition leWords (bs : list Z) : list Z :=
  map (fun i =>
         let k := 4 * Z.of_nat i in
         rd bs k + 256 * rd bs (k + 1) + 65536 * rd bs (k + 2) + 16777216 * rd bs (k + 3))
      (seq 0 16).

Definition rfc7914_salsa_input : list Z :=
  leWords (hexToBytes (str
    "7e879a214f3ec9867ca940e641718f26baee555b8c61c1b50df846116dcd3b1dee24f319df9b3d8514121e4b5ac5aa3276021d2909c74829edebc68db8b8c25e")).

Definition rfc7914_salsa_output : list Z :=
  leWords (hexToBytes (str
    "a41f859c6608cc993b81cacb020cef05044b2181a2fd337dfd7b1c6396682f29b4393168e3c9e6bcfe6bc5b7a06d96bae424cc102c91745c24ad673dc7618f81")).

(** ** Further definitions: invariants and reference semantics *)

(** What holds of the state of [mineBlock] at the head of the outer loop,
    for the header [hdr] it was started on: only the nonce of the header
    has moved, one hash has been counted per nonce tried, every nonce below
    the cursor has failed, no more hashes than awaits have happened, and none
    after the cancellation flag was raised for good. *)
Definition searchInv (doubleSha256Bytes : list Z -> list Z) (shouldStopMining : nat -> bool)
    (target : list ascii) (maxAttempts : Z) (hdr : BlockHeader) (st : MineState) : Prop :=
  frameOf (header st) = frameOf hdr /\
  0 <= curNonce st <= Z.max 0 maxAttempts /\
  hashesComputed (currentMiningStats st) = curNonce st /\
  curNonce st <= Z.of_nat (awaits st) /\
  (forall k, (forall a, (k <= a)%nat -> shouldStopMining a = true) ->
             curNonce st <= Z.of_nat k) /\
  (curNonce st = 0 -> header st = hdr /\ curHash st = []) /\
  (0 < curNonce st ->
     nonce (header st) = curNonce st - 1 /\
     curHash st = digestAt doubleSha256Bytes hdr (curNonce st - 1)) /\
  (forall m, 0 <= m < curNonce st ->
     hashMeetsTarget (digestAt doubleSha256Bytes hdr m) target = Normal false).

(** What a run of [mineBlock] on [hdr] has established when it ends with
    [out] in state [st']. *)
Definition searchEnding (doubleSha256Bytes : list Z -> list Z) (shouldStopMining : nat -> bool)
    (target : list ascii) (maxAttempts : Z) (hdr : BlockHeader)
    (out : completion MiningResult) (st' : MineState) : Prop :=
  match out with
  | Normal r =>
      hashesComputed (resultStats r) = resultNonce r + (if success r then 1 else 0) /\
      (forall m, 0 <= m < resultNonce r ->
         hashMeetsTarget (digestAt doubleSha256Bytes hdr m) target = Normal false) /\
      frameOf (header st') = frameOf hdr /\
      (forall k, (forall a, (k <= a)%nat -> shouldStopMining a = true) ->
                 hashesComputed (resultStats r) <= Z.of_nat k) /\
      if success r then
        0 <= resultNonce r < maxAttempts /\
        resultHash r = digestAt doubleSha256Bytes hdr (resultNonce r) /\
        hashMeetsTarget (resultHash r) target = Normal true /\
        nonce (header st') = resultNonce r
      else
        0 <= resultNonce r <= Z.max 0 maxAttempts /\
        (resultNonce r < maxAttempts -> exists a, shouldStopMining a = true) /\
        (resultNonce r = 0 -> header st' = hdr /\ resultHash r = []) /\
        (0 < resultNonce r ->
           resultHash r = digestAt doubleSha256Bytes hdr (resultNonce r - 1))
  | Throw e =>
      exists m, 0 <= m < maxAttempts /\
        hashMeetsTarget (digestAt doubleSha256Bytes hdr m) target = Throw e
  end.

(** [reverseHex] *)
Definition reverseHex (hex : list ascii) : list ascii :=
  bytesToHex (reverseBytes (hexToBytes hex)).

(** The number that a string of radix-16 digits denotes. *)
Definition hexValue (s : list ascii) : Z := fst (readDigits s 0 0).

(** The comparison [a < b] of a possibly-NaN number with a number. *)
Definition numLt (a : option Z) (b : Z) : bool :=
  match a with
  | Some x => x <? b
  | None => false
  end.

(** The loop of [countLeadingZeroBits], entered with [bits] counted so far;
    the [break] ends it. *)
Fixpoint countLeadingZeroBits_loop (bits : Z) (hashHex : list ascii) : Z :=
  match hashHex with
  | [] => bits
  | char :: rest =>
      let nibble := parseInt16 [char] in
      match nibble with
      | Some 0 => countLeadingZeroBits_loop (bits + 4) rest
      | _ =>
          let bits := if numLt nibble 8 then bits + 1 else bits in
          let bits := if numLt nibble 4 then bits + 1 else bits in
          if numLt nibble 2 then bits + 1 else bits
      end
  end.

Definition countLeadingZeroBits (hashHex : list ascii) : Z :=
  countLeadingZeroBits_loop 0 hashHex.

(** The number that a compact value stands for, as [bitsToTarget] decodes
    it: the coefficient shifted by whole bytes, with the all-ones 256-bit
    number on overflow. *)
Definition targetOf (bits : Z) : Z :=
  let e := exponentOf bits in
  let c := decodedCoefficient bits in
  if e <=? 3 then c / 256 ^ (3 - e)
  else if 32 <? e then 2 ^ 256 - 1
  else c * 256 ^ (e - 3).

(** Number of significant hexadecimal digits of a natural number. *)
Definition hexLen (V : Z) : nat :=
  if V =? 0 then 0%nat else Z.to_nat (Z.log2 V / 4 + 1).

(** Number of bytes that [targetToBits] counts for a number: one for
    zero, otherwise the bytes up to the leading non-zero one. *)
Definition byteLength (V : Z) : Z :=
  if V =? 0 then 1 else Z.log2 V / 8 + 1.

(** The compact value that [targetToBits] computes for a number: the top
    three bytes as coefficient (left-aligned for a shorter number) and the
    byte count as exponent, the coefficient losing one more byte when its
    bit 23 is set. *)
Definition compactOf (V : Z) : Z :=
  let n := byteLength V in
  let v := if 3 <=? n then V / 256 ^ (n - 3) else V * 256 ^ (3 - n) in
  if v <? 8388608 then n * 2 ^ 24 + v else (n + 1) * 2 ^ 24 + v / 256.

(** The four bytes that [setUint32(off, v, true)] stores, low byte first. *)
Definition le32 (v : Z) : list Z :=
  let u := toUint32 v in
  [u mod 256; (u / 256) mod 256; (u / 65536) mod 256; (u / 16777216) mod 256].

(** The 32 bytes that the serialisation keeps of a hash string. *)
Definition hashField (hex : list ascii) : list Z :=
  take 32 (hexToBytes hex ++ repeat 0 32).

(** ** Highlighting *)



Definition dquote : ascii := ascii_of_nat 34.

(** The template [<span class=(dq)char CLS(dq)>C</span>], (dq) the double
    quote. *)
Definition span (cls c : list ascii) : list ascii :=
  str "<span class=" ++ [dquote] ++ str "char " ++ cls ++ [dquote] ++ str ">" ++ c ++
  str "</span>".




Fixpoint highlightTarget_loop (target : list ascii) (inLeadingZeros : bool)
    (html : list ascii) : list ascii :=
  match target with
  | [] => html
  | char :: rest =>
      if inLeadingZeros && Ascii.eqb char "0" then
        highlightTarget_loop rest inLeadingZeros (html ++ span (str "zero") [char])
      else
        highlightTarget_loop rest false (html ++ span (str "significant") [char])
  end.

Definition highlightTarget (target : list ascii) : list ascii :=
  highlightTarget_loop target true [].

(** One span of class [cls] per character. *)
Definition spans (cls s : list ascii) : list ascii :=
  flat_map (fun c => span cls [c]) s.


(** ** Difficulty from compact bits *)

(** [Number(b)] for a BigInt [b]: the nearest binary64 value, ties to
    even, infinite from 2^1024 - 2^970 on. *)
Definition numberOfBigInt (z : Z) : float :=
  SF2Prim (binary_normalize prec emax z 0 false).

Definition bitsToDifficulty (bits : Z) : completion float :=
  let targetHex := bitsToTarget bits in
  let maxTargetHex := bitsToTarget MAX_TARGET_BITS in
  bind (bigIntOfHex targetHex) (fun target =>
  bind (bigIntOfHex maxTargetHex) (fun maxTarget =>
  if target =? 0 then Normal infinity
  else
    bind (bigIntDiv (maxTarget * 1000000) target) (fun difficultyBig =>
    Normal (numberOfBigInt difficultyBig / 1000000)%float))).

Record DifficultyInfo : Type := mkDifficultyInfo {
  infoBits : Z;
  bitsHex : list ascii;
  infoTarget : list ascii;
  difficulty : float;
  expectedHashes : float;
  probability : float
}.

Definition calculateDifficultyInfo (bits : Z) : completion DifficultyInfo :=
  let target := bitsToTarget bits in
  bind (bitsToDifficulty bits) (fun difficulty =>
  let expectedHashes := (difficulty * 4294967296)%float in
  let probability := (1 / expectedHashes)%float in
  Normal (mkDifficultyInfo bits (str "0x" ++ padStart 8 "0" (toString16 bits)) target
            difficulty expectedHashes probability)).

(** ** Block header creation *)

(** [createBlockHeader]; [seconds] is the value of
    [Math.floor(Date.now() / 1000)] at the call.  An empty [previousHash]
    is falsy and replaced by 64 zeros. *)
Definition createBlockHeader (blockData previousHash : list ascii) (bits seconds : Z)
  : BlockHeader :=
  let merkleRoot := slice0 64 (padEnd 64 "0" blockData) in
  mkBlockHeader 536870912
    (match previousHash with [] => repeat "0"%char 64 | _ => previousHash end)
    merkleRoot seconds bits 0.

(** ** BlockMix on blocks *)

(** The [i]-th 16-word block of a state. *)
Definition blockOf (B : list Z) (i : nat) : list Z := take 16 (drop (16 * i) B).

(** The running block of BlockMix over the input blocks:
    X := Salsa20/8 (X xor B_i), each value kept. *)
Fixpoint mixChain (blocks : list (list Z)) (X : list Z) : list (list Z) :=
  match blocks with
  | [] => []
  | b :: bs => let X' := salsa20_8 (xorBlocks X b) in X' :: mixChain bs X'
  end.

(** BlockMix as the comment in [scryptBlockMix] words it: with Y the
    chain started from the last block, the result is Y[0], Y[2], ...,
    Y[2r-2], Y[1], Y[3], ..., Y[2r-1]. *)
Definition blockMixOf (B : list Z) (r : nat) : list Z :=
  let Y := concat (mixChain (map (blockOf B) (seq 0 (2 * r))) (blockOf B (2 * r - 1))) in
  flat_map (fun i => blockOf Y (2 * i)) (seq 0 r) ++
  flat_map (fun i => blockOf Y (2 * i + 1)) (seq 0 r).

(** 32-bit words, as a [Uint32Array] holds them. *)
Definition words32 (a : list Z) : Prop := Forall (fun w => 0 <= w < 4294967296) a.

(** ROMix over BlockMix in block form: the scratch pad holds the
    successive states, and each mix iteration picks V[j] by the first word
    of the last block. *)
Fixpoint fillPhaseOf (n r : nat) (state : list Z) : list (list Z) * list Z :=
  match n with
  | O => ([], state)
  | S n' =>
      let '(V, final) := fillPhaseOf n' r (blockMixOf state r) in
      (state :: V, final)
  end.

Definition mixStepOf (V : list (list Z)) (N r : nat) (state : list Z) : list Z :=
  let j := Z.land (state !!! firstWordOfLastBlock r) (Z.of_nat N - 1) in
  blockMixOf (xorBlocks state (V !!! Z.to_nat j)) r.

Definition romixOf (B : list Z) (N r : nat) : list Z :=
  let '(V, state) := fillPhaseOf N r B in
  Nat.iter N (mixStepOf V N r) state.

(** A state of 2r blocks of 32-bit words. *)
Definition stateOk (r : nat) (s : list Z) : Prop :=
  length s = (32 * r)%nat /\ words32 s.

(** * Properties *)

(** ** 32-bit conversions *)

Lemma toInt32_small (z : Z) : - 2 ^ 31 <= z < 2 ^ 31 -> toInt32 z = z.
Proof.
  intros Hz. unfold toInt32. rewrite Z.mod_small; lia.
Qed.

Lemma toInt32_mod (z : Z) : toInt32 z mod 2 ^ 32 = z mod 2 ^ 32.
Proof.
  unfold toInt32.
  rewrite Zminus_mod, Z.mod_mod by lia.
  rewrite <- Zminus_mod. f_equal. lia.
Qed.

Lemma toInt32_testbit (z i : Z) : i < 32 -> Z.testbit (toInt32 z) i = Z.testbit z i.
Proof.
  intros Hi.
  rewrite <- (Z.mod_pow2_bits_low (toInt32 z) 32 i Hi).
  rewrite toInt32_mod. now apply Z.mod_pow2_bits_low.
Qed.

Lemma land_toInt32_mask (z m : Z) : 0 <= m < 2 ^ 31 -> JS.band z m = Z.land z m.
Proof.
  intros Hm. unfold JS.band. rewrite (toInt32_small m) by lia.
  apply Z.bits_inj'. intros i Hi. rewrite !Z.land_spec.
  destruct (Z.ltb_spec i 32) as [Hlt | Hge].
  - now rewrite toInt32_testbit.
  - replace (Z.testbit m i) with false; [now rewrite !andb_false_r |].
    symmetry. rewrite <- (Z.mod_small m (2 ^ 31)) by lia.
    apply Z.mod_pow2_bits_high. lia.
Qed.

Lemma and_ones (z n : Z) : 0 <= n <= 31 -> JS.band z (Z.ones n) = z mod 2 ^ n.
Proof.
  intros Hn.
  assert (0 < 2 ^ n <= 2 ^ 31).
  { split; [apply Z.pow_pos_nonneg; lia | apply Z.pow_le_mono_r; lia]. }
  rewrite land_toInt32_mask.
  - apply Z.land_ones. lia.
  - rewrite Z.ones_equiv. lia.
Qed.

Lemma land_mask_range (a m : Z) : 0 <= m -> 0 <= Z.land a m <= m.
Proof.
  intros Hm. apply Z.ldiff_le; [exact Hm |].
  apply Z.bits_inj'. intros i _.
  rewrite Z.ldiff_spec, Z.land_spec, Z.bits_0.
  destruct (Z.testbit a i), (Z.testbit m i); reflexivity.
Qed.

Lemma exponentOf_range (bits : Z) : 0 <= exponentOf bits <= 255.
Proof.
  unfold exponentOf. change 255 with (Z.ones 8). rewrite and_ones by lia.
  change (2 ^ 8) with 256. change (Z.ones 8) with 255.
  pose proof (Z.mod_pos_bound (sar bits 24) 256 ltac:(lia)). lia.
Qed.

Lemma exponentOf_uint32 (bits : Z) : 0 <= bits < 2 ^ 32 -> exponentOf bits = bits / 2 ^ 24.
Proof.
  intros Hb. unfold exponentOf. change 255 with (Z.ones 8). rewrite and_ones by lia.
  unfold sar. change (toUint32 24 mod 32) with 24. rewrite Z.shiftr_div_pow2 by lia.
  unfold toInt32. 
  assert (Hcase : (bits + 2 ^ 31) mod 2 ^ 32 = bits + 2 ^ 31
                  \/ (bits + 2 ^ 31) mod 2 ^ 32 = bits + 2 ^ 31 - 2 ^ 32).
  { destruct (Z.lt_ge_cases bits (2 ^ 31)).
    - left. apply Z.mod_small. lia.
    - right. symmetry. apply Z.mod_unique with 1; lia. }
  change (2 ^ 8) with 256. change (2 ^ 24) with 16777216 in *.
  change (2 ^ 31) with 2147483648 in *. change (2 ^ 32) with 4294967296 in *.
  destruct Hcase as [-> | ->]; Z.div_mod_to_equations; lia.
Qed.

(** ** Radix-16 digits and strings *)

Ltac by_digit_cases d :=
  let k := fresh "k" in
  let Hk := fresh "Hk" in
  set (k := Z.to_nat d);
  assert (Hk : d = Z.of_nat k) by lia;
  assert (k < 16)%nat by lia;
  rewrite Hk; clearbody k; clear Hk;
  do 16 (destruct k as [| k]; [repeat split; reflexivity |]); lia.

Lemma hexDigit_lower (d : Z) : 0 <= d < 16 -> isLowerHex (hexDigit d) = true.
Proof. intros Hd. by_digit_cases d. Qed.

Lemma digitVal_hexDigit (d : Z) : 0 <= d < 16 -> digitVal (hexDigit d) = Some d.
Proof. intros Hd. by_digit_cases d. Qed.

Lemma hexDigit_is_zero (d : Z) : 0 <= d < 16 -> Ascii.eqb (hexDigit d) "0" = (d =? 0).
Proof. intros Hd. by_digit_cases d. Qed.

Lemma hexDigit_not_space (d : Z) : 0 <= d < 16 -> isWhiteSpace (hexDigit d) = false.
Proof. intros Hd. by_digit_cases d. Qed.

Lemma hexDigit_not_sign (d : Z) :
  0 <= d < 16 ->
  Ascii.eqb (hexDigit d) "-" = false /\ Ascii.eqb (hexDigit d) "+" = false /\
  Ascii.eqb (hexDigit d) "x" = false /\ Ascii.eqb (hexDigit d) "X" = false.
Proof. intros Hd. by_digit_cases d. Qed.

Lemma hexDigitsOf_length (k : nat) (n : Z) : length (hexDigitsOf k n) = k.
Proof.
  revert n. induction k as [| k IH]; intros n; simpl; [reflexivity |].
  rewrite length_app, IH. simpl. lia.
Qed.

Lemma hexDigitsOf_zero (k : nat) : hexDigitsOf k 0 = repeat "0"%char k.
Proof.
  induction k as [| k IH]; simpl; [reflexivity |].
  change (0 / 16) with 0. rewrite IH. change (hexDigit (0 mod 16)) with "0"%char.
  now rewrite repeat_cons.
Qed.

Lemma hexDigitsOf_lower (k : nat) (n : Z) : forallb isLowerHex (hexDigitsOf k n) = true.
Proof.
  revert n. induction k as [| k IH]; intros n; simpl; [reflexivity |].
  rewrite forallb_app, IH. simpl.
  rewrite hexDigit_lower; [reflexivity |]. apply Z.mod_pos_bound. lia.
Qed.

Lemma toHexDigits_spec (f : nat) :
  forall n acc,
    (1 <= f)%nat -> 0 <= n < 16 ^ Z.of_nat f ->
    exists j, (1 <= j)%nat /\
      toHexDigits f n acc = hexDigitsOf j n ++ acc /\
      forall k, (1 <= k)%nat -> n < 16 ^ Z.of_nat k ->
        (j <= k)%nat /\ hexDigitsOf k n = repeat "0"%char (k - j) ++ hexDigitsOf j n.
Proof.
  induction f as [| f IH]; intros n acc Hf Hn; [lia |].
  simpl. destruct (Z.eqb_spec (n / 16) 0) as [Hq | Hq].
  - exists 1%nat. split; [lia |]. split.
    + reflexivity.
    + intros k Hk _. split; [lia |].
      destruct k as [| k]; [lia |]. simpl. rewrite Hq, hexDigitsOf_zero.
      now replace (k - 0)%nat with k by lia.
  - assert (Hn16 : 16 <= n) by (Z.div_mod_to_equations; lia).
    assert (Hf1 : (1 <= f)%nat).
    { destruct f as [| f]; [| lia]. simpl in Hn. lia. }
    assert (Hdiv : 0 <= n / 16 < 16 ^ Z.of_nat f).
    { rewrite Nat2Z.inj_succ, Z.pow_succ_r in Hn by lia.
      split; [apply Z.div_pos; lia | apply Z.div_lt_upper_bound; lia]. }
    destruct (IH (n / 16) (hexDigit (n mod 16) :: acc) Hf1 Hdiv) as (j & Hj & Heq & Hall).
    exists (S j). split; [lia |]. split.
    + rewrite Heq. simpl. now rewrite <- app_assoc.
    + intros k Hk Hnk. destruct k as [| k]; [lia |].
      assert (Hk1 : (1 <= k)%nat).
      { destruct k as [| k]; [| lia]. simpl in Hnk. lia. }
      assert (Hdk : n / 16 < 16 ^ Z.of_nat k).
      { rewrite Nat2Z.inj_succ, Z.pow_succ_r in Hnk by lia.
        apply Z.div_lt_upper_bound; lia. }
      destruct (Hall k Hk1 Hdk) as [Hjk Hrep].
      split; [lia |]. simpl. rewrite Hrep. now rewrite <- app_assoc.
Qed.

Lemma fuel_covers (n : Z) : 0 <= n -> n < 16 ^ Z.of_nat (S (Z.to_nat (Z.log2 n))).
Proof.
  intros Hn. rewrite Nat2Z.inj_succ, Z2Nat.id by apply Z.log2_nonneg.
  destruct (Z.eq_dec n 0) as [-> | Hne]; [reflexivity |].
  pose proof (Z.log2_spec n ltac:(lia)) as [_ Hlt].
  assert (2 ^ Z.succ (Z.log2 n) <= 16 ^ Z.succ (Z.log2 n)).
  { apply Z.pow_le_mono_l. lia. }
  lia.
Qed.

(** [n.toString(16).padStart(k, '0')] is the [k]-digit rendering of [n]. *)
Lemma padStart_toString16 (k : nat) (n : Z) :
  (1 <= k)%nat -> 0 <= n < 16 ^ Z.of_nat k ->
  padStart k "0" (toString16 n) = hexDigitsOf k n.
Proof.
  intros Hk Hn. unfold toString16.
  destruct (Z.ltb_spec n 0) as [| _]; [lia |].
  destruct (toHexDigits_spec (S (Z.to_nat (Z.log2 n))) n [] ltac:(lia)) as (j & Hj & Heq & Hall).
  { split; [lia | apply fuel_covers; lia]. }
  destruct (Hall k Hk ltac:(lia)) as [Hjk Hrep].
  rewrite Heq, app_nil_r. unfold padStart. now rewrite hexDigitsOf_length, Hrep.
Qed.

Lemma stripLeadingZeros_repeat (k : nat) (s : list ascii) :
  stripLeadingZeros (repeat "0"%char k ++ s) = stripLeadingZeros s.
Proof. induction k as [| k IH]; simpl; [reflexivity | exact IH]. Qed.

(** ** Compact target codec: shape of the decoded target *)

Lemma decodedCoefficient_range (bits : Z) : 0 <= decodedCoefficient bits < 2 ^ 23.
Proof.
  unfold decodedCoefficient. destruct (JS.band bits 8388608 =? 0); [| lia].
  change 8388607 with (Z.ones 23). rewrite and_ones by lia.
  apply Z.mod_pos_bound. lia.
Qed.

Lemma sar_bytes_range (c k : Z) :
  0 <= c < 2 ^ 23 -> 0 <= k <= 3 -> 0 <= sar c (8 * k) <= c.
Proof.
  intros Hc Hk. unfold sar. rewrite toInt32_small by lia.
  assert (Hcases : k = 0 \/ k = 1 \/ k = 2 \/ k = 3) by lia.
  destruct Hcases as [-> | [-> | [-> | ->]]];
    match goal with
    | |- context [Z.shiftr c ?s] =>
        let v := eval vm_compute in s in change s with v
    end;
    rewrite Z.shiftr_div_pow2 by lia;
    match goal with
    | |- context [2 ^ ?s] => let v := eval vm_compute in (2 ^ s) in change (2 ^ s) with v
    end;
    Z.div_mod_to_equations; lia.
Qed.

Lemma bitsToTarget_shape (bits : Z) :
  let e := exponentOf bits in
  let c := decodedCoefficient bits in
  bitsToTarget bits =
    if e <=? 3 then hexDigitsOf 64 (sar c (8 * (3 - e)))
    else if 32 <? e then repeat "f"%char 64
    else repeat "0"%char (Z.to_nat (64 - 2 * e)) ++ hexDigitsOf 6 c
           ++ repeat "0"%char (Z.to_nat (2 * (e - 3))).
Proof.
  intros e c. unfold bitsToTarget. fold (decodedCoefficient bits). fold e. fold c.
  pose proof (decodedCoefficient_range bits) as Hc. fold c in Hc.
  pose proof (exponentOf_range bits) as He. fold e in He.
  destruct (Z.leb_spec e 3) as [He3 | He3].
  - pose proof (sar_bytes_range c (3 - e) Hc ltac:(lia)) as Hs.
    rewrite padStart_toString16.
    + unfold slice0. rewrite <- (hexDigitsOf_length 64 (sar c (8 * (3 - e)))) at 1.
      apply firstn_all.
    + lia.
    + split; [lia |]. apply Z.le_lt_trans with c; [lia |].
      apply Z.lt_trans with (2 ^ 23); [lia | reflexivity].
  - assert (Hpos : (64 - (e - 3) * 2 - 6 <? 0) = (32 <? e)).
    { destruct (Z.ltb_spec 32 e), (Z.ltb_spec (64 - (e - 3) * 2 - 6) 0); (reflexivity || lia). }
    rewrite Hpos.
    destruct (Z.ltb_spec 32 e) as [Hov | Hin].
    + reflexivity.
    + rewrite padStart_toString16; [| lia | split; [lia | apply Z.lt_trans with (2 ^ 23); [lia | reflexivity]]].
      unfold repeatStr, slice0.
      replace (64 - (e - 3) * 2 - 6) with (64 - 2 * e) by lia.
      replace ((e - 3) * 2) with (2 * (e - 3)) by lia.
      set (t := repeat "0"%char (Z.to_nat (64 - 2 * e)) ++ _).
      assert (Hlen : length t = 64%nat).
      { unfold t. rewrite !length_app, !repeat_length, hexDigitsOf_length. lia. }
      rewrite <- Hlen. apply firstn_all.
Qed.

Lemma forallb_repeat (P : ascii -> bool) (c : ascii) (k : nat) :
  P c = true -> forallb P (repeat c k) = true.
Proof. intros Hc. induction k as [| k IH]; simpl; [reflexivity | now rewrite Hc, IH]. Qed.

Lemma bitsToTarget_length (bits : Z) : length (bitsToTarget bits) = 64%nat.
Proof.
  rewrite bitsToTarget_shape.
  pose proof (exponentOf_range bits) as He.
  destruct (Z.leb_spec (exponentOf bits) 3); [apply hexDigitsOf_length |].
  destruct (Z.ltb_spec 32 (exponentOf bits)); [apply repeat_length |].
  rewrite !length_app, !repeat_length, hexDigitsOf_length. lia.
Qed.

Lemma bitsToTarget_lower (bits : Z) : forallb isLowerHex (bitsToTarget bits) = true.
Proof.
  rewrite bitsToTarget_shape.
  destruct (Z.leb_spec (exponentOf bits) 3); [apply hexDigitsOf_lower |].
  destruct (Z.ltb_spec 32 (exponentOf bits)); [now apply forallb_repeat |].
  rewrite !forallb_app, hexDigitsOf_lower, !forallb_repeat; reflexivity.
Qed.

(** C8. For every 32-bit compact value whose exponent is at least 3,
    [bitsToTarget] returns exactly 64 characters, all of them lowercase
    radix-16 digits; on the overflow side (exponent above 32) the result is
    64 times the character f. *)
Theorem bitsToTarget_hex64 (bits : Z) :
  0 <= bits < 2 ^ 32 -> 3 <= exponentOf bits ->
  (length (bitsToTarget bits) = 64%nat /\ forallb isLowerHex (bitsToTarget bits) = true) /\
  (32 < exponentOf bits -> bitsToTarget bits = repeat "f"%char 64).
Proof.
  intros _ He. split.
  - split; [apply bitsToTarget_length | apply bitsToTarget_lower].
  - intros Hov. rewrite bitsToTarget_shape.
    destruct (Z.leb_spec (exponentOf bits) 3); [lia |].
    destruct (Z.ltb_spec 32 (exponentOf bits)); [reflexivity | lia].
Qed.

Lemma bitsToTarget_hex64_witness :
  length (bitsToTarget 486604799) = 64%nat /\
  forallb isLowerHex (bitsToTarget 486604799) = true.
Proof.
  apply (bitsToTarget_hex64 486604799); [vm_compute; split; [discriminate | reflexivity] |].
  vm_compute. discriminate.
Defined.

Lemma targetToBits_zeros (k : nat) : targetToBits (repeat "0"%char k) = 16777216.
Proof.
  unfold targetToBits.
  rewrite <- (app_nil_r (repeat "0"%char k)), stripLeadingZeros_repeat.
  reflexivity.
Qed.

(** C10. Every all-zero target string, of any length, encodes to the
    compact value 0x01000000 (exponent 1, coefficient 0, sign bit clear),
    which is not 0, and that value decodes to the all-zero target. *)
Theorem targetToBits_all_zero (k : nat) :
  targetToBits (repeat "0"%char k) = 16777216 /\
  exponentOf 16777216 = 1 /\ coefficientOf 16777216 = 0 /\
  bitsToTarget (targetToBits (repeat "0"%char k)) = repeat "0"%char 64.
Proof.
  rewrite targetToBits_zeros. repeat split.
Qed.

(** ** [parseInt] on digit strings *)

Lemma readDigits_hexDigits (ds : list Z) :
  Forall (fun d => 0 <= d < 16) ds ->
  forall acc k,
    readDigits (map hexDigit ds) acc k = (digitsValue ds acc, (k + length ds)%nat).
Proof.
  induction 1 as [| d ds Hd _ IH]; intros acc k; simpl.
  - f_equal. lia.
  - rewrite digitVal_hexDigit by exact Hd. rewrite IH. unfold digitsValue. simpl.
    f_equal. lia.
Qed.

Lemma parseInt16_hexDigits (d : Z) (ds : list Z) :
  Forall (fun d => 0 <= d < 16) (d :: ds) ->
  parseInt16 (map hexDigit (d :: ds)) = Some (digitsValue (d :: ds) 0).
Proof.
  intros Hall. pose proof Hall as Hall'. inversion Hall' as [| ? ? Hd Hds]; subst.
  destruct (hexDigit_not_sign d Hd) as (Hm & Hp & _ & _).
  unfold parseInt16. cbn [map trimStart].
  rewrite hexDigit_not_space by exact Hd. rewrite Hm, Hp.
  assert (Hpre : stripHexPrefix (hexDigit d :: map hexDigit ds) = map hexDigit (d :: ds)).
  { destruct ds as [| d' ds']; [reflexivity |].
    inversion Hds as [| ? ? Hd' _]; subst.
    destruct (hexDigit_not_sign d' Hd') as (_ & _ & Hx & HX).
    cbn [map stripHexPrefix]. rewrite Hx, HX. cbn [orb]. now rewrite andb_false_r. }
  rewrite Hpre, (readDigits_hexDigits _ Hall). reflexivity.
Qed.

Lemma six_digits (c : Z) :
  0 <= c < 16 ^ 6 ->
  exists d5 d4 d3 d2 d1 d0,
    Forall (fun d => 0 <= d < 16) [d5; d4; d3; d2; d1; d0] /\
    c = ((((d5 * 16 + d4) * 16 + d3) * 16 + d2) * 16 + d1) * 16 + d0 /\
    hexDigitsOf 6 c = map hexDigit [d5; d4; d3; d2; d1; d0].
Proof.
  intros Hc. change (16 ^ 6) with 16777216 in Hc.
  exists (c / 16 / 16 / 16 / 16 / 16 mod 16), (c / 16 / 16 / 16 / 16 mod 16),
    (c / 16 / 16 / 16 mod 16), (c / 16 / 16 mod 16), (c / 16 mod 16), (c mod 16).
  split; [| split].
  - repeat constructor; apply Z.mod_pos_bound; lia.
  - Z.div_mod_to_equations. lia.
  - reflexivity.
Qed.

(** ** Compact target codec: round trip *)

Lemma even_length_mod (n : nat) : ((2 * n) mod 2 = 0)%nat.
Proof. rewrite Nat.mul_comm. apply Nat.Div0.mod_mul. Qed.

Lemma even_length_div (n : nat) : ((2 * n) / 2 = n)%nat.
Proof. rewrite Nat.mul_comm. apply Nat.div_mul. lia. Qed.

Lemma odd_length_mod (n : nat) : ((1 + 2 * n) mod 2 = 1)%nat.
Proof. rewrite (Nat.mul_comm 2 n), Nat.Div0.mod_add. reflexivity. Qed.

Lemma land_bit23 (x : Z) : 0 <= x < 2 ^ 24 -> Z.land x 8388608 = if x <? 8388608 then 0 else 8388608.
Proof.
  intros Hx. apply Z.bits_inj'. intros i Hi.
  rewrite Z.land_spec. change 8388608 with (2 ^ 23) at 1. rewrite Z.pow2_bits_eqb by lia.
  destruct (Z.eqb_spec 23 i) as [<- | Hne].
  - rewrite andb_true_r. rewrite Z.testbit_eqb by lia.
    change (2 ^ 23) with 8388608. change (2 ^ 24) with 16777216 in Hx.
    destruct (Z.ltb_spec x 8388608).
    + rewrite Z.bits_0. apply Z.eqb_neq. Z.div_mod_to_equations. lia.
    + change 8388608 with (2 ^ 23) at 2. rewrite Z.pow2_bits_eqb by lia. rewrite Z.eqb_refl.
      apply Z.eqb_eq. Z.div_mod_to_equations. lia.
  - rewrite andb_false_r. destruct (x <? 8388608); [now rewrite Z.bits_0 |].
    change 8388608 with (2 ^ 23). rewrite Z.pow2_bits_eqb by lia.
    symmetry. now apply Z.eqb_neq.
Qed.

Lemma lor_shifted (e c : Z) : 0 <= c < 2 ^ 24 -> Z.lor (e * 2 ^ 24) c = e * 2 ^ 24 + c.
Proof.
  intros Hc. symmetry. apply Z.add_nocarry_lor.
  apply Z.bits_inj'. intros i Hi. rewrite Z.land_spec, Z.bits_0.
  destruct (Z.ltb_spec i 24).
  - rewrite Z.mul_pow2_bits_low by lia. reflexivity.
  - rewrite <- (Z.mod_small c (2 ^ 24)) by lia.
    rewrite Z.mod_pow2_bits_high by lia. apply andb_false_r.
Qed.

Lemma toInt32_id (z : Z) : -2147483648 <= z < 2147483648 -> toInt32 z = z.
Proof. intros Hz. apply toInt32_small. change (2 ^ 31) with 2147483648. lia. Qed.

Lemma encode_tail (e c : Z) :
  0 <= e <= 127 -> 0 <= c < 2 ^ 24 -> JS.bor (shl e 24) c = e * 2 ^ 24 + c.
Proof.
  intros He Hc. unfold JS.bor, shl. change (toUint32 24 mod 32) with 24.
  rewrite (toInt32_id e) by lia. rewrite Z.shiftl_mul_pow2 by lia.
  change (2 ^ 24) with 16777216 in *.
  rewrite !(toInt32_id (e * 16777216)) by lia. rewrite (toInt32_id c) by lia.
  change 16777216 with (2 ^ 24) in *. apply lor_shifted. exact Hc.
Qed.


(** Evaluation rule for [targetToBits]: once the significant part [s] of
    the input and the value [v] of its (padded) first three bytes are known. *)
Lemma targetToBits_eval (t s s' : list ascii) (k : nat) (v : Z) :
  stripLeadingZeros t = s -> s <> [] ->
  s' = (if negb (length s mod 2 =? 0)%nat then "0"%char :: s else s) ->
  length s' = (2 * k)%nat -> (k <= 100)%nat ->
  parseInt16 (padEnd 6 "0" (slice0 6 s')) = Some v -> 0 <= v < 2 ^ 24 ->
  targetToBits t =
    if v <? 8388608 then Z.of_nat k * 2 ^ 24 + v else (Z.of_nat k + 1) * 2 ^ 24 + v / 256.
Proof.
  intros Hs Hne Hs' Hlen Hk Hparse Hv.
  unfold targetToBits. rewrite Hs.
  destruct s as [| x s0]; [congruence |].
  cbv beta iota zeta. rewrite <- Hs', Hlen, even_length_div, Hparse.
  cbn [numToInt32]. change (2 ^ 24) with 16777216 in Hv.
  rewrite (toInt32_id v) by lia.
  rewrite land_toInt32_mask by (change (2 ^ 31) with 2147483648; lia).
  rewrite land_bit23 by (change (2 ^ 24) with 16777216; lia).
  destruct (Z.ltb_spec v 8388608) as [Hlow | Hhigh].
  - change (0 =? 0) with true. cbv iota.
    apply encode_tail; [lia | change (2 ^ 24) with 16777216; lia].
  - change (8388608 =? 0) with false. cbv iota.
    assert (Hsar : sar v 8 = v / 256).
    { unfold sar. change (toUint32 8 mod 32) with 8. rewrite (toInt32_id v) by lia.
      now rewrite Z.shiftr_div_pow2 by lia. }
    rewrite Hsar. apply encode_tail; [lia |].
    change (2 ^ 24) with 16777216. Z.div_mod_to_equations. lia.
Qed.

Lemma repeat_double_succ (c : ascii) (m : nat) :
  repeat c (2 * S m) = c :: c :: repeat c (2 * m).
Proof. replace (2 * S m)%nat with (S (S (2 * m))) by lia. reflexivity. Qed.

Lemma targetToBits_placed (a m : nat) (d5 d4 d3 d2 d1 d0 : Z) :
  Forall (fun d => 0 <= d < 16) [d5; d4; d3; d2; d1; d0] ->
  (1 <= m <= 90)%nat ->
  let c := digitsValue [d5; d4; d3; d2; d1; d0] 0 in
  32768 <= c < 8388608 ->
  targetToBits (repeat "0"%char a ++ map hexDigit [d5; d4; d3; d2; d1; d0]
                  ++ repeat "0"%char (2 * m))
  = (3 + Z.of_nat m) * 2 ^ 24 + c.
Proof.
  intros Hall Hm c Hc.
  pose proof Hall as Hall'.
  inversion Hall' as [| ? ? H5 Hall4]; subst.
  inversion Hall4 as [| ? ? H4 Hall3]; subst.
  inversion Hall3 as [| ? ? H3 Hall2]; subst.
  inversion Hall2 as [| ? ? H2 Hall1]; subst.
  inversion Hall1 as [| ? ? H1 Hall0]; subst.
  inversion Hall0 as [| ? ? H0 _]; subst.
  unfold digitsValue in c. cbn [fold_left] in c.
  set (z := repeat "0"%char (2 * m)).
  assert (Hz : length z = (2 * m)%nat) by apply repeat_length.
  destruct (Z.eq_dec d5 0) as [E5 | N5]; [destruct (Z.eq_dec d4 0) as [E4 | N4] |].
  - (* coefficient 0000xxxx: the third byte is the first significant one *)
    assert (N3 : 8 <= d3) by (subst c d5 d4; lia).
    destruct m as [| m']; [lia |].
    erewrite (targetToBits_eval _ (map hexDigit [d3; d2; d1; d0] ++ z) _ (2 + S m') (c * 256)).
    + assert (Hb : (c * 256 <? 8388608) = false) by (apply Z.ltb_ge; lia).
      rewrite Hb. rewrite Z.div_mul by lia. lia.
    + rewrite stripLeadingZeros_repeat. subst d5 d4. cbn [map app stripLeadingZeros].
      change (Ascii.eqb (hexDigit 0) "0") with true. cbv iota.
      rewrite (hexDigit_is_zero d3 H3).
      destruct (Z.eqb_spec d3 0); [lia | reflexivity].
    + discriminate.
    + reflexivity.
    + cbn [map app length]. rewrite Hz.
      replace (S (S (S (S (2 * S m'))))) with (2 * (2 + S m'))%nat by lia.
      rewrite even_length_mod. cbn [Nat.eqb negb length]. rewrite Hz. lia.
    + lia.
    + cbn [map app length]. rewrite Hz.
      replace (S (S (S (S (2 * S m'))))) with (2 * (2 + S m'))%nat by lia.
      rewrite even_length_mod. cbn [Nat.eqb negb].
      unfold z. rewrite repeat_double_succ. cbn [slice0 firstn padEnd length Nat.sub repeat app].
      rewrite firstn_O. cbn [length Nat.sub repeat app].
      change [hexDigit d3; hexDigit d2; hexDigit d1; hexDigit d0; "0"%char; "0"%char]
        with (map hexDigit [d3; d2; d1; d0; 0; 0]).
      rewrite parseInt16_hexDigits by (repeat constructor; lia).
      unfold digitsValue. cbn [fold_left]. f_equal. subst c d5 d4. lia.
    + change (2 ^ 24) with 16777216. lia.
  - (* coefficient 0xxxxx or 00xxxx with a nonzero second byte: odd digit count *)
    erewrite (targetToBits_eval _ (map hexDigit [d4; d3; d2; d1; d0] ++ z) _ (3 + m) c).
    + assert (Hb : (c <? 8388608) = true) by (apply Z.ltb_lt; lia).
      rewrite Hb. lia.
    + rewrite stripLeadingZeros_repeat. subst d5. cbn [map app stripLeadingZeros].
      change (Ascii.eqb (hexDigit 0) "0") with true. cbv iota.
      rewrite (hexDigit_is_zero d4 H4).
      destruct (Z.eqb_spec d4 0); [lia | reflexivity].
    + discriminate.
    + reflexivity.
    + cbn [map app length]. rewrite Hz.
      replace (S (S (S (S (S (2 * m)))))) with (1 + 2 * (2 + m))%nat by lia.
      rewrite odd_length_mod. cbn [Nat.eqb negb length]. rewrite Hz. lia.
    + lia.
    + cbn [map app length]. rewrite Hz.
      replace (S (S (S (S (S (2 * m)))))) with (1 + 2 * (2 + m))%nat by lia.
      rewrite odd_length_mod. cbn [Nat.eqb negb].
      cbn [slice0 firstn padEnd length Nat.sub repeat app].
      rewrite firstn_O. cbn [length Nat.sub repeat app].
      change ["0"%char; hexDigit d4; hexDigit d3; hexDigit d2; hexDigit d1; hexDigit d0]
        with (map hexDigit [0; d4; d3; d2; d1; d0]).
      rewrite parseInt16_hexDigits by (repeat constructor; lia).
      unfold digitsValue. cbn [fold_left]. f_equal. subst c d5. lia.
    + change (2 ^ 24) with 16777216. lia.
  - (* coefficient xxxxxx with a nonzero first digit *)
    erewrite (targetToBits_eval _ (map hexDigit [d5; d4; d3; d2; d1; d0] ++ z) _ (3 + m) c).
    + assert (Hb : (c <? 8388608) = true) by (apply Z.ltb_lt; lia).
      rewrite Hb. lia.
    + rewrite stripLeadingZeros_repeat. cbn [map app stripLeadingZeros].
      rewrite (hexDigit_is_zero d5 H5).
      destruct (Z.eqb_spec d5 0); [lia | reflexivity].
    + discriminate.
    + reflexivity.
    + cbn [map app length]. rewrite Hz.
      replace (S (S (S (S (S (S (2 * m))))))) with (2 * (3 + m))%nat by lia.
      rewrite even_length_mod. cbn [Nat.eqb negb length]. rewrite Hz. lia.
    + lia.
    + cbn [map app length]. rewrite Hz.
      replace (S (S (S (S (S (S (2 * m))))))) with (2 * (3 + m))%nat by lia.
      rewrite even_length_mod. cbn [Nat.eqb negb].
      cbn [slice0 firstn padEnd length Nat.sub repeat app].
      rewrite firstn_O. cbn [length Nat.sub repeat app].
      change [hexDigit d5; hexDigit d4; hexDigit d3; hexDigit d2; hexDigit d1; hexDigit d0]
        with (map hexDigit [d5; d4; d3; d2; d1; d0]).
      rewrite parseInt16_hexDigits by (repeat constructor; lia).
      unfold digitsValue. cbn [fold_left]. f_equal.
    + change (2 ^ 24) with 16777216. lia.
Qed.

Ltac split_digits H :=
  repeat match type of H with
    | Forall _ (_ :: _) =>
        let Hd := fresh "Hd" in
        let Ht := fresh "Ht" in
        inversion H as [| ? ? Hd Ht]; subst; clear H; rename Ht into H
    end.

Ltac strip_known_zero :=
  cbn [stripLeadingZeros]; change (Ascii.eqb (hexDigit 0) "0") with true; cbv iota.

Ltac strip_nonzero d :=
  cbn [stripLeadingZeros]; rewrite (hexDigit_is_zero d) by lia;
  destruct (Z.eqb_spec d 0); [lia | reflexivity].

(** A coefficient below 0x008000 is re-normalised: the encoder answers
    with a smaller exponent. *)
Lemma targetToBits_placed_low (a m : nat) (d3 d2 d1 d0 : Z) :
  Forall (fun d => 0 <= d < 16) [d3; d2; d1; d0] ->
  (1 <= m <= 90)%nat ->
  d3 < 8 ->
  targetToBits (repeat "0"%char a ++ map hexDigit [0; 0; d3; d2; d1; d0]
                  ++ repeat "0"%char (2 * m))
  < (3 + Z.of_nat m) * 2 ^ 24.
Proof.
  intros Hall Hm Hd3. split_digits Hall.
  set (z := repeat "0"%char (2 * m)).
  assert (Hz : length z = (2 * m)%nat) by apply repeat_length.
  change (2 ^ 24) with 16777216.
  set (t := repeat "0"%char a ++ map hexDigit [0; 0; d3; d2; d1; d0] ++ z).
  assert (Hstrip : stripLeadingZeros t
                   = stripLeadingZeros (map hexDigit [d3; d2; d1; d0] ++ z)).
  { unfold t. now rewrite stripLeadingZeros_repeat. }
  destruct (Z.eq_dec d3 0) as [E3 | N3]; [destruct (Z.eq_dec d2 0) as [E2 | N2] |];
    [destruct (Z.eq_dec d1 0) as [E1 | N1] | |];
    [destruct (Z.eq_dec d0 0) as [E0 | N0] | | |]; subst.
  - (* all digits zero: the target is the all-zero string *)
    unfold t, z. change (map hexDigit [0; 0; 0; 0; 0; 0]) with (repeat "0"%char 6).
    rewrite <- !repeat_app, targetToBits_zeros. lia.
  - (* 0000000x *)
    rewrite (targetToBits_eval t (map hexDigit [d0] ++ z) (map hexDigit [0; d0] ++ z)
               (1 + m) (digitsValue [0; d0; 0; 0; 0; 0] 0)).
    + unfold digitsValue. cbn [fold_left].
      destruct (_ <? 8388608); change (2 ^ 24) with 16777216; Z.div_mod_to_equations; lia.
    + rewrite Hstrip. cbn [map app]. do 3 strip_known_zero. strip_nonzero d0.
    + discriminate.
    + cbn [map app length]. rewrite Hz.
      replace (S (2 * m)) with (1 + 2 * m)%nat by lia.
      now rewrite odd_length_mod.
    + cbn [map app length]. rewrite Hz. lia.
    + lia.
    + destruct m as [| m']; [lia |]. unfold z. rewrite repeat_double_succ.
      cbn [map app slice0 firstn].
      rewrite <- (parseInt16_hexDigits 0 [d0; 0; 0; 0; 0]) by (repeat constructor; lia).
      f_equal. destruct m' as [| m'']; [reflexivity |].
      rewrite repeat_double_succ. cbn [firstn]. rewrite firstn_O. reflexivity.
    + unfold digitsValue. cbn [fold_left]. change (2 ^ 24) with 16777216. lia.
  - (* 000000xx *)
    rewrite (targetToBits_eval t (map hexDigit [d1; d0] ++ z) (map hexDigit [d1; d0] ++ z)
               (1 + m) (digitsValue [d1; d0; 0; 0; 0; 0] 0)).
    + unfold digitsValue. cbn [fold_left].
      destruct (_ <? 8388608); change (2 ^ 24) with 16777216; Z.div_mod_to_equations; lia.
    + rewrite Hstrip. cbn [map app]. do 2 strip_known_zero. strip_nonzero d1.
    + discriminate.
    + cbn [map app length]. rewrite Hz.
      replace (S (S (2 * m))) with (2 * (1 + m))%nat by lia.
      now rewrite even_length_mod.
    + cbn [map app length]. rewrite Hz. lia.
    + lia.
    + destruct m as [| m']; [lia |]. unfold z. rewrite repeat_double_succ.
      cbn [map app slice0 firstn].
      rewrite <- (parseInt16_hexDigits d1 [d0; 0; 0; 0; 0]) by (repeat constructor; lia).
      f_equal. destruct m' as [| m'']; [reflexivity |].
      rewrite repeat_double_succ. cbn [firstn]. rewrite firstn_O. reflexivity.
    + unfold digitsValue. cbn [fold_left]. change (2 ^ 24) with 16777216. lia.
  - (* 00000xxx *)
    rewrite (targetToBits_eval t (map hexDigit [d2; d1; d0] ++ z)
               (map hexDigit [0; d2; d1; d0] ++ z)
               (2 + m) (digitsValue [0; d2; d1; d0; 0; 0] 0)).
    + unfold digitsValue. cbn [fold_left].
      match goal with
      | |- context [?v <? 8388608] => destruct (Z.ltb_spec v 8388608); [| lia]
      end.
      change (2 ^ 24) with 16777216. lia.
    + rewrite Hstrip. cbn [map app]. strip_known_zero. strip_nonzero d2.
    + discriminate.
    + cbn [map app length]. rewrite Hz.
      replace (S (S (S (2 * m)))) with (1 + 2 * (1 + m))%nat by lia.
      now rewrite odd_length_mod.
    + cbn [map app length]. rewrite Hz. lia.
    + lia.
    + destruct m as [| m']; [lia |]. unfold z. rewrite repeat_double_succ.
      cbn [map app slice0 firstn]. rewrite firstn_O.
      rewrite <- (parseInt16_hexDigits 0 [d2; d1; d0; 0; 0]) by (repeat constructor; lia).
      reflexivity.
    + unfold digitsValue. cbn [fold_left]. change (2 ^ 24) with 16777216. lia.
  - (* 0000xxxx with a first digit below 8 *)
    rewrite (targetToBits_eval t (map hexDigit [d3; d2; d1; d0] ++ z)
               (map hexDigit [d3; d2; d1; d0] ++ z)
               (2 + m) (digitsValue [d3; d2; d1; d0; 0; 0] 0)).
    + unfold digitsValue. cbn [fold_left].
      match goal with
      | |- context [?v <? 8388608] => destruct (Z.ltb_spec v 8388608); [| lia]
      end.
      change (2 ^ 24) with 16777216. lia.
    + rewrite Hstrip. cbn [map app]. strip_nonzero d3.
    + discriminate.
    + cbn [map app length]. rewrite Hz.
      replace (S (S (S (S (2 * m))))) with (2 * (2 + m))%nat by lia.
      now rewrite even_length_mod.
    + cbn [map app length]. rewrite Hz. lia.
    + lia.
    + destruct m as [| m']; [lia |]. unfold z. rewrite repeat_double_succ.
      cbn [map app slice0 firstn]. rewrite firstn_O.
      rewrite <- (parseInt16_hexDigits d3 [d2; d1; d0; 0; 0]) by (repeat constructor; lia).
      reflexivity.
    + unfold digitsValue. cbn [fold_left]. change (2 ^ 24) with 16777216. lia.
Qed.

(** C1 (as amended). For every 32-bit compact value whose exponent is
    above 3 and whose 3-byte coefficient has its top bit clear, encoding
    the decoded target gives the value back exactly when the exponent is at
    most 32 and the coefficient is at least 0x008000 (its first two bytes
    are not both insignificant) -- or the value is 0x2100ffff, the encoding
    of the clamped all-f target. *)
Theorem targetToBits_bitsToTarget (bits : Z) :
  0 <= bits < 2 ^ 32 ->
  3 < exponentOf bits ->
  coefficientOf bits < 8388608 ->
  targetToBits (bitsToTarget bits) = bits <->
  (exponentOf bits <= 32 /\ 32768 <= coefficientOf bits) \/ bits = 553713663.
Proof.
  intros Hb He Hc.
  rewrite bitsToTarget_shape.
  rewrite (exponentOf_uint32 bits Hb) in *.
  unfold coefficientOf in *. change 16777215 with (Z.ones 24) in *.
  rewrite Z.land_ones in * by lia.
  change (2 ^ 32) with 4294967296 in Hb. change (2 ^ 24) with 16777216 in *.
  set (e := bits / 16777216) in *. set (c := bits mod 16777216) in *.
  assert (Hc0 : 0 <= c) by (subst c; Z.div_mod_to_equations; lia).
  assert (Hbits : bits = e * 16777216 + c) by (subst e c; Z.div_mod_to_equations; lia).
  assert (Hdec : decodedCoefficient bits = c).
  { unfold decodedCoefficient.
    rewrite land_toInt32_mask by (change (2 ^ 31) with 2147483648; lia).
    assert (Hsign : Z.land bits 8388608 = 0).
    { apply Z.bits_inj'. intros i Hi. rewrite Z.land_spec, Z.bits_0.
      change 8388608 with (2 ^ 23). rewrite Z.pow2_bits_eqb by lia.
      destruct (Z.eqb_spec 23 i) as [<- | _]; [| apply andb_false_r].
      rewrite andb_true_r. apply Z.testbit_false; [lia |].
      change (2 ^ 23) with 8388608. Z.div_mod_to_equations. lia. }
    rewrite Hsign. change (0 =? 0) with true. cbv iota.
    change 8388607 with (Z.ones 23). rewrite and_ones by lia.
    change (2 ^ 23) with 8388608. Z.div_mod_to_equations. lia. }
  rewrite Hdec. clearbody e c.
  destruct (Z.leb_spec e 3); [lia |].
  destruct (Z.ltb_spec 32 e) as [Hover | Hin].
  - (* overflow: the decoded target is the clamp *)
    change (targetToBits (repeat "f"%char 64)) with 553713663.
    split; [intros <-; now right | intros [[? _] | ->]; [lia | reflexivity]].
  - destruct (six_digits c) as (d5 & d4 & d3 & d2 & d1 & d0 & Hall & Hval & Hdig).
    { change (16 ^ 6) with 16777216. lia. }
    rewrite Hdig.
    replace (Z.to_nat (2 * (e - 3))) with (2 * Z.to_nat (e - 3))%nat by lia.
    destruct (Z.le_gt_cases 32768 c) as [Hnorm | Hlow].
    + rewrite targetToBits_placed;
        [| exact Hall | lia | unfold digitsValue; cbn [fold_left]; lia].
      unfold digitsValue. cbn [fold_left]. change (2 ^ 24) with 16777216.
      split; [intros _; left; lia | intros _; lia].
    + pose proof Hall as Hall'. split_digits Hall'.
      assert (d5 = 0 /\ d4 = 0 /\ d3 < 8) as (-> & -> & Hthird) by lia.
      pose proof (targetToBits_placed_low (Z.to_nat (64 - 2 * e)) (Z.to_nat (e - 3))
                    d3 d2 d1 d0 ltac:(repeat constructor; lia) ltac:(lia) Hthird) as Hlt.
      change (2 ^ 24) with 16777216 in Hlt.
      split; [intros Heq; lia | intros [[_ ?] | ?]; lia].
Qed.

Lemma targetToBits_bitsToTarget_witness : targetToBits (bitsToTarget 486604799) = 486604799.
Proof.
  apply (targetToBits_bitsToTarget 486604799).
  - vm_compute. split; [discriminate | reflexivity].
  - reflexivity.
  - reflexivity.
  - left. vm_compute. split; discriminate.
Defined.

(** C1, counterexample.  0x1d007fff has exponent 29 and a coefficient with
    its top bit clear, yet the round trip yields 0x1c7fff00; 0x22000001
    (exponent 34, overflow clamp) comes back as 0x2100ffff. *)
Lemma roundtrip_not_identity :
  ((3 <? exponentOf 486572031) = true) /\
  (Z.land (coefficientOf 486572031) 8388608 = 0) /\
  (targetToBits (bitsToTarget 486572031) = 478150400) /\
  (targetToBits (bitsToTarget 486572031) <> 486572031) /\
  ((3 <? exponentOf 570425345) = true) /\
  (Z.land (coefficientOf 570425345) 8388608 = 0) /\
  (targetToBits (bitsToTarget 570425345) = 553713663) /\
  (targetToBits (bitsToTarget 570425345) <> 570425345).
Proof. vm_compute. repeat split; congruence. Qed.

(** ** Byte codec *)

Lemma repeat_replicate {A : Type} (x : A) (n : nat) : repeat x n = replicate n x.
Proof. induction n as [| n IH]; simpl; [reflexivity | now rewrite IH]. Qed.

Lemma getIdx_nat (a : list Z) (i : nat) : getIdx a (Z.of_nat i) = a !! i.
Proof.
  unfold getIdx. destruct (Z.ltb_spec (Z.of_nat i) 0); [lia |]. now rewrite Nat2Z.id.
Qed.

Lemma toUint8_range (z : Z) : 0 <= toUint8 z < 256.
Proof. unfold toUint8. change (2 ^ 8) with 256. apply Z.mod_pos_bound. lia. Qed.

Lemma toUint8_byte (z : Z) : 0 <= z < 256 -> toUint8 z = z.
Proof. intros Hz. unfold toUint8. change (2 ^ 8) with 256. apply Z.mod_small. lia. Qed.

Lemma hexToBytes_loop_spec (hex : list ascii) (steps : nat) :
  forall m bytes,
    (length hex - 2 * m <= steps)%nat ->
    let out := hexToBytes_loop steps hex (2 * m) bytes in
    length out = length bytes /\
    (forall k, (k < m)%nat -> out !! k = bytes !! k) /\
    (forall k, (m <= k)%nat -> (k < length bytes)%nat -> (2 * k < length hex)%nat ->
               out !! k = Some (byteAt hex k)).
Proof.
  induction steps as [| steps IH]; intros m bytes Hsteps; cbv zeta; cbn [hexToBytes_loop].
  - split; [reflexivity |]. split; [reflexivity |]. intros k H1 H2 H3. lia.
  - destruct (Nat.ltb_spec (2 * m) (length hex)) as [Hlt | Hge].
    + replace (2 * m + 2)%nat with (2 * S m)%nat by lia.
      assert (Hset : setU8 bytes (Z.of_nat (2 * m) / 2) (parseInt16 (substr (2 * m) 2 hex))
                     = <[m := byteAt hex m]> bytes).
      { unfold setU8, byteAt.
        replace (Z.of_nat (2 * m) / 2) with (Z.of_nat m)
          by (rewrite Nat2Z.inj_mul, Z.mul_comm, Z.div_mul; lia).
        destruct (Z.ltb_spec (Z.of_nat m) 0); [lia |]. now rewrite Nat2Z.id. }
      rewrite Hset.
      destruct (IH (S m) (<[m := byteAt hex m]> bytes) ltac:(lia)) as (Hlen & Hlow & Hhigh).
      rewrite length_insert in Hlen, Hhigh.
      split; [exact Hlen |]. split.
      * intros k Hk. rewrite Hlow by lia. apply list_lookup_insert_ne. lia.
      * intros k Hk Hkb Hkh. destruct (Nat.eq_dec k m) as [-> | Hne].
        -- rewrite Hlow by lia. now apply list_lookup_insert_eq.
        -- apply Hhigh; lia.
    + split; [reflexivity |]. split; [reflexivity |]. intros k H1 H2 H3. lia.
Qed.

Lemma hexToBytes_length (hex : list ascii) : length (hexToBytes hex) = (length hex / 2)%nat.
Proof.
  unfold hexToBytes.
  pose proof (hexToBytes_loop_spec hex (length hex) 0 (repeat 0 (length hex / 2)) ltac:(lia))
    as Hspec.
  cbv zeta in Hspec. change (2 * 0)%nat with 0%nat in Hspec.
  destruct Hspec as (Hlen & _). rewrite Hlen. apply repeat_length.
Qed.

Lemma hexToBytes_lookup (hex : list ascii) (k : nat) :
  (k < length hex / 2)%nat -> hexToBytes hex !! k = Some (byteAt hex k).
Proof.
  intros Hk. unfold hexToBytes.
  pose proof (hexToBytes_loop_spec hex (length hex) 0 (repeat 0 (length hex / 2)) ltac:(lia))
    as Hspec.
  cbv zeta in Hspec. change (2 * 0)%nat with 0%nat in Hspec.
  destruct Hspec as (_ & _ & Hhigh). apply Hhigh.
  - lia.
  - now rewrite repeat_length.
  - pose proof (Nat.Div0.mul_div_le (length hex) 2). lia.
Qed.

Lemma hexToBytes_bytes (hex : list ascii) : Forall (fun b => 0 <= b < 256) (hexToBytes hex).
Proof.
  apply Forall_lookup. intros k b Hb.
  assert (Hk : (k < length hex / 2)%nat).
  { rewrite <- hexToBytes_length. eapply lookup_lt_Some. exact Hb. }
  rewrite (hexToBytes_lookup hex k Hk) in Hb. injection Hb as <-.
  apply toUint8_range.
Qed.

(** C4 (as amended). [hexToBytes] signals nothing: for every string,
    well-formed or not, it returns floor(length/2) bytes, the k-th being
    [parseInt] of the characters 2k and 2k+1 reduced modulo 256, with 0
    where they do not parse; a trailing odd character is dropped. *)
Theorem hexToBytes_total (hex : list ascii) :
  hexToBytes_completion hex = Normal (hexToBytes hex) /\
  targetToBits_completion hex = Normal (targetToBits hex) /\
  length (hexToBytes hex) = (length hex / 2)%nat /\
  hexToBytes hex = map (byteAt hex) (seq 0 (length hex / 2)).
Proof.
  split; [reflexivity |]. split; [reflexivity |]. split; [apply hexToBytes_length |].
  apply list_eq. intros k.
  rewrite list_lookup_fmap.
  destruct (Nat.lt_ge_cases k (length hex / 2)) as [Hlt | Hge].
  - rewrite hexToBytes_lookup by exact Hlt.
    rewrite lookup_seq_lt by exact Hlt. reflexivity.
  - rewrite lookup_ge_None_2 by (rewrite hexToBytes_length; lia).
    rewrite lookup_seq_ge by exact Hge. reflexivity.
Qed.

(** C4, counterexample.  The odd-length string abc and the non-hex string
    zz are both accepted: the first loses its last character, the second
    becomes a zero byte, and [targetToBits] turns zz into 0x01000000. *)
Lemma malformed_hex_accepted :
  (isMalformedHex (str "abc") = true) /\
  (hexToBytes_completion (str "abc") = Normal [171]) /\
  (isMalformedHex (str "zz") = true) /\
  (hexToBytes_completion (str "zz") = Normal [0]) /\
  (targetToBits_completion (str "zz") = Normal 16777216).
Proof. vm_compute. repeat split. Qed.

(** ** Block header serialisation *)

Lemma padded_bytes (n : nat) :
  forall (p : list Z) (k : nat),
    (n <= k)%nat -> Forall (fun b => 0 <= b < 256) p ->
    map (fun i => toUint8 (default 0 (getIdx p (Z.of_nat i)))) (seq 0 n)
    = take n (p ++ repeat 0 k).
Proof.
  induction n as [| n IH]; intros p k Hk Hp; [reflexivity |].
  cbn [seq map]. rewrite <- seq_shift, map_map.
  destruct p as [| b p'].
  - destruct k as [| k]; [lia |]. cbn [app repeat take]. f_equal.
    change (take n (repeat 0 k)) with (take n ([] ++ repeat 0 k)).
    rewrite <- (IH [] k ltac:(lia) ltac:(constructor)).
    apply map_ext. intros i. now rewrite !getIdx_nat.
  - inversion Hp as [| ? ? Hb Hp']; subst. cbn [app take]. f_equal.
    + rewrite (getIdx_nat (b :: p') 0). cbn. now apply toUint8_byte.
    + rewrite <- (IH p' k ltac:(lia) Hp').
      apply map_ext. intros i. now rewrite !getIdx_nat.
Qed.

(** C3. For every header, [serializeBlockHeader] returns exactly 80 bytes;
    bytes 4..35 and 36..67 hold the bytes of the two hash strings, padded
    with zeros when the string is short and cut after 32 bytes when it is
    long.  (The function has no failing path.) *)
Theorem serializeBlockHeader_80 (h : BlockHeader) :
  length (serializeBlockHeader h) = 80%nat /\
  take 32 (drop 4 (serializeBlockHeader h))
    = take 32 (hexToBytes (previousBlockHash h) ++ repeat 0 32) /\
  take 32 (drop 36 (serializeBlockHeader h))
    = take 32 (hexToBytes (merkleRoot h) ++ repeat 0 32).
Proof.
  rewrite <- (padded_bytes 32 _ 32 (le_n _) (hexToBytes_bytes (previousBlockHash h))).
  rewrite <- (padded_bytes 32 _ 32 (le_n _) (hexToBytes_bytes (merkleRoot h))).
  unfold serializeBlockHeader.
  generalize (hexToBytes (previousBlockHash h)) as p.
  generalize (hexToBytes (merkleRoot h)) as m.
  generalize (version h) as v, (timestamp h) as t, (bits h) as b, (nonce h) as n.
  intros n b t v m p.
  cbv - [toUint8 toUint32 getIdx default Z.modulo Z.div].
  repeat split.
Qed.

(** ** Difficulty to compact bits *)

Lemma maxTarget_parses : bigIntOfHex (bitsToTarget MAX_TARGET_BITS) = Normal maxTargetValue.
Proof. vm_compute. reflexivity. Qed.

Lemma bigIntOfFloor_throws (x : float) (e : error) :
  bigIntOfFloor x = Throw e -> e = RangeError.
Proof.
  unfold bigIntOfFloor. destruct (Prim2SF x); intros H; inversion H; reflexivity.
Qed.

Lemma trimEndAux_minus (k : nat) (ds : list ascii) :
  trimEndAux (repeat "0"%char k ++ "-"%char :: ds)
  = (repeat "0"%char k ++ "-"%char :: fst (trimEndAux ds), false).
Proof.
  induction k as [| k IH]; cbn [repeat app trimEndAux].
  - destruct (trimEndAux ds) as [t blank]. cbn [fst].
    change (isWhiteSpace "-") with false. now rewrite andb_false_r.
  - rewrite IH. reflexivity.
Qed.

Lemma readDigits_minus (k : nat) (t : list ascii) :
  forall acc c, snd (readDigits (repeat "0"%char k ++ "-"%char :: t) acc c) = (c + k)%nat.
Proof.
  induction k as [| k IH]; intros acc c; cbn [repeat app readDigits].
  - change (digitVal "-") with (@None Z). cbv beta iota. cbn [snd]. lia.
  - change (digitVal "0") with (Some 0). cbv beta iota. rewrite IH. lia.
Qed.

Lemma bigIntOfHex_minus (k : nat) (ds : list ascii) :
  bigIntOfHex (repeat "0"%char k ++ "-"%char :: ds) = Throw SyntaxError.
Proof.
  unfold bigIntOfHex. rewrite trimEndAux_minus. cbn [fst].
  pose proof (readDigits_minus k (fst (trimEndAux ds)) 0 0) as Hcount.
  destruct (readDigits _ 0 0) as [v c]. cbn [snd] in Hcount. subst c.
  rewrite length_app, repeat_length. cbn [length Nat.add].
  replace (k =? k + S (length (fst (trimEndAux ds))))%nat with false; [reflexivity |].
  symmetry. apply Nat.eqb_neq. lia.
Qed.

Lemma bigIntOfFloor_nonFinite (d : float) :
  nonFinite d -> bigIntOfFloor (d * 1000000)%float = Throw RangeError.
Proof.
  intros Hd. unfold bigIntOfFloor. rewrite mul_spec.
  destruct Hd as [-> | [s ->]]; [reflexivity |].
  destruct s; reflexivity.
Qed.

(** C6 (as amended). [difficultyToBits] has no parameter check of its own.
    A NaN or infinite difficulty makes the BigInt conversion throw a
    RangeError.  Otherwise, writing s for floor(difficulty * 10^6): when s
    is zero, the BigInt division throws a RangeError; when s is negative
    and not below -(maxTarget * 10^6), re-parsing the negative target throws
    a SyntaxError; when s is below that bound, the function returns
    0x01000000. *)
Theorem difficultyToBits_nonpositive (d : float) :
  (nonFinite d -> difficultyToBits d = Throw RangeError) /\
  (forall e, bigIntOfFloor (d * 1000000)%float = Throw e ->
             difficultyToBits d = Throw RangeError) /\
  (forall s, bigIntOfFloor (d * 1000000)%float = Normal s -> s <= 0 ->
             difficultyToBits d =
               if s =? 0 then Throw RangeError
               else if s <? - (maxTargetValue * 1000000) then Normal 16777216
               else Throw SyntaxError).
Proof.
  unfold difficultyToBits. rewrite maxTarget_parses. cbn [bind]. split; [| split].
  - intros Hd. now rewrite (bigIntOfFloor_nonFinite d Hd).
  - intros e He. rewrite He. cbn [bind]. now rewrite (bigIntOfFloor_throws _ _ He).
  - intros s Hs Hneg. rewrite Hs. cbn [bind]. unfold difficultyToBits_rest, bigIntDiv.
    destruct (Z.eqb_spec s 0) as [-> | Hne]; [reflexivity |]. cbn [bind].
    assert (HM : 0 < maxTargetValue * 1000000) by reflexivity.
    set (M := maxTargetValue * 1000000) in *.
    destruct (Z.ltb_spec s (- M)) as [Hfar | Hnear].
    + assert (Hq : Z.quot M s = 0).
      { replace s with (- (- s)) by lia. rewrite Z.quot_opp_r by lia.
        rewrite Z.quot_small by lia. reflexivity. }
      rewrite Hq. vm_compute. reflexivity.
    + assert (Hq : Z.quot M s < 0).
      { replace s with (- (- s)) by lia. rewrite Z.quot_opp_r by lia.
        assert (1 <= Z.quot M (- s)); [| lia].
        apply Z.quot_le_lower_bound; lia. }
      unfold toString16. destruct (Z.ltb_spec (Z.quot M s) 0) as [_ | ?]; [| lia].
      unfold padStart. rewrite bigIntOfHex_minus. reflexivity.
Qed.

Lemma difficultyToBits_nonpositive_witness :
  difficultyToBits (-1)%float = Throw SyntaxError /\
  difficultyToBits infinity = Throw RangeError.
Proof.
  split.
  - exact (proj2 (proj2 (difficultyToBits_nonpositive (-1)%float))
             (-1000000) eq_refl ltac:(lia)).
  - apply (proj1 (difficultyToBits_nonpositive infinity)).
    right. exists false. reflexivity.
Defined.

(** C6, counterexample.  The negative difficulty -2^400 is accepted and
    yields the compact value 0x01000000. *)
Lemma negative_difficulty_accepted :
  (PrimFloat.ltb (-0x1p400)%float 0%float = true) /\
  (difficultyToBits (-0x1p400)%float = Normal 16777216).
Proof. vm_compute. split; reflexivity. Qed.

(** ** Scrypt ROMix *)

(** The embedding of [salsa20_8] reproduces the RFC 7914 test vector. *)
Example salsa20_8_rfc7914 : salsa20_8 rfc7914_salsa_input = rfc7914_salsa_output.
Proof. vm_compute. reflexivity. Qed.


Lemma setU32_length (a : list Z) (i v : Z) : length (setU32 a i v) = length a.
Proof. unfold setU32. destruct (i <? 0); [reflexivity | apply length_insert]. Qed.

Lemma forLoop_length (body : Z -> list Z -> list Z) :
  (forall i s, length (body i s) = length s) ->
  forall n i s, length (forLoop n i body s) = length s.
Proof.
  intros Hbody. induction n as [| n IH]; intros i s; cbn [forLoop]; [reflexivity |].
  now rewrite IH, Hbody.
Qed.

Lemma scryptBlockMix_length (B : list Z) (r : nat) : length (scryptBlockMix B r) = length B.
Proof.
  unfold scryptBlockMix.
  destruct (forLoop (Z.to_nat (2 * Z.of_nat r)) 0 _ _) as [X Y].
  apply forLoop_length. intros i s. apply forLoop_length. intros j s'.
  now rewrite !setU32_length.
Qed.

Lemma rd_nat (a : list Z) (i : nat) (x : Z) : a !! i = Some x -> rd a (Z.of_nat i) = x.
Proof. intros Hx. unfold rd. now rewrite getIdx_nat, Hx. Qed.

(** A loop that updates each visited element in place from its old value. *)
Lemma forLoop_update_lookup (g : Z -> Z -> Z) (n : nat) :
  forall (i0 : nat) (a : list Z) (j : nat),
    forLoop n (Z.of_nat i0) (fun k a => setU32 a k (g k (rd a k))) a !! j
    = if (i0 <=? j)%nat && (j <? i0 + n)%nat
      then (fun x => toUint32 (g (Z.of_nat j) x)) <$> (a !! j)
      else a !! j.
Proof.
  induction n as [| n IH]; intros i0 a j; cbn [forLoop].
  - replace (j <? i0 + 0)%nat with (j <? i0)%nat by (f_equal; lia).
    destruct (Nat.leb_spec i0 j), (Nat.ltb_spec j i0); try reflexivity; lia.
  - replace (Z.of_nat i0 + 1) with (Z.of_nat (S i0)) by lia. rewrite IH.
    unfold setU32. destruct (Z.ltb_spec (Z.of_nat i0) 0); [lia |]. rewrite Nat2Z.id.
    destruct (Nat.eq_dec j i0) as [-> | Hne].
    + replace (S i0 <=? i0)%nat with false by (symmetry; apply Nat.leb_gt; lia).
      replace (i0 <=? i0)%nat with true by (symmetry; apply Nat.leb_le; lia).
      replace (i0 <? i0 + S n)%nat with true by (symmetry; apply Nat.ltb_lt; lia).
      cbn [andb]. destruct (a !! i0) as [x |] eqn:Hx.
      * rewrite list_lookup_insert_eq by (eapply lookup_lt_Some; exact Hx).
        cbn. now rewrite (rd_nat a i0 x Hx).
      * rewrite list_insert_ge by (now apply lookup_ge_None). now rewrite Hx.
    + rewrite list_lookup_insert_ne by lia.
      replace ((S i0 <=? j)%nat && (j <? S i0 + n)%nat)
        with ((i0 <=? j)%nat && (j <? i0 + S n)%nat); [reflexivity |].
      destruct (Nat.leb_spec i0 j), (Nat.leb_spec (S i0) j),
        (Nat.ltb_spec j (i0 + S n)), (Nat.ltb_spec j (S i0 + n)); try reflexivity; lia.
Qed.

Lemma xor_loop (B Vj : list Z) :
  length Vj = length B ->
  forLoop (length B) 0 (fun k B => setU32 B k (JS.bxor (rd B k) (rd Vj k))) B = xorBlocks B Vj.
Proof.
  intros Hlen. apply list_eq. intros j.
  pose proof (forLoop_update_lookup (fun k x => JS.bxor x (rd Vj k)) (length B) 0 B j) as Hl.
  change (Z.of_nat 0) with 0 in Hl. cbv beta in Hl. rewrite Hl. clear Hl.
  unfold xorBlocks. rewrite lookup_zip_with.
  cbn [Nat.leb andb Nat.add].
  destruct (B !! j) as [x |] eqn:Hx.
  - assert (Hj : (j < length B)%nat) by (eapply lookup_lt_Some; exact Hx).
    replace (j <? length B)%nat with true by (symmetry; apply Nat.ltb_lt; lia).
    destruct (Vj !! j) as [y |] eqn:Hy.
    + cbn. now rewrite (rd_nat Vj j y Hy).
    + apply lookup_ge_None in Hy. lia.
  - destruct (j <? length B)%nat; reflexivity.
Qed.

Lemma romixFill_fillPhase (n r : nat) :
  forall V B,
    romixFill n r (V, B) = (V ++ fst (fillPhase n r B), snd (fillPhase n r B)).
Proof.
  induction n as [| n IH]; intros V B; cbn [romixFill fillPhase].
  - now rewrite app_nil_r.
  - rewrite IH. destruct (fillPhase n r (scryptBlockMix B r)) as [V' final].
    cbn [fst snd]. now rewrite <- app_assoc.
Qed.

Lemma fillPhase_lengths (n r : nat) :
  forall B,
    length (fst (fillPhase n r B)) = n /\
    Forall (fun v => length v = length B) (fst (fillPhase n r B)) /\
    length (snd (fillPhase n r B)) = length B.
Proof.
  induction n as [| n IH]; intros B; cbn [fillPhase].
  - repeat split. constructor.
  - destruct (IH (scryptBlockMix B r)) as (Hn & Hall & Hfin).
    destruct (fillPhase n r (scryptBlockMix B r)) as [V final]. cbn [fst snd] in *.
    rewrite scryptBlockMix_length in Hall, Hfin.
    split; [cbn [length]; now rewrite Hn |]. split; [now constructor | exact Hfin].
Qed.

Lemma romixMixIter_mixStep (V : list (list Z)) (N r : nat) (B : list Z) :
  (1 <= r)%nat -> (1 <= N)%nat -> Z.of_nat N <= 2 ^ 31 ->
  length V = N -> Forall (fun v => length v = length B) V ->
  length B = (32 * r)%nat ->
  romixMixIter V N r B = Normal (mixStep (firstWordOfLastBlock r) V N r B).
Proof.
  intros Hr HN HN31 HV Hall HB.
  unfold romixMixIter, mixStep, firstWordOfLastBlock.
  replace ((2 * Z.of_nat r - 1) * 16) with (Z.of_nat ((2 * r - 1) * 16)) by lia.
  destruct (B !! ((2 * r - 1) * 16)%nat) as [w |] eqn:Hw;
    [| apply lookup_ge_None in Hw; lia].
  rewrite (rd_nat B _ w Hw).
  rewrite (list_lookup_total_correct B _ w Hw).
  rewrite land_toInt32_mask by lia.
  pose proof (land_mask_range w (Z.of_nat N - 1) ltac:(lia)) as Hj.
  set (j := Z.land w (Z.of_nat N - 1)) in *.
  destruct (Z.ltb_spec j 0) as [| _]; [lia |].
  destruct (V !! Z.to_nat j) as [Vj |] eqn:HVj;
    [| apply lookup_ge_None in HVj; lia].
  rewrite (list_lookup_total_correct V _ Vj HVj).
  assert (HVjlen : length Vj = length B).
  { rewrite Forall_lookup in Hall. exact (Hall _ _ HVj). }
  replace (Z.to_nat (32 * Z.of_nat r)) with (length B) by lia.
  now rewrite xor_loop.
Qed.

Lemma mixStep_length (idx : nat) (V : list (list Z)) (N r : nat) (B : list Z) :
  length (V !!! Z.to_nat (Z.land (B !!! idx) (Z.of_nat N - 1))) = length B ->
  length (mixStep idx V N r B) = length B.
Proof.
  intros Hlen. unfold mixStep, xorBlocks.
  rewrite scryptBlockMix_length, length_zip_with. lia.
Qed.

Lemma romixMix_iter (V : list (list Z)) (N r : nat) :
  (1 <= r)%nat -> (1 <= N)%nat -> Z.of_nat N <= 2 ^ 31 ->
  length V = N ->
  forall n B,
    Forall (fun v => length v = length B) V ->
    length B = (32 * r)%nat ->
    romixMix n V N r B = Normal (Nat.iter n (mixStep (firstWordOfLastBlock r) V N r) B).
Proof.
  intros Hr HN HN31 HV. induction n as [| n IH]; intros B Hall HB; cbn [romixMix].
  - reflexivity.
  - rewrite romixMixIter_mixStep by assumption. cbn [bind].
    rewrite Nat.iter_succ_r.
    assert (Hstep : length (mixStep (firstWordOfLastBlock r) V N r B) = length B).
    { pose proof (romixMixIter_mixStep V N r B Hr HN HN31 HV Hall HB) as Heq.
      unfold romixMixIter in Heq.
      destruct (if _ <? 0 then None else V !! _) as [Vj |];
        [| destruct (_ <=? 0); [| discriminate]];
        injection Heq as <-; now rewrite scryptBlockMix_length, ?forLoop_length
          by (intros; apply setU32_length). }
    apply IH.
    + rewrite Hstep. exact Hall.
    + now rewrite Hstep.
Qed.

(** C2 (as amended). For a state of 32r words, r >= 1 and 1 <= N <= 2^31,
    [scryptROMix] is the chain of section 4.5 with the scratch index taken
    from the word at index 16(2r-1), the first word of the last 64-byte
    sub-block: each of the N mix iterations computes j as that word ANDed
    with N-1 and sets state = BlockMix(state XOR V[j]). *)
Theorem scryptROMix_chain (B : list Z) (N r : nat) :
  (1 <= r)%nat -> (1 <= N)%nat -> Z.of_nat N <= 2 ^ 31 ->
  length B = (32 * r)%nat ->
  scryptROMix B N r = Normal (romixWith (firstWordOfLastBlock r) B N r).
Proof.
  intros Hr HN HN31 HB. unfold scryptROMix, romixWith.
  rewrite romixFill_fillPhase. cbn [app].
  destruct (fillPhase_lengths N r B) as (HV & Hall & Hfin).
  destruct (fillPhase N r B) as [V state]. cbn [fst snd] in *.
  apply romixMix_iter; try assumption.
  - now rewrite Hfin.
  - now rewrite Hfin.
Qed.

Lemma scryptROMix_chain_witness :
  scryptROMix sampleBlock 4 1 = Normal (romixWith (firstWordOfLastBlock 1) sampleBlock 4 1).
Proof.
  apply (scryptROMix_chain sampleBlock 4 1); [lia | lia | vm_compute; discriminate | reflexivity].
Defined.

(** C2, counterexample.  With the index taken from the last 32-bit word of
    the state (index 32r-1) the chain gives another block: on the sample
    block with N = 4 and r = 1 the first output words differ. *)
Lemma romix_index_not_last_word :
  (scryptROMix sampleBlock 4 1 <> Normal (romixWith (lastWordOfState 1) sampleBlock 4 1)) /\
  (head (romixWith (lastWordOfState 1) sampleBlock 4 1) = Some 2465549771) /\
  (bind (scryptROMix sampleBlock 4 1) (fun out => Normal (head out)) = Normal (Some 999159543)).
Proof.
  vm_compute. repeat split. discriminate.
Qed.

(** ** The nonce search *)

Lemma setNonce_frame (h1 h2 : BlockHeader) (n : Z) :
  frameOf h1 = frameOf h2 -> setNonce h1 n = setNonce h2 n.
Proof.
  destruct h1, h2. unfold frameOf, setNonce. cbn. intros H. now inversion H.
Qed.

Lemma StronglySorted_snoc (l : list Z) (y : Z) :
  StronglySorted Z.lt l -> Forall (fun x => x < y) l -> StronglySorted Z.lt (l ++ [y]).
Proof.
  induction 1 as [| x l Hl IH Hx]; intros Hy; cbn [app].
  - repeat constructor.
  - inversion Hy as [| ? ? Hxy Hy']; subst. constructor.
    + now apply IH.
    + apply Forall_app. split; [exact Hx | now repeat constructor].
Qed.

Section MiningProofs.

Variable doubleSha256Bytes : list Z -> list Z.
Variable now : nat -> Q.
Variable shouldStopMining : nat -> bool.
Variable target : list ascii.
Variable maxAttempts : Z.

Local Abbreviation attempt' := (attempt doubleSha256Bytes now target).
Local Abbreviation batch' left :=
  (batch doubleSha256Bytes now shouldStopMining left target maxAttempts).
Local Abbreviation cond' := (loopCondition shouldStopMining maxAttempts).
Local Abbreviation meets h m :=
  (hashMeetsTarget (digestAt doubleSha256Bytes h m) target).

Lemma attempt_spec (st : MineState) :
  match attempt' st with
  | BatchEnd st' =>
      frameOf (header st') = frameOf (header st) /\
      curNonce st' = curNonce st + 1 /\
      delivered st' = delivered st /\
      hashesComputed (currentMiningStats st') = hashesComputed (currentMiningStats st) + 1 /\
      meets (header st) (curNonce st) = Normal false
  | Returned r st' =>
      frameOf (header st') = frameOf (header st) /\
      success r = true /\
      resultNonce r = curNonce st /\
      delivered st' = delivered st ++ [snapshotOf r] /\
      hashesComputed (resultStats r) = hashesComputed (currentMiningStats st) + 1 /\
      meets (header st) (curNonce st) = Normal true
  | Threw e st' =>
      frameOf (header st') = frameOf (header st) /\
      delivered st' = delivered st /\
      meets (header st) (curNonce st) = Throw e
  end.
Proof.
  unfold attempt, digestAt.
  destruct (hashMeetsTarget _ target) as [[|] | e]; cbn; repeat split.
Qed.

Lemma batch_spec (left : nat) :
  forall st,
    match batch' left st with
    | BatchEnd st' =>
        frameOf (header st') = frameOf (header st) /\
        delivered st' = delivered st /\
        (curNonce st <= curNonce st') /\
        ((1 <= left)%nat -> cond' st = true -> curNonce st < curNonce st')
    | Returned r st' =>
        frameOf (header st') = frameOf (header st) /\
        success r = true /\
        (curNonce st <= resultNonce r) /\
        delivered st' = delivered st ++ [snapshotOf r]
    | Threw e st' =>
        frameOf (header st') = frameOf (header st) /\ delivered st' = delivered st
    end.
Proof.
  induction left as [| left IH]; intros st; cbn [batch].
  - repeat split; [lia | lia].
  - destruct (cond' st) eqn:Hcond.
    + pose proof (attempt_spec st) as Ha.
      destruct (attempt' st) as [st1 | r st1 | e st1].
      * destruct Ha as (Hf & Hn & Hd & _).
        specialize (IH st1).
        destruct (batch doubleSha256Bytes now shouldStopMining left target maxAttempts st1)
          as [st2 | r st2 | e st2].
        -- destruct IH as (Hf2 & Hd2 & Hn2 & _).
           repeat split; [congruence | congruence | lia | lia].
        -- destruct IH as (Hf2 & Hs & Hn2 & Hd2).
           repeat split; [congruence | exact Hs | lia | congruence].
        -- destruct IH as (Hf2 & Hd2). split; congruence.
      * destruct Ha as (Hf & Hs & Hn & Hd & _).
        repeat split; [exact Hf | exact Hs | lia | exact Hd].
      * destruct Ha as (Hf & Hd & _). now split.
    + repeat split; [lia | congruence].
Qed.

Lemma periodicUpdate_spec (st : MineState) :
  let st' := periodicUpdate now st in
  frameOf (header st') = frameOf (header st) /\
  curNonce st' = curNonce st /\
  currentMiningStats st' = currentMiningStats st /\
  (delivered st' = delivered st \/
   delivered st' = delivered st
                     ++ [mkProgress (curNonce st - 1) (curHash st) (currentMiningStats st)]).
Proof.
  unfold periodicUpdate.
  destruct (negb (Qle_bool _ 50)); cbn; repeat split; auto.
Qed.

Lemma mineLoop_spec (fuel : nat) :
  forall st,
    (Z.to_nat (maxAttempts - curNonce st) < fuel)%nat ->
    ordered st ->
    exists out st',
      mineLoop doubleSha256Bytes now shouldStopMining fuel target maxAttempts st
        = Some (out, st') /\
      frameOf (header st') = frameOf (header st) /\
      StronglySorted Z.lt (noncesOf (delivered st')) /\
      match out with
      | Normal r => if success r then last (delivered st') = Some (snapshotOf r) else True
      | Throw _ => True
      end.
Proof.
  induction fuel as [| fuel IH]; intros st Hfuel [Hsorted Hbelow]; [lia |].
  cbn [mineLoop]. destruct (cond' st) eqn:Hcond.
  - pose proof (batch_spec batchSize st) as Hb.
    destruct (batch doubleSha256Bytes now shouldStopMining batchSize target maxAttempts st)
      as [st1 | r st1 | e st1].
    + destruct Hb as (Hf & Hd & _ & Hgrow).
      specialize (Hgrow ltac:(unfold batchSize; lia) Hcond).
      destruct (periodicUpdate_spec st1) as (Hf2 & Hn2 & _ & Hd2).
      set (st2 := periodicUpdate now st1) in *.
      assert (Hmax : curNonce st < maxAttempts).
      { unfold loopCondition in Hcond. apply andb_true_iff in Hcond as [Hlt _].
        now apply Z.ltb_lt in Hlt. }
      assert (Hord : ordered st2).
      { unfold ordered. destruct Hd2 as [-> | ->]; rewrite Hd, Hn2.
        - split; [exact Hsorted |].
          eapply Forall_impl; [exact Hbelow |]. cbv beta. intros x Hx. lia.
        - unfold noncesOf. rewrite map_app. cbn [map progressNonce]. split.
          + apply StronglySorted_snoc; [exact Hsorted |].
            eapply Forall_impl; [exact Hbelow |]. cbv beta. intros x Hx. lia.
          + apply Forall_app. split.
            * eapply Forall_impl; [exact Hbelow |]. cbv beta. intros x Hx. lia.
            * repeat constructor. lia. }
      destruct (IH st2 ltac:(lia) Hord) as (out & st' & Hrun & Hf3 & Hs3 & Hout).
      exists out, st'. split; [exact Hrun |]. split; [congruence |]. split; [exact Hs3 |].
      exact Hout.
    + destruct Hb as (Hf & Hs & Hn & Hd).
      exists (Normal r), st1. split; [reflexivity |]. split; [exact Hf |]. split.
      * rewrite Hd. unfold noncesOf. rewrite map_app. cbn [map].
        apply StronglySorted_snoc; [exact Hsorted |].
        eapply Forall_impl; [exact Hbelow |]. cbv beta. unfold snapshotOf. cbn.
        intros x Hx. lia.
      * rewrite Hs, Hd. apply last_snoc.
    + destruct Hb as (Hf & Hd).
      exists (Throw e), st1. split; [reflexivity |]. split; [exact Hf |].
      split; [now rewrite Hd | exact I].
  - exists (Normal (mkMiningResult false (curNonce st) (curHash st) (currentMiningStats st))), st.
    split; [reflexivity |]. split; [reflexivity |]. split; [exact Hsorted |]. exact I.
Qed.

(** The search on a run that is never cancelled and in which [n] is the
    first nonce whose digest meets the target. *)
Lemma batch_found (hdr : BlockHeader) (n : Z) :
  (forall a, shouldStopMining a = false) ->
  n < maxAttempts ->
  meets hdr n = Normal true ->
  (forall m, 0 <= m < n -> meets hdr m = Normal false) ->
  forall left st,
    frameOf (header st) = frameOf hdr ->
    0 <= curNonce st <= n ->
    hashesComputed (currentMiningStats st) = curNonce st ->
    match batch' left st with
    | BatchEnd st' =>
        Z.of_nat left <= n - curNonce st /\
        frameOf (header st') = frameOf hdr /\
        curNonce st' = curNonce st + Z.of_nat left /\
        hashesComputed (currentMiningStats st') = curNonce st'
    | Returned r st' =>
        success r = true /\ resultNonce r = n /\ hashesComputed (resultStats r) = n + 1
    | Threw _ _ => False
    end.
Proof.
  intros Hstop Hmax Hn Hbefore.
  induction left as [| left IH]; intros st Hf Hk Hh; cbn [batch].
  - repeat split; [lia | exact Hf | lia | exact Hh].
  - assert (Hcond : cond' st = true).
    { unfold loopCondition. rewrite Hstop. cbn [negb]. rewrite andb_true_r.
      apply Z.ltb_lt. lia. }
    rewrite Hcond.
    pose proof (attempt_spec st) as Ha.
    assert (Hdig : meets (header st) (curNonce st) = meets hdr (curNonce st)).
    { unfold digestAt. now rewrite (setNonce_frame _ _ _ Hf). }
    rewrite Hdig in Ha.
    destruct (Z.eq_dec (curNonce st) n) as [Heq | Hne].
    + rewrite Heq, Hn in Ha.
      destruct (attempt' st) as [st1 | r st1 | e st1].
      * destruct Ha as (_ & _ & _ & _ & Hcontra). discriminate.
      * destruct Ha as (_ & Hs & Hrn & _ & Hrh & _). repeat split; [exact Hs | lia | lia].
      * destruct Ha as (_ & _ & Hcontra). discriminate.
    + rewrite (Hbefore (curNonce st) ltac:(lia)) in Ha.
      destruct (attempt' st) as [st1 | r st1 | e st1].
      * destruct Ha as (Hf1 & Hn1 & _ & Hh1 & _).
        specialize (IH st1 ltac:(congruence) ltac:(lia) ltac:(lia)).
        destruct (batch doubleSha256Bytes now shouldStopMining left target maxAttempts st1)
          as [st2 | r st2 | e st2]; [| exact IH | exact IH].
        destruct IH as (Hl & Hf2 & Hn2 & Hh2). repeat split; [lia | exact Hf2 | lia | exact Hh2].
      * destruct Ha as (_ & _ & _ & _ & _ & Hcontra). discriminate.
      * destruct Ha as (_ & _ & Hcontra). discriminate.
Qed.

Lemma mineLoop_found (hdr : BlockHeader) (n : Z) :
  (forall a, shouldStopMining a = false) ->
  n < maxAttempts ->
  meets hdr n = Normal true ->
  (forall m, 0 <= m < n -> meets hdr m = Normal false) ->
  forall fuel st,
    frameOf (header st) = frameOf hdr ->
    0 <= curNonce st <= n ->
    hashesComputed (currentMiningStats st) = curNonce st ->
    (Z.to_nat (n - curNonce st) < fuel)%nat ->
    exists r st',
      mineLoop doubleSha256Bytes now shouldStopMining fuel target maxAttempts st
        = Some (Normal r, st') /\
      success r = true /\ resultNonce r = n /\ hashesComputed (resultStats r) = n + 1.
Proof.
  intros Hstop Hmax Hn Hbefore.
  induction fuel as [| fuel IH]; intros st Hf Hk Hh Hfuel; [lia |].
  cbn [mineLoop].
  assert (Hcond : cond' st = true).
  { unfold loopCondition. rewrite Hstop. cbn [negb]. rewrite andb_true_r.
    apply Z.ltb_lt. lia. }
  rewrite Hcond.
  pose proof (batch_found hdr n Hstop Hmax Hn Hbefore batchSize st Hf Hk Hh) as Hb.
  destruct (batch doubleSha256Bytes now shouldStopMining batchSize target maxAttempts st)
    as [st1 | r st1 | e st1]; [| | contradiction].
  - destruct Hb as (Hl & Hf1 & Hn1 & Hh1).
    destruct (periodicUpdate_spec st1) as (Hf2 & Hn2 & Hst2 & _).
    unfold batchSize in Hl, Hn1.
    apply IH.
    + congruence.
    + lia.
    + rewrite Hst2, Hn2. exact Hh1.
    + lia.
  - exists r, st1. split; [reflexivity | exact Hb].
Qed.

End MiningProofs.

Lemma initialState_ordered (now : nat -> Q) (hdr : BlockHeader) :
  ordered (initialState now hdr).
Proof. split; constructor. Qed.

(** C5 (as amended). Every run of [mineBlock] returns; the snapshots it has
    passed to [onProgress] carry strictly increasing nonces; and when the
    search succeeds, the last snapshot delivered is the final one, with the
    nonce, hash and statistics of the result.  (A run that is exhausted or
    cancelled makes no final call: only the periodic reports, if any, have
    been delivered.) *)
Theorem mineBlock_progress_order
    (doubleSha256Bytes : list Z -> list Z) (now : nat -> Q) (shouldStopMining : nat -> bool)
    (hdr : BlockHeader) (maxAttempts : Z) :
  exists out st,
    mineBlock doubleSha256Bytes now shouldStopMining hdr maxAttempts = Some (out, st) /\
    StronglySorted Z.lt (noncesOf (delivered st)) /\
    match out with
    | Normal r => if success r then last (delivered st) = Some (snapshotOf r) else True
    | Throw _ => True
    end.
Proof.
  unfold mineBlock.
  destruct (mineLoop_spec doubleSha256Bytes now shouldStopMining (bitsToTarget (bits hdr))
              maxAttempts (S (Z.to_nat maxAttempts)) (initialState now hdr))
    as (out & st & Hrun & _ & Hsorted & Hlast).
  - cbn [initialState curNonce]. lia.
  - apply initialState_ordered.
  - exists out, st. repeat split; assumption.
Qed.

(** C5, counterexample.  With the clock standing still, a search exhausted
    after 3 attempts and a search cancelled from the start both return
    [success = false] without any call to [onProgress]. *)
Lemma no_final_snapshot_unless_found :
  (exists r st,
     mineBlock toyDigest steadyClock neverStop sampleHeader 3 = Some (Normal r, st) /\
     success r = false /\ hashesComputed (resultStats r) = 3 /\ delivered st = []) /\
  (exists r st,
     mineBlock toyDigest steadyClock alwaysStop sampleHeader 1000 = Some (Normal r, st) /\
     success r = false /\ delivered st = []).
Proof.
  split; eexists; eexists; (split; [vm_compute; reflexivity |]); repeat split.
Qed.

(** C9. Every run of [mineBlock] returns, and in the header object it
    leaves behind the fields version, previousBlockHash, merkleRoot,
    timestamp and bits are those of the header it was given: only [nonce] is
    written, on every path and at every return. *)
Theorem mineBlock_only_nonce_mutated
    (doubleSha256Bytes : list Z -> list Z) (now : nat -> Q) (shouldStopMining : nat -> bool)
    (hdr : BlockHeader) (maxAttempts : Z) :
  exists out st,
    mineBlock doubleSha256Bytes now shouldStopMining hdr maxAttempts = Some (out, st) /\
    version (header st) = version hdr /\
    previousBlockHash (header st) = previousBlockHash hdr /\
    merkleRoot (header st) = merkleRoot hdr /\
    timestamp (header st) = timestamp hdr /\
    bits (header st) = bits hdr.
Proof.
  unfold mineBlock.
  destruct (mineLoop_spec doubleSha256Bytes now shouldStopMining (bitsToTarget (bits hdr))
              maxAttempts (S (Z.to_nat maxAttempts)) (initialState now hdr))
    as (out & st & Hrun & Hframe & _).
  - cbn [initialState curNonce]. lia.
  - apply initialState_ordered.
  - exists out, st. split; [exact Hrun |].
    unfold frameOf in Hframe. cbn [initialState header] in Hframe.
    inversion Hframe. repeat split; assumption.
Qed.

(** C7 (as amended). On a run in which the cancellation flag stays clear,
    if [n] is the smallest nonce in [0, maxAttempts) whose digest meets the
    target, [mineBlock] returns [success = true] with nonce [n] and
    [hashesComputed = n + 1]. *)
Theorem mineBlock_finds_first
    (doubleSha256Bytes : list Z -> list Z) (now : nat -> Q) (shouldStopMining : nat -> bool)
    (hdr : BlockHeader) (maxAttempts n : Z) :
  (forall a, shouldStopMining a = false) ->
  0 <= n < maxAttempts ->
  hashMeetsTarget (digestAt doubleSha256Bytes hdr n) (bitsToTarget (bits hdr)) = Normal true ->
  (forall m, 0 <= m < n ->
     hashMeetsTarget (digestAt doubleSha256Bytes hdr m) (bitsToTarget (bits hdr))
     = Normal false) ->
  exists r st,
    mineBlock doubleSha256Bytes now shouldStopMining hdr maxAttempts = Some (Normal r, st) /\
    success r = true /\ resultNonce r = n /\ hashesComputed (resultStats r) = n + 1.
Proof.
  intros Hstop Hn Hmeets Hbefore. unfold mineBlock.
  apply (mineLoop_found doubleSha256Bytes now shouldStopMining (bitsToTarget (bits hdr))
           maxAttempts hdr n Hstop ltac:(lia) Hmeets Hbefore).
  - reflexivity.
  - cbn [initialState curNonce]. lia.
  - reflexivity.
  - cbn [initialState curNonce]. lia.
Qed.

Lemma mineBlock_finds_first_witness :
  exists r st,
    mineBlock toyDigest steadyClock neverStop sampleHeader 1000 = Some (Normal r, st) /\
    success r = true /\ resultNonce r = 5 /\ hashesComputed (resultStats r) = 5 + 1.
Proof.
  apply (mineBlock_finds_first toyDigest steadyClock neverStop sampleHeader 1000 5).
  - reflexivity.
  - lia.
  - vm_compute. reflexivity.
  - intros m Hm.
    assert (Hcases : m = 0 \/ m = 1 \/ m = 2 \/ m = 3 \/ m = 4) by lia.
    destruct Hcases as [-> | [-> | [-> | [-> | ->]]]]; vm_compute; reflexivity.
Defined.

(** C7, counterexample.  For the sample header 5 is the smallest nonce below
    1000 whose digest meets the target, but a search cancelled during its
    third attempt returns [success = false] after 3 hashes. *)
Lemma cancelled_search_reports_failure :
  (hashMeetsTarget (digestAt toyDigest sampleHeader 5) (bitsToTarget (bits sampleHeader))
   = Normal true) /\
  (forallb (fun m =>
      match hashMeetsTarget (digestAt toyDigest sampleHeader m)
              (bitsToTarget (bits sampleHeader)) with
      | Normal false => true
      | _ => false
      end) [0; 1; 2; 3; 4] = true) /\
  (exists r st,
     mineBlock toyDigest steadyClock (stopAfter 3) sampleHeader 1000 = Some (Normal r, st) /\
     success r = false /\ resultNonce r = 3 /\ hashesComputed (resultStats r) = 3).
Proof.
  split; [vm_compute; reflexivity |]. split; [vm_compute; reflexivity |].
  eexists. eexists. split; [vm_compute; reflexivity |]. repeat split.
Qed.

(** * Further properties of the code *)

(** ** The nonce search: soundness, accounting, cancellation *)

Section MiningRuns.

Variable doubleSha256Bytes : list Z -> list Z.
Variable now : nat -> Q.
Variable shouldStopMining : nat -> bool.
Variable target : list ascii.
Variable maxAttempts : Z.
Variable hdr : BlockHeader.

Local Abbreviation inv := (searchInv doubleSha256Bytes shouldStopMining target maxAttempts hdr).
Local Abbreviation fails m :=
  (hashMeetsTarget (digestAt doubleSha256Bytes hdr m) target = Normal false).

Local Abbreviation ending :=
  (searchEnding doubleSha256Bytes shouldStopMining target maxAttempts hdr).

Lemma searchInv_cancel (st : MineState) (k : nat) :
  inv st ->
  loopCondition shouldStopMining maxAttempts st = true ->
  (forall a, (k <= a)%nat -> shouldStopMining a = true) ->
  curNonce st + 1 <= Z.of_nat k.
Proof.
  intros (_ & _ & _ & Haw & _) Hcond Hk.
  unfold loopCondition in Hcond. apply andb_true_iff in Hcond as [_ Hgo].
  destruct (Nat.le_gt_cases k (awaits st)) as [Hle | Hgt].
  - rewrite (Hk _ Hle) in Hgo. discriminate.
  - lia.
Qed.

Lemma batch_run (left : nat) :
  forall st,
    inv st ->
    match batch doubleSha256Bytes now shouldStopMining left target maxAttempts st with
    | BatchEnd st' =>
        inv st' /\
        curNonce st <= curNonce st' /\
        ((1 <= left)%nat -> loopCondition shouldStopMining maxAttempts st = true ->
         curNonce st < curNonce st')
    | Returned r st' => success r = true /\ ending (Normal r) st'
    | Threw e st' => ending (@Throw MiningResult e) st'
    end.
Proof.
  induction left as [| left IH]; intros st Hinv; cbn [batch].
  - split; [exact Hinv | lia].
  - destruct (loopCondition shouldStopMining maxAttempts st) eqn:Hcond;
      [| split; [exact Hinv | split; [lia | congruence]]].
    pose proof Hinv as (Hf & Hrange & Hh & Haw & Hstop & Hzero & Hpos & Hfail).
    assert (Hlt : curNonce st < maxAttempts).
    { unfold loopCondition in Hcond. apply andb_true_iff in Hcond as [Hlt _].
      now apply Z.ltb_lt in Hlt. }
    assert (Hdig : digestAt doubleSha256Bytes (header st) (curNonce st)
                   = digestAt doubleSha256Bytes hdr (curNonce st)).
    { unfold digestAt. now rewrite (setNonce_frame _ _ _ Hf). }
    unfold attempt. fold (digestAt doubleSha256Bytes (header st) (curNonce st)).
    rewrite Hdig.
    destruct (hashMeetsTarget (digestAt doubleSha256Bytes hdr (curNonce st)) target)
      as [[|] | e] eqn:Hmeet.
    + (* found *)
      split; [reflexivity |]. cbn.
      split; [lia |]. split; [exact Hfail |]. split; [exact Hf |]. split.
      * intros k Hk. pose proof (searchInv_cancel st k Hinv Hcond Hk). lia.
      * split; [lia |]. split; [reflexivity |]. split; [exact Hmeet | reflexivity].
    + (* next nonce *)
      match goal with
      | |- match batch _ _ _ _ _ _ ?s with _ => _ end => specialize (IH s)
      end.
      assert (Hnext : inv
        (mkMineState (setNonce (header st) (curNonce st)) (curNonce st + 1)
           (digestAt doubleSha256Bytes hdr (curNonce st))
           (mkMiningStats (hashesComputed (currentMiningStats st) + 1)
              (startTime (currentMiningStats st))
              (if Qle_bool ((now (clockReads st) - startTime (currentMiningStats st)) / 1000) 0
               then hashRate (currentMiningStats st)
               else (inject_Z (hashesComputed (currentMiningStats st) + 1)
                     / ((now (clockReads st) - startTime (currentMiningStats st)) / 1000))%Q)
              ((now (clockReads st) - startTime (currentMiningStats st)) / 1000)%Q)
           (lastUpdateTime st) (delivered st) (S (clockReads st)) (S (awaits st)))).
      { unfold searchInv. cbn.
        split; [exact Hf |]. split; [lia |]. split; [lia |]. split; [lia |].
        split; [intros k Hk; exact (searchInv_cancel st k Hinv Hcond Hk) |].
        split; [intros; lia |]. split.
        - intros _. replace (curNonce st + 1 - 1) with (curNonce st) by lia. now split.
        - intros m Hm. destruct (Z.eq_dec m (curNonce st)) as [-> | Hne];
            [exact Hmeet | apply Hfail; lia]. }
      specialize (IH Hnext).
      destruct (batch doubleSha256Bytes now shouldStopMining left target maxAttempts _)
        as [st2 | r st2 | e st2].
      * destruct IH as (Hinv2 & Hmono & _). cbn [curNonce] in Hmono.
        split; [exact Hinv2 |]. split; lia.
      * exact IH.
      * exact IH.
    + (* the comparison throws *)
      exists (curNonce st). split; [lia | exact Hmeet].
Qed.

Lemma periodicUpdate_inv (st : MineState) : inv st -> inv (periodicUpdate now st).
Proof.
  intros (Hf & Hrange & Hh & Haw & Hstop & Hzero & Hpos & Hfail).
  unfold periodicUpdate, searchInv.
  destruct (negb (Qle_bool _ 50)); cbn;
    (split; [exact Hf |]; split; [lia |]; split; [exact Hh |]; split; [lia |];
     split; [exact Hstop |]; split; [exact Hzero |]; split; [exact Hpos | exact Hfail]).
Qed.

Lemma mineLoop_run (fuel : nat) :
  forall st,
    (Z.to_nat (maxAttempts - curNonce st) < fuel)%nat ->
    inv st ->
    exists out st',
      mineLoop doubleSha256Bytes now shouldStopMining fuel target maxAttempts st
        = Some (out, st') /\
      ending out st'.
Proof.
  induction fuel as [| fuel IH]; intros st Hfuel Hinv; [lia |].
  cbn [mineLoop].
  destruct (loopCondition shouldStopMining maxAttempts st) eqn:Hcond.
  - pose proof (batch_run batchSize st Hinv) as Hb.
    destruct (batch doubleSha256Bytes now shouldStopMining batchSize target maxAttempts st)
      as [st1 | r st1 | e st1].
    + destruct Hb as (Hinv1 & _ & Hgrow).
      specialize (Hgrow ltac:(unfold batchSize; lia) Hcond).
      assert (Hlt : curNonce st < maxAttempts).
      { unfold loopCondition in Hcond. apply andb_true_iff in Hcond as [Hlt _].
        now apply Z.ltb_lt in Hlt. }
      apply IH; [| now apply periodicUpdate_inv].
      destruct (periodicUpdate_spec now st1) as (_ & Hn & _). rewrite Hn. lia.
    + destruct Hb as [_ Hend]. exists (Normal r), st1. now split.
    + exists (Throw e), st1. now split.
  - pose proof Hinv as (Hf & Hrange & Hh & Haw & Hstop & Hzero & Hpos & Hfail).
    eexists. eexists. split; [reflexivity |]. cbn.
    split; [lia |]. split; [exact Hfail |]. split; [exact Hf |]. split.
    + intros k Hk. rewrite Hh. now apply Hstop.
    + split; [lia |]. split; [| split; [exact Hzero | intros H; now apply Hpos]].
      intros Hlt. exists (awaits st).
      unfold loopCondition in Hcond. apply andb_false_iff in Hcond as [Hc | Hc].
      * apply Z.ltb_ge in Hc. lia.
      * now apply negb_false_iff in Hc.
Qed.

End MiningRuns.

Lemma initialState_inv (doubleSha256Bytes : list Z -> list Z) (now : nat -> Q)
    (shouldStopMining : nat -> bool) (target : list ascii) (maxAttempts : Z)
    (hdr : BlockHeader) :
  searchInv doubleSha256Bytes shouldStopMining target maxAttempts hdr (initialState now hdr).
Proof.
  unfold searchInv. cbn.
  split; [reflexivity |]. split; [lia |]. split; [reflexivity |]. split; [lia |].
  split; [intros; lia |]. split; [now split |]. split; intros; lia.
Qed.


Lemma mineBlock_run (doubleSha256Bytes : list Z -> list Z) (now : nat -> Q)
    (shouldStopMining : nat -> bool) (hdr : BlockHeader) (maxAttempts : Z) :
  exists out st,
    mineBlock doubleSha256Bytes now shouldStopMining hdr maxAttempts = Some (out, st) /\
    searchEnding doubleSha256Bytes shouldStopMining (bitsToTarget (bits hdr)) maxAttempts hdr
      out st.
Proof.
  unfold mineBlock. apply mineLoop_run.
  - cbn [initialState curNonce]. lia.
  - apply initialState_inv.
Qed.

(** X1. Every run of the search ends, and a successful one is genuine:
    the returned nonce lies in [0, maxAttempts), the returned hash is the
    digest of the header with that nonce and meets the target, the header
    object holds that nonce, and every smaller nonce was tried and failed. *)
Theorem mineBlock_success_sound (doubleSha256Bytes : list Z -> list Z) (now : nat -> Q)
    (shouldStopMining : nat -> bool) (hdr : BlockHeader) (maxAttempts : Z) :
  exists out st,
    mineBlock doubleSha256Bytes now shouldStopMining hdr maxAttempts = Some (out, st) /\
    forall r, out = Normal r -> success r = true ->
      0 <= resultNonce r < maxAttempts /\
      resultHash r = digestAt doubleSha256Bytes hdr (resultNonce r) /\
      hashMeetsTarget (resultHash r) (bitsToTarget (bits hdr)) = Normal true /\
      nonce (header st) = resultNonce r /\
      (forall m, 0 <= m < resultNonce r ->
         hashMeetsTarget (digestAt doubleSha256Bytes hdr m) (bitsToTarget (bits hdr))
         = Normal false).
Proof.
  destruct (mineBlock_run doubleSha256Bytes now shouldStopMining hdr maxAttempts)
    as (out & st & Hrun & Hend).
  exists out, st. split; [exact Hrun |]. intros r -> Hs.
  cbn [searchEnding] in Hend. destruct Hend as (_ & Hfail & _ & _ & Hcase).
  rewrite Hs in Hcase. destruct Hcase as (Hrange & Hhash & Hmeet & Hnonce).
  repeat split; try assumption; lia.
Qed.

(** X2. Every run of the search ends, and exactly one hash is counted per
    nonce tried: when the search returns, [hashesComputed] is the returned
    nonce plus one on success, and the returned nonce itself on failure. *)
Theorem mineBlock_hash_count (doubleSha256Bytes : list Z -> list Z) (now : nat -> Q)
    (shouldStopMining : nat -> bool) (hdr : BlockHeader) (maxAttempts : Z) :
  exists out st,
    mineBlock doubleSha256Bytes now shouldStopMining hdr maxAttempts = Some (out, st) /\
    forall r, out = Normal r ->
      hashesComputed (resultStats r) = resultNonce r + (if success r then 1 else 0).
Proof.
  destruct (mineBlock_run doubleSha256Bytes now shouldStopMining hdr maxAttempts)
    as (out & st & Hrun & Hend).
  exists out, st. split; [exact Hrun |]. intros r ->.
  cbn [searchEnding] in Hend. now destruct Hend as (Hcount & _).
Qed.

(** X3. A search that is never cancelled ends, and if it fails it has tried
    every nonce: it returns nonce = hashesComputed = max(0, maxAttempts), and
    no nonce in [0, maxAttempts) has a digest that meets the target. *)
Theorem mineBlock_exhaustive (doubleSha256Bytes : list Z -> list Z) (now : nat -> Q)
    (shouldStopMining : nat -> bool) (hdr : BlockHeader) (maxAttempts : Z) :
  (forall a, shouldStopMining a = false) ->
  exists out st,
    mineBlock doubleSha256Bytes now shouldStopMining hdr maxAttempts = Some (out, st) /\
    forall r, out = Normal r -> success r = false ->
      resultNonce r = Z.max 0 maxAttempts /\
      hashesComputed (resultStats r) = Z.max 0 maxAttempts /\
      (forall m, 0 <= m < maxAttempts ->
         hashMeetsTarget (digestAt doubleSha256Bytes hdr m) (bitsToTarget (bits hdr))
         = Normal false).
Proof.
  intros Hnever.
  destruct (mineBlock_run doubleSha256Bytes now shouldStopMining hdr maxAttempts)
    as (out & st & Hrun & Hend).
  exists out, st. split; [exact Hrun |]. intros r -> Hs.
  cbn [searchEnding] in Hend. destruct Hend as (Hcount & Hfail & _ & _ & Hcase).
  rewrite Hs in Hcase, Hcount. destruct Hcase as (Hrange & Hstop & _).
  assert (Hfull : resultNonce r = Z.max 0 maxAttempts).
  { destruct (Z.lt_ge_cases (resultNonce r) maxAttempts) as [Hlt | Hge]; [| lia].
    destruct (Hstop Hlt) as [a Ha]. rewrite Hnever in Ha. discriminate. }
  split; [exact Hfull |]. split; [lia |].
  intros m Hm. apply Hfail. lia.
Qed.

Lemma mineBlock_exhaustive_witness :
  exists out st,
    mineBlock toyDigest steadyClock neverStop sampleHeader 3 = Some (out, st) /\
    forall r, out = Normal r -> success r = false ->
      resultNonce r = Z.max 0 3 /\
      hashesComputed (resultStats r) = Z.max 0 3 /\
      (forall m, 0 <= m < 3 ->
         hashMeetsTarget (digestAt toyDigest sampleHeader m) (bitsToTarget (bits sampleHeader))
         = Normal false).
Proof.
  apply (mineBlock_exhaustive toyDigest steadyClock neverStop sampleHeader 3).
  intros a. reflexivity.
Defined.

(** X4. Cancellation is observed before every attempt: if the flag is up
    from the k-th await on, the search ends and returns with at most k
    hashes computed. *)
Theorem mineBlock_cancel_bound (doubleSha256Bytes : list Z -> list Z) (now : nat -> Q)
    (shouldStopMining : nat -> bool) (hdr : BlockHeader) (maxAttempts : Z) (k : nat) :
  (forall a, (k <= a)%nat -> shouldStopMining a = true) ->
  exists out st,
    mineBlock doubleSha256Bytes now shouldStopMining hdr maxAttempts = Some (out, st) /\
    forall r, out = Normal r -> hashesComputed (resultStats r) <= Z.of_nat k.
Proof.
  intros Hk.
  destruct (mineBlock_run doubleSha256Bytes now shouldStopMining hdr maxAttempts)
    as (out & st & Hrun & Hend).
  exists out, st. split; [exact Hrun |]. intros r ->.
  cbn [searchEnding] in Hend. destruct Hend as (_ & _ & _ & Hbound & _).
  now apply Hbound.
Qed.

Lemma mineBlock_cancel_bound_witness :
  exists out st,
    mineBlock toyDigest steadyClock (stopAfter 3) sampleHeader 1000 = Some (out, st) /\
    forall r, out = Normal r -> hashesComputed (resultStats r) <= Z.of_nat 3.
Proof.
  apply (mineBlock_cancel_bound toyDigest steadyClock (stopAfter 3) sampleHeader 1000 3).
  intros a Ha. unfold stopAfter. now apply Nat.leb_le.
Defined.

(** X5. With [maxAttempts <= 0] the search returns at once: no hash is
    computed, no snapshot is delivered, the result is a failure with nonce 0
    and the empty hash, and the header object is untouched. *)
Theorem mineBlock_no_attempts (doubleSha256Bytes : list Z -> list Z) (now : nat -> Q)
    (shouldStopMining : nat -> bool) (hdr : BlockHeader) (maxAttempts : Z) :
  maxAttempts <= 0 ->
  mineBlock doubleSha256Bytes now shouldStopMining hdr maxAttempts
  = Some (Normal (mkMiningResult false 0 [] (mkMiningStats 0 (now 0%nat) 0 0)),
          initialState now hdr).
Proof.
  intros Hmax. unfold mineBlock. cbn [mineLoop].
  unfold loopCondition. cbn [initialState curNonce].
  replace (0 <? maxAttempts) with false by (symmetry; apply Z.ltb_ge; lia).
  reflexivity.
Qed.

Lemma mineBlock_no_attempts_witness :
  mineBlock toyDigest steadyClock neverStop sampleHeader 0
  = Some (Normal (mkMiningResult false 0 [] (mkMiningStats 0 (steadyClock 0%nat) 0 0)),
          initialState steadyClock sampleHeader).
Proof.
  apply (mineBlock_no_attempts toyDigest steadyClock neverStop sampleHeader 0). lia.
Defined.

(** ** Hex strings as numbers *)

Lemma isHexChar_not_space (c : ascii) : isHexChar c = true -> isWhiteSpace c = false.
Proof.
  destruct c as [[] [] [] [] [] [] [] []]; vm_compute; congruence.
Qed.

Lemma isLowerHex_isHexChar (c : ascii) : isLowerHex c = true -> isHexChar c = true.
Proof.
  destruct c as [[] [] [] [] [] [] [] []]; vm_compute; congruence.
Qed.

Lemma forallb_lower_hex (s : list ascii) :
  forallb isLowerHex s = true -> forallb isHexChar s = true.
Proof.
  induction s as [| c s IH]; cbn [forallb]; [reflexivity |].
  intros H. apply andb_true_iff in H as [Hc Hs].
  now rewrite (isLowerHex_isHexChar c Hc), IH.
Qed.

Lemma trimEndAux_hex (s : list ascii) :
  forallb isHexChar s = true ->
  trimEndAux s = (s, match s with [] => true | _ => false end).
Proof.
  induction s as [| c s IH]; cbn [forallb trimEndAux]; [reflexivity |].
  intros H. apply andb_true_iff in H as [Hc Hs].
  rewrite (IH Hs), (isHexChar_not_space c Hc), andb_false_r. reflexivity.
Qed.

Lemma readDigits_hex_count (s : list ascii) :
  forallb isHexChar s = true ->
  forall acc k, snd (readDigits s acc k) = (k + length s)%nat.
Proof.
  induction s as [| c s IH]; cbn [forallb readDigits]; intros H acc k.
  - cbn. lia.
  - apply andb_true_iff in H as [Hc Hs]. unfold isHexChar in Hc.
    destruct (digitVal c) as [d |]; [| discriminate].
    rewrite (IH Hs). cbn [length]. lia.
Qed.

Lemma bigIntOfHex_hex (s : list ascii) :
  forallb isHexChar s = true -> s <> [] -> bigIntOfHex s = Normal (hexValue s).
Proof.
  intros Hs Hne. unfold bigIntOfHex, hexValue.
  rewrite (trimEndAux_hex s Hs). cbn [fst].
  pose proof (readDigits_hex_count s Hs 0 0) as Hcount.
  destruct (readDigits s 0 0) as [v k]. cbn [fst snd] in *. subst k.
  cbn [Nat.add]. rewrite Nat.eqb_refl.
  destruct s as [| c s']; [congruence | reflexivity].
Qed.

Lemma hashMeetsTarget_hex (hashHex targetHex : list ascii) :
  forallb isHexChar hashHex = true -> forallb isHexChar targetHex = true ->
  hashHex <> [] -> targetHex <> [] ->
  hashMeetsTarget hashHex targetHex = Normal (hexValue hashHex <=? hexValue targetHex).
Proof.
  intros Hh Ht Hhne Htne. unfold hashMeetsTarget.
  now rewrite (bigIntOfHex_hex _ Hh Hhne), (bigIntOfHex_hex _ Ht Htne).
Qed.

(** X6. On nonempty strings of radix-16 digits [hashMeetsTarget] is the
    comparison of the two numbers, equality included; on the empty hash it
    throws a SyntaxError. *)
Theorem hashMeetsTarget_numeric (hashHex targetHex : list ascii) :
  forallb isHexChar hashHex = true -> forallb isHexChar targetHex = true ->
  targetHex <> [] ->
  (hashHex <> [] ->
   hashMeetsTarget hashHex targetHex = Normal (hexValue hashHex <=? hexValue targetHex)) /\
  hashMeetsTarget hashHex hashHex
    = (if Nat.eqb (length hashHex) 0 then Throw SyntaxError else Normal true) /\
  hashMeetsTarget [] targetHex = Throw SyntaxError.
Proof.
  intros Hh Ht Htne. split; [| split; [| reflexivity]].
  - intros Hhne. now apply hashMeetsTarget_hex.
  - destruct hashHex as [| c s] eqn:Heq; [reflexivity |]. cbn [length Nat.eqb].
    rewrite hashMeetsTarget_hex by (try assumption; discriminate).
    now rewrite Z.leb_refl.
Qed.

Lemma hashMeetsTarget_numeric_witness :
  hashMeetsTarget (str "00ff") (str "0100") = Normal (hexValue (str "00ff") <=? hexValue (str "0100")).
Proof.
  apply (proj1 (hashMeetsTarget_numeric (str "00ff") (str "0100") eq_refl eq_refl
                  ltac:(discriminate))).
  discriminate.
Defined.

(** ** Byte/hex round trips *)

Lemma byteHex (b : Z) : 0 <= b < 256 -> padStart 2 "0" (toString16 b) = hexDigitsOf 2 b.
Proof. intros Hb. apply padStart_toString16; [lia | change (16 ^ Z.of_nat 2) with 256; lia]. Qed.

Lemma bytesToHex_cons (b : Z) (bs : list Z) :
  0 <= b < 256 ->
  bytesToHex (b :: bs) = hexDigit (b / 16 mod 16) :: hexDigit (b mod 16) :: bytesToHex bs.
Proof. intros Hb. unfold bytesToHex. cbn [map concat]. now rewrite (byteHex b Hb). Qed.

Lemma hexToBytes_map (hex : list ascii) :
  hexToBytes hex = map (byteAt hex) (seq 0 (length hex / 2)).
Proof.
  apply list_eq. intros k. rewrite list_lookup_fmap.
  destruct (Nat.lt_ge_cases k (length hex / 2)) as [Hlt | Hge].
  - now rewrite hexToBytes_lookup, lookup_seq_lt by exact Hlt.
  - rewrite lookup_ge_None_2 by (rewrite hexToBytes_length; lia).
    now rewrite lookup_seq_ge by exact Hge.
Qed.

Lemma hexToBytes_cons2 (c1 c2 : ascii) (rest : list ascii) :
  hexToBytes (c1 :: c2 :: rest)
  = toUint8 (default 0 (parseInt16 [c1; c2])) :: hexToBytes rest.
Proof.
  rewrite (hexToBytes_map (c1 :: c2 :: rest)), (hexToBytes_map rest).
  assert (Hlen : (length (c1 :: c2 :: rest) / 2 = S (length rest / 2))%nat).
  { cbn [length]. replace (S (S (length rest))) with (length rest + 1 * 2)%nat by lia.
    rewrite Nat.div_add by lia. lia. }
  rewrite Hlen. cbn [seq map].
  assert (Hhead : byteAt (c1 :: c2 :: rest) 0 = toUint8 (default 0 (parseInt16 [c1; c2]))).
  { unfold byteAt, substr. reflexivity. }
  rewrite Hhead. f_equal.
  rewrite <- seq_shift, map_map. apply map_ext. intros k.
  unfold byteAt, substr. replace (2 * S k)%nat with (S (S (2 * k))) by lia. reflexivity.
Qed.

Lemma parse_two_digits (d1 d0 : Z) :
  0 <= d1 < 16 -> 0 <= d0 < 16 ->
  parseInt16 [hexDigit d1; hexDigit d0] = Some (d1 * 16 + d0).
Proof.
  intros H1 H0. change [hexDigit d1; hexDigit d0] with (map hexDigit [d1; d0]).
  rewrite parseInt16_hexDigits by (repeat constructor; lia).
  unfold digitsValue. cbn [fold_left]. f_equal.
Qed.

Lemma decode_render_byte (b : Z) (bs : list Z) :
  0 <= b < 256 -> hexToBytes (bytesToHex (b :: bs)) = b :: hexToBytes (bytesToHex bs).
Proof.
  intros Hb. rewrite (bytesToHex_cons b bs Hb), hexToBytes_cons2.
  rewrite parse_two_digits by (apply Z.mod_pos_bound; lia).
  cbn [default]. f_equal. unfold toUint8, id. change (2 ^ 8) with 256.
  Z.div_mod_to_equations. lia.
Qed.

Lemma decode_render (bytes : list Z) :
  Forall (fun b => 0 <= b < 256) bytes -> hexToBytes (bytesToHex bytes) = bytes.
Proof.
  induction 1 as [| b bs Hb _ IH]; [reflexivity |].
  now rewrite decode_render_byte, IH.
Qed.

(** X7. Decoding the hex rendering of a byte array gives the array back,
    and the rendering has two characters per byte. *)
Theorem hexToBytes_bytesToHex (bytes : list Z) :
  Forall (fun b => 0 <= b < 256) bytes ->
  hexToBytes (bytesToHex bytes) = bytes /\
  length (bytesToHex bytes) = (2 * length bytes)%nat.
Proof.
  intros Hbytes. split; [now apply decode_render |].
  induction Hbytes as [| b bs Hb _ IH]; [reflexivity |].
  rewrite (bytesToHex_cons b bs Hb). cbn [length]. lia.
Qed.

Lemma hexToBytes_bytesToHex_witness : hexToBytes (bytesToHex [0; 171; 255]) = [0; 171; 255].
Proof. apply (hexToBytes_bytesToHex [0; 171; 255]). repeat constructor; lia. Defined.

Lemma lowerHex_digit (c : ascii) :
  isLowerHex c = true ->
  exists d, 0 <= d < 16 /\ c = hexDigit d.
Proof.
  intros Hc. exists (default 0 (digitVal c)).
  destruct c as [[] [] [] [] [] [] [] []]; try discriminate Hc;
    (split; [vm_compute; split; [discriminate | reflexivity] | reflexivity]).
Qed.

Lemma even_length_pairs (P : list ascii -> Prop) :
  P [] -> (forall a b l, P l -> P (a :: b :: l)) ->
  forall l, (length l mod 2 = 0)%nat -> P l.
Proof.
  intros Hnil Hstep.
  assert (Hall : forall n l, length l = (2 * n)%nat -> P l).
  { induction n as [| n IH]; intros l Hl.
    - destruct l; [exact Hnil | discriminate].
    - destruct l as [| a [| b l]]; cbn [length] in Hl; try lia.
      apply Hstep, IH. lia. }
  intros l Hl. apply (Hall (length l / 2)%nat).
  pose proof (Nat.div_mod_eq (length l) 2). lia.
Qed.

Lemma render_decode (hex : list ascii) :
  (length hex mod 2 = 0)%nat ->
  forallb isLowerHex hex = true ->
  bytesToHex (hexToBytes hex) = hex.
Proof.
  intros Heven. revert hex Heven.
  apply (even_length_pairs
           (fun hex => forallb isLowerHex hex = true -> bytesToHex (hexToBytes hex) = hex)).
  - reflexivity.
  - intros a b l IH Hall. cbn [forallb] in Hall.
    apply andb_true_iff in Hall as [Ha Hall]. apply andb_true_iff in Hall as [Hb Hl].
    destruct (lowerHex_digit a Ha) as (d1 & H1 & ->).
    destruct (lowerHex_digit b Hb) as (d0 & H0 & ->).
    rewrite hexToBytes_cons2, parse_two_digits by assumption. cbn [default]. unfold id.
    assert (Hbyte : toUint8 (d1 * 16 + d0) = d1 * 16 + d0).
    { apply toUint8_byte. lia. }
    rewrite Hbyte, bytesToHex_cons by lia. rewrite (IH Hl).
    f_equal; [| f_equal]; f_equal; Z.div_mod_to_equations; lia.
Qed.

(** X8. Rendering the bytes decoded from an even-length string of lowercase
    radix-16 digits gives the string back, and the bytes number half the
    characters. *)
Theorem bytesToHex_hexToBytes (hex : list ascii) :
  (length hex mod 2 = 0)%nat ->
  forallb isLowerHex hex = true ->
  bytesToHex (hexToBytes hex) = hex /\
  (2 * length (hexToBytes hex) = length hex)%nat.
Proof.
  intros Heven Hlower. split; [now apply render_decode |].
  rewrite hexToBytes_length. pose proof (Nat.div_mod_eq (length hex) 2). lia.
Qed.

Lemma bytesToHex_hexToBytes_witness :
  bytesToHex (hexToBytes (str "00abff")) = str "00abff".
Proof. apply (bytesToHex_hexToBytes (str "00abff")); reflexivity. Defined.

(** X9. [reverseHex] is an involution on even-length strings of lowercase
    radix-16 digits. *)
Theorem reverseHex_involutive (hex : list ascii) :
  (length hex mod 2 = 0)%nat ->
  forallb isLowerHex hex = true ->
  reverseHex (reverseHex hex) = hex.
Proof.
  intros Heven Hlower. unfold reverseHex, reverseBytes.
  rewrite decode_render.
  - rewrite rev_involutive. now apply render_decode.
  - apply Forall_rev, hexToBytes_bytes.
Qed.

Lemma reverseHex_involutive_witness :
  reverseHex (reverseHex (str "00abff")) = str "00abff".
Proof. apply (reverseHex_involutive (str "00abff")); reflexivity. Defined.

Lemma bytesToHex_lower (bytes : list Z) :
  Forall (fun b => 0 <= b < 256) bytes -> forallb isLowerHex (bytesToHex bytes) = true.
Proof.
  induction 1 as [| b bs Hb _ IH]; [reflexivity |].
  rewrite (bytesToHex_cons b bs Hb). cbn [forallb].
  now rewrite !hexDigit_lower, IH by (apply Z.mod_pos_bound; lia).
Qed.

Lemma bitsToTarget_parses (bits : Z) :
  bigIntOfHex (bitsToTarget bits) = Normal (hexValue (bitsToTarget bits)).
Proof.
  apply bigIntOfHex_hex.
  - apply forallb_lower_hex, bitsToTarget_lower.
  - pose proof (bitsToTarget_length bits) as Hlen.
    destruct (bitsToTarget bits); [discriminate | discriminate].
Qed.

(** X10. When the digest function returns nonempty byte arrays (as SHA-256
    does), the search never throws: every run returns a result. *)
Theorem mineBlock_never_throws (doubleSha256Bytes : list Z -> list Z) (now : nat -> Q)
    (shouldStopMining : nat -> bool) (hdr : BlockHeader) (maxAttempts : Z) :
  (forall data, doubleSha256Bytes data <> [] /\
                Forall (fun b => 0 <= b < 256) (doubleSha256Bytes data)) ->
  exists r st,
    mineBlock doubleSha256Bytes now shouldStopMining hdr maxAttempts = Some (Normal r, st).
Proof.
  intros Hsha.
  destruct (mineBlock_run doubleSha256Bytes now shouldStopMining hdr maxAttempts)
    as (out & st & Hrun & Hend).
  destruct out as [r | e]; [now exists r, st |].
  exfalso. destruct Hend as (m & _ & Hthrow).
  unfold hashMeetsTarget, digestAt, reverseBytes in Hthrow.
  destruct (Hsha (serializeBlockHeader (setNonce hdr m))) as [Hne Hbytes].
  set (bs := doubleSha256Bytes (serializeBlockHeader (setNonce hdr m))) in *.
  rewrite bigIntOfHex_hex, bitsToTarget_parses in Hthrow.
  - discriminate.
  - apply forallb_lower_hex, bytesToHex_lower, Forall_rev, Hbytes.
  - destruct (rev bs) as [| b rest] eqn:Hrev.
    + apply (f_equal (@rev Z)) in Hrev. rewrite rev_involutive in Hrev. contradiction.
    + assert (Hb : 0 <= b < 256).
      { assert (Hall : Forall (fun b => 0 <= b < 256) (b :: rest))
          by (rewrite <- Hrev; apply Forall_rev, Hbytes).
        now inversion Hall. }
      rewrite (bytesToHex_cons b rest Hb). discriminate.
Qed.

Lemma mineBlock_never_throws_witness :
  exists r st,
    mineBlock toyDigest steadyClock neverStop sampleHeader 1000 = Some (Normal r, st).
Proof.
  apply (mineBlock_never_throws toyDigest steadyClock neverStop sampleHeader 1000).
  intros data. unfold toyDigest. split.
  - discriminate.
  - apply Forall_app. split.
    + repeat constructor; lia.
    + repeat constructor; apply Z.mod_pos_bound; lia.
Defined.

(** ** Leading zero bits *)

Lemma digitVal_range (c : ascii) (d : Z) : digitVal c = Some d -> 0 <= d < 16.
Proof.
  unfold digitVal. set (n := Z.of_nat (nat_of_ascii c)).
  destruct (Z.leb_spec 48 n), (Z.leb_spec n 57); cbn [andb];
    try (intros Heq; inversion Heq; lia);
    destruct (Z.leb_spec 97 n), (Z.leb_spec n 102); cbn [andb];
    try (intros Heq; inversion Heq; lia);
    destruct (Z.leb_spec 65 n), (Z.leb_spec n 70); cbn [andb];
    intros Heq; inversion Heq; lia.
Qed.

Lemma parseInt16_single (c : ascii) : isHexChar c = true -> parseInt16 [c] = digitVal c.
Proof.
  destruct c as [[] [] [] [] [] [] [] []]; vm_compute; congruence.
Qed.

Lemma readDigits_value (s : list ascii) :
  forallb isHexChar s = true ->
  (forall acc k, fst (readDigits s acc k) = acc * 16 ^ Z.of_nat (length s) + hexValue s) /\
  0 <= hexValue s < 16 ^ Z.of_nat (length s).
Proof.
  unfold hexValue.
  induction s as [| c s IH]; cbn [forallb readDigits length]; intros H.
  - split; [intros acc k; cbn; lia | cbn; lia].
  - apply andb_true_iff in H as [Hc Hs]. destruct (IH Hs) as [Hacc Hrange].
    unfold isHexChar in Hc. destruct (digitVal c) as [d |] eqn:Hd; [| discriminate].
    pose proof (digitVal_range c d Hd) as Hdr.
    rewrite Nat2Z.inj_succ, Z.pow_succ_r by lia.
    assert (Hpow : 0 < 16 ^ Z.of_nat (length s)) by (apply Z.pow_pos_nonneg; lia).
    split.
    + intros acc k. rewrite (Hacc (acc * 16 + d)), (Hacc (0 * 16 + d)). lia.
    + rewrite (Hacc (0 * 16 + d)). nia.
Qed.

Lemma hexValue_cons (c : ascii) (s : list ascii) (d : Z) :
  digitVal c = Some d -> forallb isHexChar s = true ->
  hexValue (c :: s) = d * 16 ^ Z.of_nat (length s) + hexValue s.
Proof.
  intros Hd Hs. unfold hexValue at 1. cbn [readDigits]. rewrite Hd.
  destruct (readDigits_value s Hs) as [Hacc _]. rewrite Hacc. lia.
Qed.

Lemma countLeadingZeroBits_loop_acc (s : list ascii) :
  forall bits, countLeadingZeroBits_loop bits s = bits + countLeadingZeroBits s.
Proof.
  unfold countLeadingZeroBits.
  induction s as [| c s IH]; intros bits; cbn [countLeadingZeroBits_loop]; [lia |].
  destruct (parseInt16 [c]) as [[| p | p] |]; cbn [numLt];
    try (rewrite (IH (bits + 4)), (IH (0 + 4)); lia);
    repeat match goal with |- context [if ?b then _ else _] => destruct b end; lia.
Qed.

(** On a string of radix-16 digits, [countLeadingZeroBits] is the
    number of leading zero bits of the number the string denotes, read as a
    (4 * length)-bit number: the number is below 2^(4*length - count), and
    it is at least 2^(4*length - count - 1) unless it is zero, in which case
    the count is 4 * length. *)
Lemma zeroBits_bounds (hashHex : list ascii) :
  forallb isHexChar hashHex = true ->
  let width := 4 * Z.of_nat (length hashHex) in
  let count := countLeadingZeroBits hashHex in
  0 <= count <= width /\
  hexValue hashHex < 2 ^ (width - count) /\
  (hexValue hashHex <> 0 -> 2 ^ (width - count - 1) <= hexValue hashHex) /\
  (hexValue hashHex = 0 -> count = width).
Proof.
  induction hashHex as [| c s IH]; cbn [forallb]; intros H; cbv zeta.
  - cbn. repeat split; lia.
  - apply andb_true_iff in H as [Hc Hs]. specialize (IH Hs). cbv zeta in IH.
    destruct IH as (Hcount & Hup & Hlow & Hzero).
    pose proof Hc as Hc'. unfold isHexChar in Hc'.
    destruct (digitVal c) as [d |] eqn:Hd; [| discriminate].
    pose proof (digitVal_range c d Hd) as Hdr.
    destruct (readDigits_value s Hs) as [_ Hv].
    rewrite (hexValue_cons c s d Hd Hs).
    unfold countLeadingZeroBits. cbn [countLeadingZeroBits_loop length].
    rewrite (parseInt16_single c Hc), Hd.
    rewrite Nat2Z.inj_succ.
    set (n := Z.of_nat (length s)) in *.
    assert (Hn : 0 <= n) by (unfold n; lia).
    assert (H16 : 16 ^ n = 2 ^ (4 * n)).
    { change 16 with (2 ^ 4). now rewrite <- Z.pow_mul_r by lia. }
    assert (Hpos : 0 < 2 ^ (4 * n)) by (apply Z.pow_pos_nonneg; lia).
    rewrite H16 in *.
    destruct (Z.eq_dec d 0) as [-> | Hnz].
    + rewrite countLeadingZeroBits_loop_acc.
      replace (4 * Z.succ n - (0 + 4 + countLeadingZeroBits s))
        with (4 * n - countLeadingZeroBits s) by lia.
      replace (0 * 2 ^ (4 * n) + hexValue s) with (hexValue s) by lia.
      split; [lia |]. split; [exact Hup |]. split; [exact Hlow |].
      intros Hz. specialize (Hzero Hz). lia.
    + assert (Hshape : forall z, 0 <= z <= 3 ->
                2 ^ (4 * Z.succ n - z) = 2 ^ (4 - z) * 2 ^ (4 * n)).
      { intros z Hz. rewrite <- Z.pow_add_r by lia. f_equal. lia. }
      assert (Hshape' : forall z, 0 <= z <= 3 ->
                2 ^ (4 * Z.succ n - z - 1) = 2 ^ (3 - z) * 2 ^ (4 * n)).
      { intros z Hz. rewrite <- Z.pow_add_r by lia. f_equal. lia. }
      destruct d as [| p | p]; [lia | | lia].
      cbn [numLt].
      destruct (Z.ltb_spec (Z.pos p) 8), (Z.ltb_spec (Z.pos p) 4), (Z.ltb_spec (Z.pos p) 2);
        try lia;
        match goal with
        | |- context [2 ^ (4 * Z.succ n - ?z)] =>
            rewrite (Hshape z), (Hshape' z) by lia
        end;
        match goal with
        | |- context [2 ^ ?k * 2 ^ (4 * n)] =>
            let v := eval vm_compute in (2 ^ k) in change (2 ^ k) with v
        end;
        repeat match goal with
        | |- context [2 ^ ?k * 2 ^ (4 * n)] =>
            let v := eval vm_compute in (2 ^ k) in change (2 ^ k) with v
        end;
        (split; [lia |]; split; [nia |]; split; [intros _; nia | intros Hz; nia]).
Qed.

(** X11. On a string of radix-16 digits, [countLeadingZeroBits] is the
    number of leading zero bits of the number the string denotes, read as a
    (4 * length)-bit number: with count = [countLeadingZeroBits hashHex] and
    width = 4 * length, the number is below 2^(width - count), and it is at
    least 2^(width - count - 1) unless it is zero, when count = width. *)
Theorem countLeadingZeroBits_exact (hashHex : list ascii) :
  forallb isHexChar hashHex = true ->
  0 <= countLeadingZeroBits hashHex <= 4 * Z.of_nat (length hashHex) /\
  hexValue hashHex < 2 ^ (4 * Z.of_nat (length hashHex) - countLeadingZeroBits hashHex) /\
  (hexValue hashHex <> 0 ->
   2 ^ (4 * Z.of_nat (length hashHex) - countLeadingZeroBits hashHex - 1)
   <= hexValue hashHex) /\
  (hexValue hashHex = 0 ->
   countLeadingZeroBits hashHex = 4 * Z.of_nat (length hashHex)).
Proof.
  intros Hh. pose proof (zeroBits_bounds hashHex Hh) as Hb. cbv zeta in Hb. exact Hb.
Qed.

Lemma countLeadingZeroBits_exact_witness :
  hexValue (str "001f") < 2 ^ (4 * 4 - countLeadingZeroBits (str "001f")).
Proof.
  exact (proj1 (proj2 (countLeadingZeroBits_exact (str "001f") eq_refl))).
Defined.

(** X12. Among strings of radix-16 digits of the same length, a hash with
    more leading zero bits than the target meets the target.  (The count is
    a sufficient test only; [hashMeetsTarget] is the deciding one.) *)
Theorem more_zero_bits_meets_target (hashHex targetHex : list ascii) :
  forallb isHexChar hashHex = true -> forallb isHexChar targetHex = true ->
  length hashHex = length targetHex ->
  countLeadingZeroBits targetHex < countLeadingZeroBits hashHex ->
  hashMeetsTarget hashHex targetHex = Normal true.
Proof.
  intros Hh Ht Hlen Hmore.
  destruct (zeroBits_bounds hashHex Hh) as (Hch & Hhup & _ & _).
  destruct (zeroBits_bounds targetHex Ht) as (Hct & _ & Htlow & Htzero).
  rewrite Hlen in *.
  set (w := 4 * Z.of_nat (length targetHex)) in *.
  assert (Hne : hashHex <> []).
  { intros ->. destruct targetHex; [cbn in Hmore; lia | discriminate]. }
  assert (Htne : targetHex <> []).
  { intros ->. destruct hashHex; [congruence | discriminate]. }
  rewrite (hashMeetsTarget_hex hashHex targetHex Hh Ht Hne Htne). f_equal. apply Z.leb_le.
  destruct (Z.eq_dec (hexValue targetHex) 0) as [Hz | Hnz].
  - specialize (Htzero Hz). lia.
  - specialize (Htlow Hnz).
    assert (2 ^ (w - countLeadingZeroBits hashHex)
            <= 2 ^ (w - countLeadingZeroBits targetHex - 1)).
    { apply Z.pow_le_mono_r; lia. }
    lia.
Qed.

Lemma more_zero_bits_meets_target_witness :
  hashMeetsTarget (str "001f") (str "0100") = Normal true.
Proof.
  apply (more_zero_bits_meets_target (str "001f") (str "0100")); reflexivity.
Defined.

(** ** The compact codec on numbers *)

Lemma hexDigitsOf_cons (k : nat) :
  forall V, hexDigitsOf (S k) V = hexDigit (V / 16 ^ Z.of_nat k mod 16) :: hexDigitsOf k V.
Proof.
  induction k as [| k IH]; intros V.
  - cbn [hexDigitsOf app]. change (16 ^ Z.of_nat 0) with 1. now rewrite Z.div_1_r.
  - change (hexDigitsOf (S (S k)) V)
      with (hexDigitsOf (S k) (V / 16) ++ [hexDigit (V mod 16)]).
    rewrite IH. cbn [app hexDigitsOf]. f_equal. f_equal.
    rewrite Nat2Z.inj_succ, Z.pow_succ_r by lia.
    now rewrite Z.div_div by (try lia; apply Z.pow_pos_nonneg; lia).
Qed.

Lemma hexDigitsOf_app_zeros (k r : nat) (x : Z) :
  hexDigitsOf k x ++ repeat "0"%char r = hexDigitsOf (k + r) (x * 16 ^ Z.of_nat r).
Proof.
  induction r as [| r IH].
  - cbn [repeat]. rewrite app_nil_r, Nat.add_0_r. change (16 ^ Z.of_nat 0) with 1.
    now rewrite Z.mul_1_r.
  - rewrite Nat.add_succ_r. cbn [hexDigitsOf].
    rewrite Nat2Z.inj_succ, Z.pow_succ_r by lia.
    replace (x * (16 * 16 ^ Z.of_nat r)) with (x * 16 ^ Z.of_nat r * 16) by lia.
    rewrite Z.div_mul, Z.mod_mul by lia. rewrite <- IH.
    change (hexDigit 0) with "0"%char.
    rewrite <- app_assoc. f_equal. now rewrite <- repeat_cons.
Qed.

Lemma zeros_app_hexDigitsOf (a k : nat) (x : Z) :
  0 <= x < 16 ^ Z.of_nat k ->
  repeat "0"%char a ++ hexDigitsOf k x = hexDigitsOf (a + k) x.
Proof.
  intros Hx. induction a as [| a IH]; [reflexivity |].
  cbn [repeat app Nat.add]. rewrite hexDigitsOf_cons, IH.
  assert (Hle : 16 ^ Z.of_nat k <= 16 ^ Z.of_nat (a + k)) by (apply Z.pow_le_mono_r; lia).
  now rewrite Z.div_small by lia.
Qed.

Lemma hexValue_snoc (s : list ascii) (c : ascii) (d : Z) :
  forallb isHexChar s = true -> digitVal c = Some d ->
  hexValue (s ++ [c]) = hexValue s * 16 + d.
Proof.
  intros Hs Hd.
  assert (Hgen : forall acc k,
            fst (readDigits (s ++ [c]) acc k) = fst (readDigits s acc k) * 16 + d).
  { induction s as [| c' s IH]; intros acc k; cbn [app readDigits].
    - now rewrite Hd.
    - cbn [forallb] in Hs. apply andb_true_iff in Hs as [Hc' Hs].
      unfold isHexChar in Hc'. destruct (digitVal c'); [| discriminate]. now apply IH. }
  apply Hgen.
Qed.

Lemma hexDigitsOf_hex (k : nat) (x : Z) : forallb isHexChar (hexDigitsOf k x) = true.
Proof. apply forallb_lower_hex, hexDigitsOf_lower. Qed.

Lemma hexValue_hexDigitsOf (k : nat) :
  forall x, 0 <= x -> hexValue (hexDigitsOf k x) = x mod 16 ^ Z.of_nat k.
Proof.
  induction k as [| k IH]; intros x Hx.
  - cbn. now rewrite Z.mod_1_r.
  - cbn [hexDigitsOf].
    rewrite (hexValue_snoc _ _ (x mod 16)).
    + rewrite IH by (apply Z.div_pos; lia).
      rewrite Nat2Z.inj_succ, Z.pow_succ_r by lia.
      assert (Hp : 0 < 16 ^ Z.of_nat k) by (apply Z.pow_pos_nonneg; lia).
      rewrite Z.rem_mul_r by lia. lia.
    + apply hexDigitsOf_hex.
    + apply digitVal_hexDigit, Z.mod_pos_bound. lia.
Qed.

Lemma targetOf_range (bits : Z) : 0 <= targetOf bits < 2 ^ 256.
Proof.
  unfold targetOf.
  pose proof (decodedCoefficient_range bits) as Hc.
  pose proof (exponentOf_range bits) as He.
  change (2 ^ 23) with 8388608 in Hc.
  destruct (Z.leb_spec (exponentOf bits) 3) as [He3 | He3].
  - assert (Hp : 0 < 256 ^ (3 - exponentOf bits)) by (apply Z.pow_pos_nonneg; lia).
    split; [apply Z.div_pos; lia |].
    apply Z.le_lt_trans with (decodedCoefficient bits); [| change (2 ^ 256) with
      115792089237316195423570985008687907853269984665640564039457584007913129639936; lia].
    apply Z.div_le_upper_bound; nia.
  - destruct (Z.ltb_spec 32 (exponentOf bits)) as [Hov | Hin]; [split; [discriminate | reflexivity] |].
    assert (Hp : 0 < 256 ^ (exponentOf bits - 3)) by (apply Z.pow_pos_nonneg; lia).
    split; [nia |].
    assert (Hle : 256 ^ (exponentOf bits - 3) <= 256 ^ 29) by (apply Z.pow_le_mono_r; lia).
    apply Z.lt_le_trans with (8388608 * 256 ^ 29); [nia | vm_compute; discriminate].
Qed.

Lemma bitsToTarget_digits (bits : Z) : bitsToTarget bits = hexDigitsOf 64 (targetOf bits).
Proof.
  rewrite bitsToTarget_shape. unfold targetOf.
  pose proof (decodedCoefficient_range bits) as Hc.
  pose proof (exponentOf_range bits) as He.
  set (e := exponentOf bits) in *. set (c := decodedCoefficient bits) in *.
  destruct (Z.leb_spec e 3) as [He3 | He3].
  - f_equal. unfold sar. change (2 ^ 23) with 8388608 in Hc.
    rewrite toInt32_id by lia.
    assert (Hcases : e = 0 \/ e = 1 \/ e = 2 \/ e = 3) by lia.
    destruct Hcases as [-> | [-> | [-> | ->]]];
      match goal with
      | |- Z.shiftr _ ?n = _ => let n' := eval vm_compute in n in change n with n'
      end; rewrite Z.shiftr_div_pow2 by lia; reflexivity.
  - destruct (Z.ltb_spec 32 e) as [Hov | Hin]; [vm_compute; reflexivity |].
    replace (Z.to_nat (2 * (e - 3))) with (2 * Z.to_nat (e - 3))%nat by lia.
    rewrite hexDigitsOf_app_zeros.
    rewrite zeros_app_hexDigitsOf.
    + f_equal; [lia |].
      rewrite Nat2Z.inj_mul, Z.pow_mul_r by lia. change (16 ^ Z.of_nat 2) with 256.
      f_equal. f_equal. lia.
    + assert (Hp : 0 < 16 ^ Z.of_nat (2 * Z.to_nat (e - 3))) by (apply Z.pow_pos_nonneg; lia).
      split; [nia |].
      rewrite Nat2Z.inj_add, Z.pow_add_r by lia. change (16 ^ Z.of_nat 6) with 16777216.
      change (2 ^ 23) with 8388608 in Hc. nia.
Qed.

(** X13. [bitsToTarget] renders, on 64 digits, the number that the code's
    header comment promises: coefficient * 256^(exponent - 3) for exponents
    4..32 (the coefficient taken as 0 when the sign bit is set), the
    coefficient shifted right by whole bytes for exponents up to 3, and
    2^256 - 1 above 32; parsing the string gives that number back. *)
Theorem bitsToTarget_numeric (bits : Z) :
  bitsToTarget bits = hexDigitsOf 64 (targetOf bits) /\
  bigIntOfHex (bitsToTarget bits) = Normal (targetOf bits) /\
  0 <= targetOf bits < 2 ^ 256.
Proof.
  pose proof (targetOf_range bits) as Hr.
  split; [apply bitsToTarget_digits |]. split; [| exact Hr].
  rewrite bitsToTarget_parses, bitsToTarget_digits. f_equal.
  rewrite hexValue_hexDigitsOf by lia.
  apply Z.mod_small. change (16 ^ Z.of_nat 64) with (2 ^ 256). exact Hr.
Qed.

Lemma pow16_pow2 (k : Z) : 0 <= k -> 16 ^ k = 2 ^ (4 * k).
Proof. intros Hk. rewrite Z.pow_mul_r by lia. reflexivity. Qed.

Lemma pow256_pow16 (k : Z) : 0 <= k -> 256 ^ k = 16 ^ (2 * k).
Proof. intros Hk. rewrite Z.pow_mul_r by lia. reflexivity. Qed.

Lemma hexLen_unique (k : nat) (V : Z) :
  16 ^ Z.of_nat k <= V < 16 ^ Z.of_nat (S k) -> hexLen V = S k.
Proof.
  intros [Hlo Hhi].
  assert (Hp : 0 < 16 ^ Z.of_nat k) by (apply Z.pow_pos_nonneg; lia).
  unfold hexLen. destruct (Z.eqb_spec V 0) as [-> | Hnz]; [lia |].
  assert (Hpos : 0 < V) by lia.
  rewrite pow16_pow2 in Hlo, Hhi by lia.
  apply Z.log2_le_pow2 in Hlo; [| lia].
  apply Z.log2_lt_pow2 in Hhi; [| lia].
  zify. Z.div_mod_to_equations. lia.
Qed.

Lemma strip_hexDigitsOf (k : nat) :
  forall V, 0 <= V < 16 ^ Z.of_nat k ->
    stripLeadingZeros (hexDigitsOf k V) = hexDigitsOf (hexLen V) V.
Proof.
  induction k as [| k IH]; intros V HV.
  - change (16 ^ Z.of_nat 0) with 1 in HV. now replace V with 0 by lia.
  - rewrite hexDigitsOf_cons. cbn [stripLeadingZeros].
    assert (Hp : 0 < 16 ^ Z.of_nat k) by (apply Z.pow_pos_nonneg; lia).
    assert (Hd : 0 <= V / 16 ^ Z.of_nat k < 16).
    { split; [apply Z.div_pos; lia |].
      apply Z.div_lt_upper_bound; [lia |].
      rewrite Nat2Z.inj_succ, Z.pow_succ_r in HV by lia. lia. }
    rewrite (Z.mod_small _ 16) by exact Hd.
    rewrite hexDigit_is_zero by exact Hd.
    destruct (Z.eqb_spec (V / 16 ^ Z.of_nat k) 0) as [Hz | Hnz].
    + apply IH. split; [lia |].
      apply Z.div_small_iff in Hz; lia.
    + rewrite (hexLen_unique k V).
      * rewrite hexDigitsOf_cons. now rewrite (Z.mod_small _ 16) by exact Hd.
      * split; [| lia].
        destruct (Z.le_gt_cases (16 ^ Z.of_nat k) V) as [Hle | Hlt]; [exact Hle |].
        exfalso. apply Hnz, Z.div_small. lia.
Qed.

Lemma parseInt16_six (v : Z) :
  0 <= v < 16 ^ 6 -> parseInt16 (hexDigitsOf 6 v) = Some v.
Proof.
  intros Hv. destruct (six_digits v Hv) as (d5 & d4 & d3 & d2 & d1 & d0 & Hall & Hval & Hd).
  rewrite Hd, parseInt16_hexDigits by exact Hall.
  unfold digitsValue. cbn [fold_left]. f_equal. lia.
Qed.

Lemma firstn_hexDigitsOf (k r : nat) :
  forall V, firstn k (hexDigitsOf (k + r) V) = hexDigitsOf k (V / 16 ^ Z.of_nat r).
Proof.
  induction r as [| r IH]; intros V.
  - rewrite Nat.add_0_r. change (16 ^ Z.of_nat 0) with 1. rewrite Z.div_1_r.
    apply firstn_all2. rewrite hexDigitsOf_length. lia.
  - rewrite Nat.add_succ_r. cbn [hexDigitsOf].
    rewrite firstn_app, hexDigitsOf_length.
    replace (k - (k + r))%nat with 0%nat by lia.
    rewrite firstn_O, app_nil_r, IH.
    rewrite Nat2Z.inj_succ, Z.pow_succ_r by lia.
    now rewrite Z.div_div by (try lia; apply Z.pow_pos_nonneg; lia).
Qed.

Lemma targetToBits_digits (k : nat) (V : Z) :
  (k <= 200)%nat -> 0 <= V < 16 ^ Z.of_nat k ->
  targetToBits (hexDigitsOf k V) = compactOf V.
Proof.
  intros Hk HV.
  destruct (Z.eqb_spec V 0) as [-> | Hnz].
  { rewrite hexDigitsOf_zero, targetToBits_zeros. reflexivity. }
  assert (Hpos : 0 < V) by lia.
  pose proof (Z.log2_nonneg V) as HL.
  pose proof (proj2 (Z.log2_lt_pow2 V (Z.log2 V + 1) Hpos) ltac:(lia)) as Hup.
  pose proof (proj2 (Z.log2_le_pow2 V (Z.log2 V) Hpos) ltac:(lia)) as Hlow.
  assert (HLk : Z.log2 V < 4 * Z.of_nat k).
  { apply Z.log2_lt_pow2; [lia |]. rewrite <- pow16_pow2 by lia. lia. }
  set (q := Z.log2 V / 8).
  set (n := S (Z.to_nat q)).
  assert (Hq : 0 <= q) by (apply Z.div_pos; lia).
  assert (Hbyte : byteLength V = Z.of_nat n).
  { unfold byteLength. destruct (Z.eqb_spec V 0); [lia |]. subst n q. lia. }
  assert (Hn100 : (n <= 100)%nat).
  { subst n q. zify. Z.div_mod_to_equations. lia. }
  assert (HVn : V < 16 ^ Z.of_nat (2 * n)).
  { rewrite pow16_pow2 by lia. eapply Z.lt_le_trans; [exact Hup |].
    apply Z.pow_le_mono_r; [lia |]. subst n q. zify. Z.div_mod_to_equations. lia. }
  set (v := if 3 <=? Z.of_nat n then V / 256 ^ (Z.of_nat n - 3) else V * 256 ^ (3 - Z.of_nat n)).
  assert (Hv : 0 <= v < 16 ^ 6).
  { subst v. destruct (Z.leb_spec 3 (Z.of_nat n)) as [H3 | H3].
    - assert (Hp : 0 < 256 ^ (Z.of_nat n - 3)) by (apply Z.pow_pos_nonneg; lia).
      split; [apply Z.div_pos; lia |].
      apply Z.div_lt_upper_bound; [lia |].
      rewrite pow256_pow16, <- Z.pow_add_r by lia.
      now replace (2 * (Z.of_nat n - 3) + 6) with (Z.of_nat (2 * n)) by lia.
    - assert (Hcase : n = 1%nat \/ n = 2%nat) by lia.
      destruct Hcase as [Hn | Hn]; rewrite Hn in HVn |- *; cbn in HVn |- *; lia. }
  assert (Hparse : parseInt16 (padEnd 6 "0"%char (slice0 6 (hexDigitsOf (2 * n) V))) = Some v).
  { unfold padEnd, slice0. subst v.
    destruct (Z.leb_spec 3 (Z.of_nat n)) as [H3 | H3].
    - replace (2 * n)%nat with (6 + (2 * n - 6))%nat by lia.
      rewrite firstn_hexDigitsOf, hexDigitsOf_length. cbn [Nat.sub repeat].
      rewrite app_nil_r.
      replace (16 ^ Z.of_nat (2 * n - 6)) with (256 ^ (Z.of_nat n - 3))
        by (rewrite pow256_pow16 by lia; f_equal; lia).
      apply parseInt16_six. exact Hv.
    - rewrite firstn_all2 by (rewrite hexDigitsOf_length; lia).
      rewrite hexDigitsOf_length, hexDigitsOf_app_zeros.
      replace (2 * n + (6 - 2 * n))%nat with 6%nat by lia.
      replace (16 ^ Z.of_nat (6 - 2 * n)) with (256 ^ (3 - Z.of_nat n))
        by (rewrite pow256_pow16 by lia; f_equal; lia).
      apply parseInt16_six. exact Hv. }
  unfold compactOf. rewrite Hbyte. fold v.
  apply (targetToBits_eval _ (hexDigitsOf (hexLen V) V) (hexDigitsOf (2 * n) V) n v).
  - apply strip_hexDigitsOf. exact HV.
  - unfold hexLen. destruct (Z.eqb_spec V 0); [lia |].
    intros Hnil. apply (f_equal (@length ascii)) in Hnil.
    rewrite hexDigitsOf_length in Hnil. cbn [length] in Hnil.
    zify. Z.div_mod_to_equations. lia.
  - rewrite hexDigitsOf_length. unfold hexLen. destruct (Z.eqb_spec V 0); [lia |].
    destruct (Z.ltb_spec (Z.log2 V mod 8) 4) as [Hodd | Heven].
    + assert (Hj : Z.to_nat (Z.log2 V / 4 + 1) = (1 + 2 * Z.to_nat q)%nat).
      { subst q. zify. Z.div_mod_to_equations. lia. }
      rewrite Hj, odd_length_mod. cbn [Nat.eqb negb].
      replace (2 * n)%nat with (S (1 + 2 * Z.to_nat q)) by lia.
      rewrite hexDigitsOf_cons.
      rewrite Z.div_small; [reflexivity |].
      split; [lia |]. rewrite pow16_pow2 by lia.
      eapply Z.lt_le_trans; [exact Hup |].
      apply Z.pow_le_mono_r; [lia |]. subst q. zify. Z.div_mod_to_equations. lia.
    + assert (Hj : Z.to_nat (Z.log2 V / 4 + 1) = (2 * n)%nat).
      { subst n q. zify. Z.div_mod_to_equations. lia. }
      rewrite Hj. rewrite (Nat.mul_comm 2 n), Nat.Div0.mod_mul. reflexivity.
  - apply hexDigitsOf_length.
  - exact Hn100.
  - exact Hparse.
  - change (2 ^ 24) with (16 ^ 6). exact Hv.
Qed.

Lemma compact_fields (n v : Z) :
  0 <= n <= 127 -> 0 <= v < 2 ^ 23 ->
  exponentOf (n * 2 ^ 24 + v) = n /\ decodedCoefficient (n * 2 ^ 24 + v) = v.
Proof.
  intros Hn Hv. change (2 ^ 23) with 8388608 in Hv. change (2 ^ 24) with 16777216.
  split.
  - rewrite exponentOf_uint32 by (change (2 ^ 32) with 4294967296; lia).
    change (2 ^ 24) with 16777216. Z.div_mod_to_equations. lia.
  - unfold decodedCoefficient.
    rewrite land_toInt32_mask by (change (2 ^ 31) with 2147483648; lia).
    assert (Hbit : Z.land (n * 16777216 + v) 8388608 = 0).
    { apply Z.bits_inj'. intros i Hi. rewrite Z.land_spec, Z.bits_0.
      change 8388608 with (2 ^ 23). rewrite Z.pow2_bits_eqb by lia.
      destruct (Z.eqb_spec 23 i) as [<- | Hne]; [| apply andb_false_r].
      rewrite andb_true_r.
      pose proof (Z.testbit_spec' (n * 16777216 + v) 23 ltac:(lia)) as Hspec.
      change (2 ^ 23) with 8388608 in Hspec.
      destruct (Z.testbit (n * 16777216 + v) 23); [| reflexivity].
      cbn [Z.b2z] in Hspec. exfalso. Z.div_mod_to_equations. lia. }
    rewrite Hbit. cbn [Z.eqb].
    change 8388607 with (Z.ones 23). rewrite and_ones by lia.
    change (2 ^ 23) with 8388608. Z.div_mod_to_equations. lia.
Qed.

Lemma targetOf_compact (n v : Z) :
  0 <= n <= 127 -> 0 <= v < 2 ^ 23 ->
  targetOf (n * 2 ^ 24 + v) =
    if n <=? 3 then v / 256 ^ (3 - n)
    else if 32 <? n then 2 ^ 256 - 1
    else v * 256 ^ (n - 3).
Proof.
  intros Hn Hv. unfold targetOf.
  destruct (compact_fields n v Hn Hv) as [-> ->]. reflexivity.
Qed.

Lemma byteLength_bounds (V : Z) :
  0 < V -> 1 <= byteLength V /\ 256 ^ (byteLength V - 1) <= V < 256 ^ byteLength V.
Proof.
  intros Hpos. unfold byteLength. destruct (Z.eqb_spec V 0); [lia |].
  pose proof (Z.log2_nonneg V) as HL.
  pose proof (proj2 (Z.log2_lt_pow2 V (Z.log2 V + 1) Hpos) ltac:(lia)) as Hup.
  pose proof (proj2 (Z.log2_le_pow2 V (Z.log2 V) Hpos) ltac:(lia)) as Hlow.
  assert (Hq : 0 <= Z.log2 V / 8) by (apply Z.div_pos; lia).
  split; [lia |].
  rewrite !pow256_pow16, !pow16_pow2 by lia.
  split.
  - eapply Z.le_trans; [| exact Hlow].
    apply Z.pow_le_mono_r; [lia |]. Z.div_mod_to_equations. lia.
  - eapply Z.lt_le_trans; [exact Hup |].
    apply Z.pow_le_mono_r; [lia |]. Z.div_mod_to_equations. lia.
Qed.

Lemma byteLength_unique (V n : Z) :
  1 <= n -> 256 ^ (n - 1) <= V < 256 ^ n -> byteLength V = n.
Proof.
  intros Hn [Hlo Hhi].
  assert (Hp : 0 < 256 ^ (n - 1)) by (apply Z.pow_pos_nonneg; lia).
  assert (Hpos : 0 < V) by lia.
  destruct (byteLength_bounds V Hpos) as (Hb & Hblo & Hbhi).
  destruct (Z.lt_trichotomy (byteLength V) n) as [Hlt | [Heq | Hgt]]; [| exact Heq |].
  - assert (256 ^ byteLength V <= 256 ^ (n - 1)) by (apply Z.pow_le_mono_r; lia). lia.
  - assert (256 ^ n <= 256 ^ (byteLength V - 1)) by (apply Z.pow_le_mono_r; lia). lia.
Qed.

(** The compact value of a number with at most three significant bytes
    above [s] zero bytes: one of the three alignments of the coefficient. *)
Lemma compactOf_scaled (c s : Z) :
  0 < c < 2 ^ 23 -> 0 <= s ->
  exists b, 1 <= b <= 3 /\ 0 <= c * 256 ^ (3 - b) < 2 ^ 23 /\
    compactOf (c * 256 ^ s) = (s + b) * 2 ^ 24 + c * 256 ^ (3 - b).
Proof.
  intros Hc Hs. change (2 ^ 23) with 8388608 in *.
  assert (HP : 0 < 256 ^ s) by (apply Z.pow_pos_nonneg; lia).
  assert (Hshape : forall b, 1 <= b <= 3 -> 256 ^ (b - 1) <= c < 256 ^ b ->
            byteLength (c * 256 ^ s) = s + b /\
            (if 3 <=? s + b then c * 256 ^ s / 256 ^ (s + b - 3)
             else c * 256 ^ s * 256 ^ (3 - (s + b))) = c * 256 ^ (3 - b)).
  { intros b Hb [Hlo Hhi]. split.
    - apply byteLength_unique; [lia |].
      replace (s + b - 1) with (b - 1 + s) by lia.
      replace (s + b) with (b + s) by lia.
      rewrite !Z.pow_add_r by lia. split; nia.
    - destruct (Z.leb_spec 3 (s + b)) as [H3 | H3].
      + replace (256 ^ s) with (256 ^ (3 - b) * 256 ^ (s + b - 3))
          by (rewrite <- Z.pow_add_r by lia; f_equal; lia).
        rewrite Z.mul_assoc, Z.div_mul; [reflexivity |].
        assert (0 < 256 ^ (s + b - 3)) by (apply Z.pow_pos_nonneg; lia). lia.
      + rewrite <- Z.mul_assoc, <- Z.pow_add_r by lia. f_equal. f_equal. lia. }
  unfold compactOf.
  destruct (Z.ltb_spec c 128) as [H1 | H1].
  { exists 1. destruct (Hshape 1 ltac:(lia) ltac:(cbn; lia)) as [-> ->].
    change (256 ^ (3 - 1)) with 65536.
    destruct (Z.ltb_spec (c * 65536) 8388608); [| lia]. repeat split; lia. }
  destruct (Z.ltb_spec c 256) as [H2 | H2].
  { exists 2. destruct (Hshape 1 ltac:(lia) ltac:(cbn; lia)) as [-> ->].
    change (256 ^ (3 - 1)) with 65536. change (256 ^ (3 - 2)) with 256.
    destruct (Z.ltb_spec (c * 65536) 8388608); [lia |].
    replace (c * 65536) with (c * 256 * 256) by lia. rewrite Z.div_mul by lia.
    repeat split; lia. }
  destruct (Z.ltb_spec c 32768) as [H3 | H3].
  { exists 2. destruct (Hshape 2 ltac:(lia) ltac:(cbn; lia)) as [-> ->].
    change (256 ^ (3 - 2)) with 256.
    destruct (Z.ltb_spec (c * 256) 8388608); [| lia]. repeat split; lia. }
  destruct (Z.ltb_spec c 65536) as [H4 | H4].
  { exists 3. destruct (Hshape 2 ltac:(lia) ltac:(cbn; lia)) as [-> ->].
    change (256 ^ (3 - 2)) with 256. change (256 ^ (3 - 3)) with 1.
    destruct (Z.ltb_spec (c * 256) 8388608); [lia |].
    rewrite Z.div_mul by lia. repeat split; lia. }
  exists 3. destruct (Hshape 3 ltac:(lia) ltac:(cbn; lia)) as [-> ->].
  change (256 ^ (3 - 3)) with 1. rewrite Z.mul_1_r.
  destruct (Z.ltb_spec c 8388608); [| lia]. repeat split; lia.
Qed.

Lemma targetOf_compactOf_scaled (c s : Z) :
  0 <= c < 2 ^ 23 -> 0 <= s <= 29 ->
  targetOf (compactOf (c * 256 ^ s)) = c * 256 ^ s.
Proof.
  intros Hc Hs.
  destruct (Z.eqb_spec c 0) as [-> | Hnz]; [reflexivity |].
  destruct (compactOf_scaled c s ltac:(lia) ltac:(lia)) as (b & Hb & Hv & ->).
  rewrite targetOf_compact by (try exact Hv; lia).
  destruct (Z.leb_spec (s + b) 3) as [H3 | H3].
  - replace (256 ^ (3 - b)) with (256 ^ s * 256 ^ (3 - (s + b)))
      by (rewrite <- Z.pow_add_r by lia; f_equal; lia).
    rewrite Z.mul_assoc, Z.div_mul; [reflexivity |].
    assert (0 < 256 ^ (3 - (s + b))) by (apply Z.pow_pos_nonneg; lia). lia.
  - destruct (Z.ltb_spec 32 (s + b)) as [Hov | _]; [lia |].
    rewrite <- Z.mul_assoc, <- Z.pow_add_r by lia. f_equal. f_equal. lia.
Qed.

Lemma targetOf_stable (bits : Z) : targetOf (compactOf (targetOf bits)) = targetOf bits.
Proof.
  unfold targetOf at 2 3.
  pose proof (decodedCoefficient_range bits) as Hc.
  pose proof (exponentOf_range bits) as He.
  destruct (Z.leb_spec (exponentOf bits) 3) as [He3 | He3].
  - assert (Hp : 0 < 256 ^ (3 - exponentOf bits)) by (apply Z.pow_pos_nonneg; lia).
    set (c := decodedCoefficient bits / 256 ^ (3 - exponentOf bits)).
    assert (Hc' : 0 <= c < 2 ^ 23).
    { subst c. split; [apply Z.div_pos; lia |].
      apply Z.le_lt_trans with (decodedCoefficient bits); [| lia].
      apply Z.div_le_upper_bound; nia. }
    pose proof (targetOf_compactOf_scaled c 0 Hc' ltac:(lia)) as Hs.
    change (256 ^ 0) with 1 in Hs. now rewrite Z.mul_1_r in Hs.
  - destruct (Z.ltb_spec 32 (exponentOf bits)) as [Hov | Hin]; [vm_compute; reflexivity |].
    apply targetOf_compactOf_scaled; lia.
Qed.

Lemma compact_sign_clear (n v : Z) :
  0 <= n <= 127 -> 0 <= v < 2 ^ 23 -> JS.band (n * 2 ^ 24 + v) 8388608 = 0.
Proof.
  intros Hn Hv.
  pose proof (proj2 (compact_fields n v Hn Hv)) as Hc. unfold decodedCoefficient in Hc.
  destruct (Z.eqb_spec (JS.band (n * 2 ^ 24 + v) 8388608) 0) as [Hz | Hnz]; [exact Hz |].
  exfalso. apply Hnz.
  change (2 ^ 23) with 8388608 in Hv. change (2 ^ 24) with 16777216 in *.
  rewrite land_toInt32_mask by (change (2 ^ 31) with 2147483648; lia).
  apply Z.bits_inj'. intros i Hi. rewrite Z.land_spec, Z.bits_0.
  change 8388608 with (2 ^ 23). rewrite Z.pow2_bits_eqb by lia.
  destruct (Z.eqb_spec 23 i) as [<- | Hne]; [| apply andb_false_r].
  rewrite andb_true_r.
  pose proof (Z.testbit_spec' (n * 16777216 + v) 23 ltac:(lia)) as Hspec.
  change (2 ^ 23) with 8388608 in Hspec.
  destruct (Z.testbit (n * 16777216 + v) 23); [| reflexivity].
  cbn [Z.b2z] in Hspec. exfalso. Z.div_mod_to_equations. lia.
Qed.

Lemma compactOf_fields (V : Z) :
  0 <= V ->
  exists n v,
    byteLength V <= n <= byteLength V + 1 /\ 0 <= v < 2 ^ 23 /\
    compactOf V = n * 2 ^ 24 + v.
Proof.
  intros HV. change (2 ^ 23) with 8388608.
  destruct (Z.eqb_spec V 0) as [-> | Hnz].
  { exists 1, 0. repeat split; try reflexivity; discriminate. }
  destruct (byteLength_bounds V ltac:(lia)) as (Hn1 & Hblo & Hbhi).
  unfold compactOf. set (n := byteLength V) in *.
  set (v := if 3 <=? n then V / 256 ^ (n - 3) else V * 256 ^ (3 - n)).
  assert (Hv : 0 <= v < 16777216).
  { subst v. destruct (Z.leb_spec 3 n) as [H3 | H3].
    - assert (HP : 0 < 256 ^ (n - 3)) by (apply Z.pow_pos_nonneg; lia).
      assert (Hupp : 256 ^ n = 16777216 * 256 ^ (n - 3)).
      { replace n with (3 + (n - 3)) at 1 by lia. now rewrite Z.pow_add_r by lia. }
      split; [apply Z.div_pos; lia | apply Z.div_lt_upper_bound; lia].
    - assert (Hcase : n = 1 \/ n = 2) by lia.
      destruct Hcase as [Hn | Hn]; rewrite Hn in Hbhi |- *; cbn in Hbhi |- *; lia. }
  destruct (Z.ltb_spec v 8388608) as [Hl | Hh].
  - exists n, v. repeat split; lia.
  - exists (n + 1), (v / 256). repeat split; try lia.
    + apply Z.div_pos; lia.
    + apply Z.div_lt_upper_bound; lia.
Qed.

(** X14. On the k-digit hexadecimal rendering of a number V (k up to 200
    digits, leading zeros allowed), [targetToBits] returns the compact value
    of V: exponent = number of bytes of V, coefficient = its top three
    bytes, or exponent + 1 and the top two bytes when the top byte is 0x80
    or more.  The result never has the sign bit set, and its exponent field
    is the byte count of V or one more. *)
Theorem targetToBits_numeric (k : nat) (V : Z) :
  (k <= 200)%nat -> 0 <= V < 16 ^ Z.of_nat k ->
  targetToBits (hexDigitsOf k V) = compactOf V /\
  JS.band (targetToBits (hexDigitsOf k V)) 8388608 = 0 /\
  byteLength V <= exponentOf (targetToBits (hexDigitsOf k V)) <= byteLength V + 1.
Proof.
  intros Hk HV. rewrite (targetToBits_digits k V Hk HV).
  split; [reflexivity |].
  destruct (compactOf_fields V ltac:(lia)) as (n & v & Hn & Hv & ->).
  assert (Hn127 : 0 <= n <= 127).
  { destruct (Z.eqb_spec V 0) as [-> | Hnz]; [change (byteLength 0) with 1 in Hn; lia |].
    destruct (byteLength_bounds V ltac:(lia)) as (Hn1 & Hblo & _).
    assert (byteLength V <= 100); [| lia].
    destruct (Z.le_gt_cases (byteLength V) 100) as [Hle | Hgt]; [exact Hle |].
    exfalso.
    assert (256 ^ 100 <= 256 ^ (byteLength V - 1)) by (apply Z.pow_le_mono_r; lia).
    assert (16 ^ Z.of_nat k <= 16 ^ 200) by (apply Z.pow_le_mono_r; lia).
    assert (Heq : 256 ^ 100 = 16 ^ 200) by reflexivity.
    lia. }
  split; [now apply compact_sign_clear |].
  now rewrite (proj1 (compact_fields n v Hn127 Hv)).
Qed.

Lemma targetToBits_numeric_witness :
  targetToBits (hexDigitsOf 64 (65535 * 2 ^ 208)) = compactOf (65535 * 2 ^ 208) /\
  compactOf (65535 * 2 ^ 208) = 486604799.
Proof.
  split; [| reflexivity].
  apply (targetToBits_numeric 64 (65535 * 2 ^ 208)); [lia |].
  split; [discriminate | reflexivity].
Defined.

(** X15. Decoding is stable under one more encode/decode cycle: for
    every compact value, re-encoding its decoded target and decoding again
    gives the same target. *)
Theorem bitsToTarget_targetToBits_bitsToTarget (bits : Z) :
  bitsToTarget (targetToBits (bitsToTarget bits)) = bitsToTarget bits.
Proof.
  pose proof (targetOf_range bits) as Hr.
  rewrite (bitsToTarget_digits bits).
  rewrite targetToBits_digits by (try lia; change (16 ^ Z.of_nat 64) with (2 ^ 256); exact Hr).
  rewrite bitsToTarget_digits. f_equal. apply targetOf_stable.
Qed.

Lemma compactOf_long (V : Z) :
  2 ^ 23 <= V < 2 ^ 256 ->
  exists n P v,
    3 <= n <= 32 /\ P = 256 ^ (n - 3) /\ 0 < P /\ v = V / P /\ 65536 <= v < 16777216 /\
    65536 * P <= V /\ (n = 32 -> P = 256 ^ 29) /\
    compactOf V = if v <? 8388608 then n * 2 ^ 24 + v else (n + 1) * 2 ^ 24 + v / 256.
Proof.
  intros [Hlo Hhi]. change (2 ^ 23) with 8388608 in Hlo.
  destruct (byteLength_bounds V ltac:(lia)) as (Hn1 & Hblo & Hbhi).
  set (n := byteLength V) in *.
  assert (Hn3 : 3 <= n).
  { destruct (Z.le_gt_cases 3 n) as [H | H]; [exact H |].
    assert (256 ^ n <= 256 ^ 2) by (apply Z.pow_le_mono_r; lia).
    change (256 ^ 2) with 65536 in *. lia. }
  assert (Hn32 : n <= 32).
  { destruct (Z.le_gt_cases n 32) as [H | H]; [exact H |].
    assert (256 ^ 32 <= 256 ^ (n - 1)) by (apply Z.pow_le_mono_r; lia).
    change (256 ^ 32) with (2 ^ 256) in *. lia. }
  assert (HP : 0 < 256 ^ (n - 3)) by (apply Z.pow_pos_nonneg; lia).
  assert (Hlow : 256 ^ (n - 1) = 65536 * 256 ^ (n - 3)).
  { replace (n - 1) with (2 + (n - 3)) by lia. now rewrite Z.pow_add_r by lia. }
  assert (Hupp : 256 ^ n = 16777216 * 256 ^ (n - 3)).
  { replace n with (3 + (n - 3)) at 1 by lia. now rewrite Z.pow_add_r by lia. }
  exists n, (256 ^ (n - 3)), (V / 256 ^ (n - 3)).
  repeat split; try lia.
  - apply Z.div_le_lower_bound; lia.
  - apply Z.div_lt_upper_bound; lia.
  - intros ->. reflexivity.
  - unfold compactOf. fold n. destruct (Z.leb_spec 3 n); [reflexivity | lia].
Qed.

Lemma compactOf_rounds_down (V : Z) :
  0 <= V < 2 ^ 255 ->
  targetOf (compactOf V) <= V /\ 256 * (V - targetOf (compactOf V)) <= V.
Proof.
  intros [Hlo Hhi].
  destruct (Z.lt_ge_cases V (2 ^ 23)) as [Hsmall | Hbig].
  { pose proof (targetOf_compactOf_scaled V 0 ltac:(lia) ltac:(lia)) as Hs.
    change (256 ^ 0) with 1 in Hs. rewrite Z.mul_1_r in Hs. rewrite Hs. lia. }
  assert (Hhi' : V < 2 ^ 256) by (eapply Z.lt_trans; [exact Hhi | reflexivity]).
  destruct (compactOf_long V ltac:(lia)) as (n & P & v & Hn & HPdef & HP & Hv & Hvr & HVP & H32 & ->).
  pose proof (Z.div_mod V P ltac:(lia)) as Hdm.
  pose proof (Z.mod_pos_bound V P HP) as Hr.
  rewrite <- Hv in Hdm.
  destruct (Z.ltb_spec v 8388608) as [Hl | Hh].
  - rewrite targetOf_compact by (change (2 ^ 23) with 8388608; lia).
    destruct (Z.leb_spec n 3) as [H3 | H3].
    + replace n with 3 in * by lia. change (256 ^ (3 - 3)) with 1 in *.
      subst P. rewrite Z.div_1_r in *. lia.
    + destruct (Z.ltb_spec 32 n); [lia |]. rewrite <- HPdef. nia.
  - assert (Hn31 : n <= 31).
    { destruct (Z.eq_dec n 32) as [Heq | Hne]; [| lia].
      exfalso. rewrite (H32 Heq) in *.
      assert (V / 256 ^ 29 < 8388608); [| lia].
      apply Z.div_lt_upper_bound; [lia |].
      change (256 ^ 29 * 8388608) with (2 ^ 255). exact Hhi. }
    pose proof (Z.div_mod v 256 ltac:(lia)) as Hdm2.
    pose proof (Z.mod_pos_bound v 256 ltac:(lia)) as Hr2.
    assert (Hw : 0 <= v / 256 < 2 ^ 23).
    { change (2 ^ 23) with 8388608.
      split; [apply Z.div_pos; lia | apply Z.div_lt_upper_bound; lia]. }
    rewrite targetOf_compact by (try exact Hw; lia).
    destruct (Z.leb_spec (n + 1) 3); [lia |].
    destruct (Z.ltb_spec 32 (n + 1)); [lia |].
    replace (n + 1 - 3) with (1 + (n - 3)) by lia.
    rewrite Z.pow_add_r, <- HPdef by lia. change (256 ^ 1) with 256. nia.
Qed.

Lemma compactOf_top_bit (V : Z) :
  2 ^ 255 <= V < 2 ^ 256 -> targetOf (compactOf V) = 2 ^ 256 - 1.
Proof.
  intros [Hlo Hhi].
  assert (Hn : byteLength V = 32).
  { apply byteLength_unique; [lia |]. change (256 ^ 32) with (2 ^ 256).
    split; [| exact Hhi]. eapply Z.le_trans; [| exact Hlo]. vm_compute. discriminate. }
  unfold compactOf. rewrite Hn. change (3 <=? 32) with true. cbv iota zeta.
  assert (Hv : 8388608 <= V / 256 ^ (32 - 3) < 16777216).
  { assert (HP : 0 < 256 ^ (32 - 3)) by reflexivity.
    split; [apply Z.div_le_lower_bound | apply Z.div_lt_upper_bound]; try exact HP.
    - change (256 ^ (32 - 3) * 8388608) with (2 ^ 255). exact Hlo.
    - change (256 ^ (32 - 3) * 16777216) with (2 ^ 256). exact Hhi. }
  destruct (Z.ltb_spec (V / 256 ^ (32 - 3)) 8388608); [lia |].
  rewrite targetOf_compact; [reflexivity | lia |].
  change (2 ^ 23) with 8388608.
  split; [apply Z.div_pos; lia | apply Z.div_lt_upper_bound; lia].
Qed.

(** X16. Re-encoding a 64-digit target of value V and decoding it again
    never loosens a target below 2^255: the result is at most V and loses
    less than 1/256 of it, the compact form keeping only the top bytes.
    A target of 2^255 or more comes back as the all-ones target. *)
Theorem targetToBits_rounds_down (V : Z) :
  0 <= V < 2 ^ 256 ->
  bitsToTarget (targetToBits (hexDigitsOf 64 V)) = hexDigitsOf 64 (targetOf (compactOf V)) /\
  (V < 2 ^ 255 ->
   targetOf (compactOf V) <= V /\ 256 * (V - targetOf (compactOf V)) <= V) /\
  (2 ^ 255 <= V -> bitsToTarget (targetToBits (hexDigitsOf 64 V)) = repeat "f"%char 64).
Proof.
  intros HV.
  assert (Heq : bitsToTarget (targetToBits (hexDigitsOf 64 V)) =
                hexDigitsOf 64 (targetOf (compactOf V))).
  { rewrite targetToBits_digits by (try lia; change (16 ^ Z.of_nat 64) with (2 ^ 256); exact HV).
    apply bitsToTarget_digits. }
  split; [exact Heq |]. split.
  - intros Hlt. apply compactOf_rounds_down. lia.
  - intros Hge. rewrite Heq, compactOf_top_bit by lia. vm_compute. reflexivity.
Qed.

Lemma targetToBits_rounds_down_witness :
  bitsToTarget (targetToBits (hexDigitsOf 64 (2 ^ 224 - 1))) =
    hexDigitsOf 64 (targetOf (compactOf (2 ^ 224 - 1))) /\
  targetOf (compactOf (2 ^ 224 - 1)) = 65535 * 2 ^ 208.
Proof.
  split; [| reflexivity].
  apply (targetToBits_rounds_down (2 ^ 224 - 1)).
  split; [discriminate | reflexivity].
Defined.

(** ** Block header layout *)

Lemma serializeBlockHeader_layout (h : BlockHeader) :
  serializeBlockHeader h =
    le32 (version h) ++ hashField (previousBlockHash h) ++ hashField (merkleRoot h) ++
    le32 (timestamp h) ++ le32 (bits h) ++ le32 (nonce h).
Proof.
  unfold hashField.
  rewrite <- (padded_bytes 32 _ 32 (le_n _) (hexToBytes_bytes (previousBlockHash h))).
  rewrite <- (padded_bytes 32 _ 32 (le_n _) (hexToBytes_bytes (merkleRoot h))).
  unfold serializeBlockHeader, le32.
  generalize (hexToBytes (previousBlockHash h)) as p.
  generalize (hexToBytes (merkleRoot h)) as m.
  generalize (version h) as v, (timestamp h) as t, (bits h) as b, (nonce h) as n.
  intros n b t v m p.
  cbv - [toUint8 toUint32 getIdx default Z.modulo Z.div].
  reflexivity.
Qed.

Lemma le32_inj (a b : Z) : le32 a = le32 b <-> toUint32 a = toUint32 b.
Proof.
  split; [| intros H; unfold le32; now rewrite H].
  unfold le32.
  assert (Ha : 0 <= toUint32 a < 4294967296) by (apply Z.mod_pos_bound; reflexivity).
  assert (Hb : 0 <= toUint32 b < 4294967296) by (apply Z.mod_pos_bound; reflexivity).
  generalize dependent (toUint32 b). generalize dependent (toUint32 a).
  intros x Hx y Hy Heq. injection Heq as H0 H1 H2 H3.
  Z.div_mod_to_equations. lia.
Qed.

Lemma hashField_length (hex : list ascii) : length (hashField hex) = 32%nat.
Proof.
  unfold hashField. rewrite length_take, length_app, repeat_length. lia.
Qed.

Lemma serializeBlockHeader_eq_iff (h1 h2 : BlockHeader) :
  serializeBlockHeader h1 = serializeBlockHeader h2 <->
  toUint32 (version h1) = toUint32 (version h2) /\
  hashField (previousBlockHash h1) = hashField (previousBlockHash h2) /\
  hashField (merkleRoot h1) = hashField (merkleRoot h2) /\
  toUint32 (timestamp h1) = toUint32 (timestamp h2) /\
  toUint32 (bits h1) = toUint32 (bits h2) /\
  toUint32 (nonce h1) = toUint32 (nonce h2).
Proof.
  rewrite !serializeBlockHeader_layout. split.
  - intros H.
    apply app_inj_1 in H as [Hv H]; [| reflexivity].
    apply app_inj_1 in H as [Hp H]; [| now rewrite !hashField_length].
    apply app_inj_1 in H as [Hm H]; [| now rewrite !hashField_length].
    apply app_inj_1 in H as [Ht H]; [| reflexivity].
    apply app_inj_1 in H as [Hb Hn]; [| reflexivity].
    rewrite le32_inj in Hv, Ht, Hb, Hn. repeat split; assumption.
  - intros (Hv & Hp & Hm & Ht & Hb & Hn).
    rewrite <- le32_inj in Hv, Ht, Hb, Hn. now rewrite Hv, Hp, Hm, Ht, Hb, Hn.
Qed.

(** X17. The serialisation is the concatenation version, previous hash,
    Merkle root, timestamp, bits, nonce, the integers as four little-endian
    bytes; two headers serialise to the same 80 bytes exactly when their
    integer fields agree modulo 2^32 and their hash strings give the same
    32 kept bytes.  In particular nonces n and n + 2^32 give the same bytes
    and nonces that differ modulo 2^32 never do. *)
Theorem serializeBlockHeader_injective (h1 h2 : BlockHeader) :
  (serializeBlockHeader h1 =
     le32 (version h1) ++ hashField (previousBlockHash h1) ++ hashField (merkleRoot h1) ++
     le32 (timestamp h1) ++ le32 (bits h1) ++ le32 (nonce h1)) /\
  (serializeBlockHeader h1 = serializeBlockHeader h2 <->
   version h1 mod 2 ^ 32 = version h2 mod 2 ^ 32 /\
   hashField (previousBlockHash h1) = hashField (previousBlockHash h2) /\
   hashField (merkleRoot h1) = hashField (merkleRoot h2) /\
   timestamp h1 mod 2 ^ 32 = timestamp h2 mod 2 ^ 32 /\
   bits h1 mod 2 ^ 32 = bits h2 mod 2 ^ 32 /\
   nonce h1 mod 2 ^ 32 = nonce h2 mod 2 ^ 32) /\
  (forall n1 n2,
     serializeBlockHeader (setNonce h1 n1) = serializeBlockHeader (setNonce h1 n2) <->
     n1 mod 2 ^ 32 = n2 mod 2 ^ 32).
Proof.
  split; [apply serializeBlockHeader_layout |].
  split; [apply serializeBlockHeader_eq_iff |].
  intros n1 n2. rewrite serializeBlockHeader_eq_iff. cbn [setNonce version previousBlockHash
    merkleRoot timestamp bits nonce]. unfold toUint32. tauto.
Qed.

(** ** Highlighting *)





Lemma highlightTarget_loop_significant (target : list ascii) :
  forall html,
    highlightTarget_loop target false html = html ++ spans (str "significant") target.
Proof.
  induction target as [| c target IH]; intros html; cbn [highlightTarget_loop andb].
  - now rewrite app_nil_r.
  - rewrite IH. unfold spans. cbn [flat_map]. now rewrite <- app_assoc.
Qed.

Lemma highlightTarget_loop_zeros (target : list ascii) :
  forall html,
    exists k,
      target = repeat "0"%char k ++ stripLeadingZeros target /\
      highlightTarget_loop target true html =
        html ++ spans (str "zero") (repeat "0"%char k) ++
        spans (str "significant") (stripLeadingZeros target).
Proof.
  induction target as [| c target IH]; intros html.
  - exists 0%nat. cbn. now rewrite app_nil_r.
  - cbn [highlightTarget_loop stripLeadingZeros andb].
    destruct (Ascii.eqb_spec c "0"%char) as [-> | Hne].
    + destruct (IH (html ++ span (str "zero") ["0"%char])) as (k & Hk & Heq).
      exists (S k). rewrite Heq. cbn [repeat app spans flat_map].
      split; [now rewrite <- Hk | now rewrite <- !app_assoc].
    + exists 0%nat. rewrite highlightTarget_loop_significant. cbn [repeat app spans flat_map].
      split; [reflexivity | now rewrite <- app_assoc].
Qed.

(** X19. [highlightTarget] marks exactly the leading zero characters that
    [targetToBits] strips as zero and every character from the first
    non-zero one on as significant. *)
Theorem highlightTarget_shape (target : list ascii) :
  exists k,
    target = repeat "0"%char k ++ stripLeadingZeros target /\
    highlightTarget target =
      spans (str "zero") (repeat "0"%char k) ++
      spans (str "significant") (stripLeadingZeros target).
Proof. apply (highlightTarget_loop_zeros target []). Qed.

(** ** Difficulty to compact bits, positive difficulties *)

Lemma hexDigitsOf_parses (V : Z) :
  0 <= V < 2 ^ 256 -> bigIntOfHex (hexDigitsOf 64 V) = Normal V.
Proof.
  intros HV. rewrite bigIntOfHex_hex.
  - rewrite hexValue_hexDigitsOf by lia. f_equal. apply Z.mod_small.
    change (16 ^ Z.of_nat 64) with (2 ^ 256). exact HV.
  - apply hexDigitsOf_hex.
  - intros Hnil. apply (f_equal (@length ascii)) in Hnil.
    rewrite hexDigitsOf_length in Hnil. discriminate.
Qed.

Lemma difficultyToBits_rest_positive (s : Z) :
  0 < s ->
  difficultyToBits_rest (bitsToTarget MAX_TARGET_BITS) maxTargetValue s =
    Normal (compactOf (Z.min (maxTargetValue * 1000000 / s) maxTargetValue)).
Proof.
  intros Hs. unfold difficultyToBits_rest, bigIntDiv.
  destruct (Z.eqb_spec s 0) as [| _]; [lia |]. cbn [bind].
  assert (HM : 0 < maxTargetValue * 1000000 < 2 ^ 256) by (split; reflexivity).
  assert (Hmax : 0 < maxTargetValue < 2 ^ 256) by (split; reflexivity).
  rewrite Z.quot_div_nonneg by lia.
  set (M := maxTargetValue * 1000000) in *.
  assert (Ht : 0 <= M / s < 2 ^ 256).
  { split; [apply Z.div_pos; lia |].
    apply Z.le_lt_trans with M; [| lia].
    apply Z.div_le_upper_bound; nia. }
  rewrite padStart_toString16 by (try lia; change (16 ^ Z.of_nat 64) with (2 ^ 256); exact Ht).
  rewrite hexDigitsOf_parses by exact Ht. cbn [bind]. f_equal.
  destruct (Z.gtb_spec (M / s) maxTargetValue) as [Hgt | Hle].
  - rewrite Z.min_r by lia. rewrite bitsToTarget_digits.
    change (targetOf MAX_TARGET_BITS) with maxTargetValue.
    apply targetToBits_digits; [lia |]. change (16 ^ Z.of_nat 64) with (2 ^ 256). lia.
  - rewrite Z.min_l by lia.
    apply targetToBits_digits; [lia |]. change (16 ^ Z.of_nat 64) with (2 ^ 256). exact Ht.
Qed.

(** X20. For a difficulty whose scaled floor s = floor(difficulty * 10^6)
    is positive, [difficultyToBits] returns the compact value of
    min(maxTarget * 10^6 / s, maxTarget); the target it stands for never
    exceeds the difficulty-1 target, and every difficulty up to 1 gives
    exactly 0x1d00ffff. *)
Theorem difficultyToBits_positive (d : float) (s : Z) :
  bigIntOfFloor (d * 1000000)%float = Normal s -> 0 < s ->
  difficultyToBits d =
    Normal (compactOf (Z.min (maxTargetValue * 1000000 / s) maxTargetValue)) /\
  targetOf (compactOf (Z.min (maxTargetValue * 1000000 / s) maxTargetValue)) <= maxTargetValue /\
  (s <= 1000000 -> difficultyToBits d = Normal MAX_TARGET_BITS).
Proof.
  intros Hfloor Hs.
  assert (Hrun : difficultyToBits d =
                 Normal (compactOf (Z.min (maxTargetValue * 1000000 / s) maxTargetValue))).
  { unfold difficultyToBits. rewrite maxTarget_parses. cbn [bind]. rewrite Hfloor. cbn [bind].
    now apply difficultyToBits_rest_positive. }
  assert (Hmax : 0 < maxTargetValue < 2 ^ 255) by (split; reflexivity).
  assert (Hq : 0 <= maxTargetValue * 1000000 / s) by (apply Z.div_pos; lia).
  split; [exact Hrun |]. split.
  - eapply Z.le_trans; [apply compactOf_rounds_down; lia | lia].
  - intros Hle. rewrite Hrun. rewrite Z.min_r; [reflexivity |].
    apply Z.div_le_lower_bound; nia.
Qed.

Lemma difficultyToBits_positive_witness :
  difficultyToBits 256%float =
    Normal (compactOf (Z.min (maxTargetValue * 1000000 / 256000000) maxTargetValue)) /\
  compactOf (Z.min (maxTargetValue * 1000000 / 256000000) maxTargetValue) = 469827583.
Proof.
  split; [| reflexivity].
  apply (difficultyToBits_positive 256%float 256000000); [reflexivity | lia].
Defined.

(** ** Difficulty from compact bits *)

Lemma bitsToDifficulty_eval (bits : Z) :
  bitsToDifficulty bits =
    Normal (if targetOf bits =? 0 then infinity
            else (numberOfBigInt (maxTargetValue * 1000000 / targetOf bits) / 1000000)%float).
Proof.
  pose proof (targetOf_range bits) as Hr.
  unfold bitsToDifficulty.
  rewrite (bitsToTarget_digits bits), hexDigitsOf_parses by exact Hr.
  rewrite maxTarget_parses. cbn [bind].
  destruct (Z.eqb_spec (targetOf bits) 0) as [Hz | Hnz]; [reflexivity |].
  unfold bigIntDiv. destruct (Z.eqb_spec (targetOf bits) 0) as [| _]; [contradiction |].
  cbn [bind]. rewrite Z.quot_div_nonneg; [reflexivity | | lia].
  assert (0 < maxTargetValue * 1000000) by reflexivity. lia.
Qed.

Lemma signed_bits_target (bits : Z) :
  JS.band bits 8388608 <> 0 -> exponentOf bits <= 32 -> targetOf bits = 0.
Proof.
  intros Hsign He32. unfold targetOf, decodedCoefficient.
  destruct (Z.eqb_spec (JS.band bits 8388608) 0) as [| _]; [contradiction |].
  pose proof (exponentOf_range bits) as He.
  destruct (Z.leb_spec (exponentOf bits) 3); [reflexivity |].
  destruct (Z.ltb_spec 32 (exponentOf bits)); [lia | reflexivity].
Qed.

(** X21. [bitsToDifficulty] never throws.  It returns Infinity when the
    decoded target is zero, which is the case for every compact value with
    the sign bit set and an exponent up to 32; otherwise it returns
    Number(maxTarget * 10^6 / target) / 10^6, which is 0 as soon as the
    target exceeds maxTarget * 10^6. *)
Theorem bitsToDifficulty_cases (bits : Z) :
  bitsToDifficulty bits =
    Normal (if targetOf bits =? 0 then infinity
            else (numberOfBigInt (maxTargetValue * 1000000 / targetOf bits) / 1000000)%float) /\
  (JS.band bits 8388608 <> 0 -> exponentOf bits <= 32 ->
   bitsToDifficulty bits = Normal infinity) /\
  (maxTargetValue * 1000000 < targetOf bits -> bitsToDifficulty bits = Normal 0%float).
Proof.
  split; [apply bitsToDifficulty_eval |]. split.
  - intros Hsign He. rewrite bitsToDifficulty_eval, signed_bits_target by assumption.
    reflexivity.
  - intros Hbig. rewrite bitsToDifficulty_eval.
    assert (0 < maxTargetValue * 1000000) by reflexivity.
    destruct (Z.eqb_spec (targetOf bits) 0) as [Hz | _]; [lia |].
    rewrite Z.div_small by lia. reflexivity.
Qed.

Lemma bitsToDifficulty_cases_witness :
  bitsToDifficulty 545259519 = Normal 0%float /\
  bitsToDifficulty 495976447 = Normal infinity.
Proof.
  split.
  - apply (proj2 (proj2 (bitsToDifficulty_cases 545259519))). reflexivity.
  - apply (proj1 (proj2 (bitsToDifficulty_cases 495976447))); [discriminate | discriminate].
Defined.

Lemma hexValue_zeros (k : nat) (s : list ascii) :
  forallb isHexChar s = true ->
  forallb isHexChar (repeat "0"%char k ++ s) = true /\
  hexValue (repeat "0"%char k ++ s) = hexValue s.
Proof.
  intros Hs. induction k as [| k [IHhex IHval]]; [now split |].
  cbn [repeat app forallb]. split; [exact IHhex |].
  rewrite (hexValue_cons "0"%char _ 0 eq_refl IHhex). lia.
Qed.

Lemma toString16_value (n : Z) :
  0 <= n ->
  forallb isHexChar (toString16 n) = true /\ toString16 n <> [] /\
  hexValue (toString16 n) = n.
Proof.
  intros Hn. unfold toString16.
  destruct (Z.ltb_spec n 0) as [| _]; [lia |].
  pose proof (fuel_covers n Hn) as Hfuel.
  set (f := S (Z.to_nat (Z.log2 n))) in *.
  destruct (toHexDigits_spec f n [] ltac:(subst f; lia) ltac:(lia)) as (j & Hj & Heq & Hall).
  destruct (Hall f ltac:(subst f; lia) Hfuel) as [Hjf Hrep].
  rewrite Heq, app_nil_r.
  split; [apply hexDigitsOf_hex |]. split.
  - intros Hnil. apply (f_equal (@length ascii)) in Hnil.
    rewrite hexDigitsOf_length in Hnil. cbn [length] in Hnil. lia.
  - pose proof (hexValue_hexDigitsOf f n Hn) as Hval.
    rewrite Hrep in Hval.
    destruct (hexValue_zeros (f - j) (hexDigitsOf j n) (hexDigitsOf_hex j n)) as [_ Hz].
    rewrite Hz in Hval. rewrite Hval. apply Z.mod_small. lia.
Qed.

Lemma parseInt16_0x (t : list ascii) :
  forallb isHexChar t = true -> t <> [] ->
  parseInt16 ("0"%char :: "x"%char :: t) = Some (hexValue t).
Proof.
  intros Ht Hne. unfold parseInt16, hexValue.
  cbn [trimStart]. change (isWhiteSpace "0") with false. cbv iota.
  change (Ascii.eqb "0" "-") with false. change (Ascii.eqb "0" "+") with false. cbv iota.
  change (stripHexPrefix ("0"%char :: "x"%char :: t)) with t.
  pose proof (readDigits_hex_count t Ht 0 0) as Hcount.
  destruct (readDigits t 0 0) as [v k]. cbn [fst snd] in *. subst k.
  destruct t as [| c t']; [congruence | reflexivity].
Qed.

(** X22. [calculateDifficultyInfo] never throws and reports the decoded
    target.  For a non-negative bits value the text in [bitsHex] is read
    back by [parseInt(., 16)] as that value.  When the target is zero the
    record holds difficulty Infinity, expected hashes Infinity and
    probability 0; when the target exceeds maxTarget * 10^6 it holds
    difficulty 0, expected hashes 0 and probability Infinity. *)
Theorem calculateDifficultyInfo_fields (bits : Z) :
  exists info,
    calculateDifficultyInfo bits = Normal info /\
    infoBits info = bits /\ infoTarget info = bitsToTarget bits /\
    bitsToDifficulty bits = Normal (difficulty info) /\
    (0 <= bits -> parseInt16 (bitsHex info) = Some bits) /\
    (targetOf bits = 0 ->
     difficulty info = infinity /\ expectedHashes info = infinity /\
     probability info = 0%float) /\
    (maxTargetValue * 1000000 < targetOf bits ->
     difficulty info = 0%float /\ expectedHashes info = 0%float /\
     probability info = infinity).
Proof.
  unfold calculateDifficultyInfo. rewrite bitsToDifficulty_eval. cbn [bind].
  eexists. split; [reflexivity |].
  cbn [infoBits infoTarget bitsHex difficulty expectedHashes probability].
  split; [reflexivity |]. split; [reflexivity |]. split; [reflexivity |]. split; [| split].
  - intros Hb. destruct (toString16_value bits Hb) as (Hhex & Hne & Hval).
    unfold padStart.
    destruct (hexValue_zeros (8 - length (toString16 bits)) _ Hhex) as [Hhex' Hval'].
    change (str "0x" ++ ?t) with ("0"%char :: "x"%char :: t).
    rewrite parseInt16_0x.
    + now rewrite Hval', Hval.
    + exact Hhex'.
    + intros Hnil. apply app_eq_nil in Hnil as [_ Hnil]. contradiction.
  - intros Hz. rewrite Hz. cbn [Z.eqb]. repeat split; reflexivity.
  - intros Hbig. assert (0 < maxTargetValue * 1000000) by reflexivity.
    destruct (Z.eqb_spec (targetOf bits) 0) as [Hz | _]; [lia |].
    rewrite Z.div_small by lia. repeat split; reflexivity.
Qed.

Lemma calculateDifficultyInfo_fields_witness :
  exists info,
    calculateDifficultyInfo 545259519 = Normal info /\
    parseInt16 (bitsHex info) = Some 545259519 /\
    difficulty info = 0%float /\ expectedHashes info = 0%float /\
    probability info = infinity.
Proof.
  destruct (calculateDifficultyInfo_fields 545259519)
    as (info & Hrun & _ & _ & _ & Hparse & _ & Hbig).
  exists info. split; [exact Hrun |]. split; [apply Hparse; discriminate |].
  apply Hbig. reflexivity.
Defined.

(** ** Block header creation *)

Lemma merkleRoot_length (blockData : list ascii) :
  length (slice0 64 (padEnd 64 "0" blockData)) = 64%nat.
Proof.
  unfold slice0, padEnd. rewrite length_take, length_app, repeat_length. lia.
Qed.

Lemma merkleRoot_prefix (d1 d2 : list ascii) :
  take 64 d1 = take 64 d2 ->
  slice0 64 (padEnd 64 "0" d1) = slice0 64 (padEnd 64 "0" d2).
Proof.
  intros Heq. unfold slice0, padEnd.
  assert (Hlen : Nat.min 64 (length d1) = Nat.min 64 (length d2)).
  { rewrite <- !length_take. now rewrite Heq. }
  rewrite !take_app. rewrite Heq. f_equal.
  destruct (Nat.le_gt_cases 64 (length d1)) as [H1 | H1];
    destruct (Nat.le_gt_cases 64 (length d2)) as [H2 | H2]; try lia.
  - replace (64 - length d1)%nat with 0%nat by lia.
    replace (64 - length d2)%nat with 0%nat by lia. reflexivity.
  - replace (length d2) with (length d1) by lia. reflexivity.
Qed.

(** X23. The header that [createBlockHeader] builds has a Merkle root of
    exactly 64 characters (the block data cut after 64 characters, or
    extended with zeros), which the serialisation decodes without padding;
    it starts at nonce 0, and its serialisation depends on the block data
    only through their first 64 characters. *)
Theorem createBlockHeader_merkleRoot (blockData previousHash : list ascii) (bits seconds : Z) :
  let h := createBlockHeader blockData previousHash bits seconds in
  length (merkleRoot h) = 64%nat /\
  (length blockData = 64%nat -> merkleRoot h = blockData) /\
  take 32 (drop 36 (serializeBlockHeader h)) = hexToBytes (merkleRoot h) /\
  nonce h = 0 /\ previousBlockHash h <> [] /\
  (forall blockData',
     take 64 blockData = take 64 blockData' ->
     createBlockHeader blockData' previousHash bits seconds = h).
Proof.
  cbv zeta. unfold createBlockHeader. cbn [merkleRoot nonce previousBlockHash].
  pose proof (merkleRoot_length blockData) as Hlen.
  split; [exact Hlen |]. split; [| split; [| split; [| split]]].
  - intros H64. unfold slice0, padEnd. rewrite H64. cbn [Nat.sub repeat].
    rewrite app_nil_r. apply firstn_all2. lia.
  - rewrite serializeBlockHeader_layout. cbn [merkleRoot version previousBlockHash].
    match goal with
    | |- context [drop 36 ?l] => change (drop 36 l) with (drop 32 (drop 4 l))
    end.
    rewrite drop_app_length' by reflexivity.
    rewrite drop_app_length' by (rewrite hashField_length; reflexivity).
    rewrite take_app_length' by (rewrite hashField_length; reflexivity).
    unfold hashField. rewrite take_app_length'; [reflexivity |].
    rewrite hexToBytes_length, Hlen. reflexivity.
  - reflexivity.
  - destruct previousHash; discriminate.
  - intros d' Hpre. now rewrite (merkleRoot_prefix blockData d' Hpre).
Qed.

(** ** BlockMix on blocks *)

Lemma forLoop_ext {T : Type} (f g : Z -> T -> T) (n : nat) :
  forall (i0 : nat) (s : T),
    (forall i s, (i0 <= i < i0 + n)%nat -> f (Z.of_nat i) s = g (Z.of_nat i) s) ->
    forLoop n (Z.of_nat i0) f s = forLoop n (Z.of_nat i0) g s.
Proof.
  induction n as [| n IH]; intros i0 s Hfg; cbn [forLoop]; [reflexivity |].
  replace (Z.of_nat i0 + 1) with (Z.of_nat (S i0)) by lia.
  rewrite (Hfg i0 s) by lia. apply IH. intros i s' Hi. apply Hfg. lia.
Qed.

Lemma forLoop_invariant {T : Type} (P : nat -> T -> Prop) (body : Z -> T -> T) (n : nat) :
  forall (i0 : nat) (s : T),
    (forall i s, (i0 <= i < i0 + n)%nat -> P i s -> P (S i) (body (Z.of_nat i) s)) ->
    P i0 s -> P (i0 + n)%nat (forLoop n (Z.of_nat i0) body s).
Proof.
  induction n as [| n IH]; intros i0 s Hstep Hinit; cbn [forLoop].
  - now rewrite Nat.add_0_r.
  - replace (Z.of_nat i0 + 1) with (Z.of_nat (S i0)) by lia.
    replace (i0 + S n)%nat with (S i0 + n)%nat by lia.
    apply IH.
    + intros i s' Hi. apply Hstep. lia.
    + apply Hstep; [lia | exact Hinit].
Qed.

Lemma toUint32_word (w : Z) : 0 <= w < 4294967296 -> toUint32 w = w.
Proof. intros Hw. unfold toUint32. apply Z.mod_small. exact Hw. Qed.

Lemma toUint32_range (w : Z) : 0 <= toUint32 w < 4294967296.
Proof. unfold toUint32. apply Z.mod_pos_bound. reflexivity. Qed.

Lemma salsa20_8_words (X : list Z) :
  length X = 16%nat -> length (salsa20_8 X) = 16%nat /\ words32 (salsa20_8 X).
Proof.
  intros Hlen. unfold salsa20_8.
  set (x := forLoop 4 0 _ _). clearbody x.
  assert (Hl : length (forLoop 16 0 (fun i B => setU32 B i (shr (rd B i + rd x i) 0)) X) = 16%nat).
  { rewrite forLoop_length; [exact Hlen |]. intros i s. apply setU32_length. }
  split; [exact Hl |].
  apply Forall_lookup. intros j w Hw.
  assert (Hj : (j < 16)%nat) by (rewrite <- Hl; eapply lookup_lt_Some; exact Hw).
  pose proof (forLoop_update_lookup (fun k old => shr (old + rd x k) 0) 16 0 X j) as Hlk.
  change (Z.of_nat 0) with 0 in Hlk. cbv beta in Hlk. rewrite Hlk in Hw. clear Hlk.
  replace ((0 <=? j)%nat && (j <? 0 + 16)%nat) with true in Hw
    by (symmetry; apply andb_true_iff; split; [apply Nat.leb_le | apply Nat.ltb_lt]; lia).
  destruct (X !! j) as [old |]; [| discriminate].
  cbn [fmap list_fmap option_fmap option_map] in Hw. injection Hw as <-.
  apply toUint32_range.
Qed.

Lemma blockOf_lookup (B : list Z) (i j : nat) :
  (j < 16)%nat -> blockOf B i !! j = B !! (16 * i + j)%nat.
Proof. intros Hj. unfold blockOf. now rewrite lookup_take_lt, lookup_drop by lia. Qed.

Lemma blockOf_length (B : list Z) (i : nat) :
  (16 * i + 16 <= length B)%nat -> length (blockOf B i) = 16%nat.
Proof. intros Hi. unfold blockOf. rewrite length_take, length_drop. lia. Qed.

Lemma blockOf_words (B : list Z) (i : nat) : words32 B -> words32 (blockOf B i).
Proof.
  intros HB. unfold blockOf, words32. apply Forall_take, Forall_drop. exact HB.
Qed.

Lemma rd_word (a : list Z) (i : nat) :
  words32 a -> (i < length a)%nat -> a !! i = Some (toUint32 (rd a (Z.of_nat i))).
Proof.
  intros Ha Hi. destruct (lookup_lt_is_Some_2 a i Hi) as [w Hw].
  rewrite (rd_nat a i w Hw), Hw. f_equal. symmetry. apply toUint32_word.
  unfold words32 in Ha. rewrite Forall_lookup in Ha. exact (Ha i w Hw).
Qed.

Lemma copy_last_block (B : list Z) (r : nat) :
  (1 <= r)%nat -> length B = (32 * r)%nat -> words32 B ->
  forLoop 16 0 (fun i X => setU32 X i (rd B ((2 * Z.of_nat r - 1) * 16 + i))) (repeat 0 16)
  = blockOf B (2 * r - 1).
Proof.
  intros Hr Hlen HB. apply list_eq. intros j.
  pose proof (forLoop_update_lookup
                (fun k _ => rd B ((2 * Z.of_nat r - 1) * 16 + k)) 16 0 (repeat 0 16) j) as Hlk.
  change (Z.of_nat 0) with 0 in Hlk. cbv beta in Hlk. rewrite Hlk. clear Hlk.
  destruct (Nat.lt_ge_cases j 16) as [Hj | Hj].
  - replace ((0 <=? j)%nat && (j <? 0 + 16)%nat) with true
      by (symmetry; apply andb_true_iff; split; [apply Nat.leb_le | apply Nat.ltb_lt]; lia).
    destruct (lookup_lt_is_Some_2 (repeat 0 16) j ltac:(rewrite repeat_length; lia)) as [z Hz].
    rewrite Hz. cbn [fmap option_fmap option_map].
    rewrite blockOf_lookup by exact Hj.
    rewrite (rd_word B (16 * (2 * r - 1) + j) HB ltac:(lia)).
    do 3 f_equal. lia.
  - replace ((0 <=? j)%nat && (j <? 0 + 16)%nat) with false
      by (symmetry; apply andb_false_iff; right; apply Nat.ltb_ge; lia).
    rewrite (lookup_ge_None_2 (repeat 0 16)) by (rewrite repeat_length; lia).
    symmetry. apply lookup_ge_None_2. unfold blockOf. rewrite length_take. lia.
Qed.

Lemma xor_block_loop (B X : list Z) (i : nat) :
  length X = 16%nat -> (16 * i + 16 <= length B)%nat ->
  forLoop 16 0 (fun j X => setU32 X j (JS.bxor (rd X j) (rd B (Z.of_nat i * 16 + j)))) X
  = xorBlocks X (blockOf B i).
Proof.
  intros HX Hi.
  rewrite <- (xor_loop X (blockOf B i)) by (rewrite blockOf_length; lia).
  rewrite HX. apply (forLoop_ext _ _ 16 0%nat). intros j s Hj. do 2 f_equal.
  unfold rd. replace (Z.of_nat i * 16 + Z.of_nat j) with (Z.of_nat (16 * i + j)) by lia.
  rewrite !getIdx_nat. now rewrite blockOf_lookup by lia.
Qed.

Lemma take_S_insert (l : list Z) (n : nat) (x : Z) :
  (n < length l)%nat -> take (S n) (<[n := x]> l) = take n l ++ [x].
Proof.
  intros Hn. rewrite (take_S_r _ n x) by (apply list_lookup_insert_eq; exact Hn).
  now rewrite take_insert_ge by lia.
Qed.

Lemma take_S_word (X : list Z) (j : nat) :
  words32 X -> (j < length X)%nat ->
  take (S j) X = take j X ++ [toUint32 (rd X (Z.of_nat j))].
Proof. intros HX Hj. apply take_S_r. now apply rd_word. Qed.

Lemma write_block_loop (X Y : list Z) (i : nat) :
  length X = 16%nat -> words32 X -> (16 * i + 16 <= length Y)%nat ->
  length (forLoop 16 0 (fun j Y => setU32 Y (Z.of_nat i * 16 + j) (rd X j)) Y) = length Y /\
  take (16 * i + 16) (forLoop 16 0 (fun j Y => setU32 Y (Z.of_nat i * 16 + j) (rd X j)) Y)
  = take (16 * i) Y ++ X.
Proof.
  intros HX HwX HY.
  pose proof (forLoop_invariant
    (fun j Y' => length Y' = length Y /\ take (16 * i + j) Y' = take (16 * i) Y ++ take j X)
    (fun j Y => setU32 Y (Z.of_nat i * 16 + j) (rd X j)) 16 0%nat Y) as Hinv.
  cbv beta in Hinv. change (Z.of_nat 0) with 0 in Hinv.
  destruct Hinv as [Hlen Htake].
  - intros j Y' Hj [Hl Ht]. unfold setU32.
    destruct (Z.ltb_spec (Z.of_nat i * 16 + Z.of_nat j) 0) as [| _]; [lia |].
    replace (Z.to_nat (Z.of_nat i * 16 + Z.of_nat j)) with (16 * i + j)%nat by lia.
    rewrite length_insert. split; [exact Hl |].
    replace (16 * i + S j)%nat with (S (16 * i + j)) by lia.
    rewrite take_S_insert by lia. rewrite Ht, (take_S_word X j HwX) by lia.
    now rewrite <- app_assoc.
  - split; [reflexivity |]. rewrite Nat.add_0_r. cbn [take]. now rewrite app_nil_r.
  - split; [exact Hlen |]. cbn [Nat.add] in Htake. rewrite Htake.
    now rewrite (take_ge X) by lia.
Qed.

Lemma last_cons_default (x d : list Z) (l : list (list Z)) :
  List.last (x :: l) d = List.last l x.
Proof.
  revert x d. induction l as [| a l IH]; intros x d; [reflexivity |].
  change (List.last (x :: a :: l) d) with (List.last (a :: l) d).
  now rewrite (IH a d), (IH a x).
Qed.

Lemma mixChain_snoc (bs : list (list Z)) (b : list Z) :
  forall X,
    mixChain (bs ++ [b]) X =
      mixChain bs X ++ [salsa20_8 (xorBlocks (List.last (mixChain bs X) X) b)].
Proof.
  induction bs as [| c bs IH]; intros X; cbn [app mixChain]; [reflexivity |].
  rewrite IH. cbn [app]. do 3 f_equal. now rewrite last_cons_default.
Qed.

Lemma blocks_snoc (B : list Z) (i : nat) :
  map (blockOf B) (seq 0 (S i)) = map (blockOf B) (seq 0 i) ++ [blockOf B i].
Proof. now rewrite seq_S, map_app. Qed.

(** The main loop of [scryptBlockMix] leaves the chain in [Y]. *)
Lemma mix_loop (B X0 Y0 : list Z) (r : nat) :
  length B = (32 * r)%nat -> length X0 = 16%nat -> words32 X0 ->
  length Y0 = (32 * r)%nat ->
  snd (forLoop (Z.to_nat (2 * Z.of_nat r)) 0 (fun i '(X, Y) =>
      let X := forLoop 16 0 (fun j X => setU32 X j (JS.bxor (rd X j) (rd B (i * 16 + j)))) X in
      let X := salsa20_8 X in
      let Y := forLoop 16 0 (fun j Y => setU32 Y (i * 16 + j) (rd X j)) Y in
      (X, Y)) (X0, Y0))
  = concat (mixChain (map (blockOf B) (seq 0 (2 * r))) X0).
Proof.
  intros HB HX0 HwX0 HY0.
  set (body := fun (i : Z) '(X, Y) => _).
  pose proof (forLoop_invariant
    (fun i (s : list Z * list Z) =>
       length (fst s) = 16%nat /\ words32 (fst s) /\ length (snd s) = (32 * r)%nat /\
       fst s = List.last (mixChain (map (blockOf B) (seq 0 i)) X0) X0 /\
       take (16 * i) (snd s) = concat (mixChain (map (blockOf B) (seq 0 i)) X0))
    body (2 * r) 0%nat (X0, Y0)) as Hinv.
  cbv beta in Hinv. change (Z.of_nat 0) with 0 in Hinv.
  replace (Z.to_nat (2 * Z.of_nat r)) with (2 * r)%nat by lia.
  destruct Hinv as (_ & _ & Hlen & _ & Htake).
  - intros i [X Y] Hi (HX & HwX & HY & Hlast & Htake). cbn [fst snd] in *.
    unfold body.
    rewrite (xor_block_loop B X i HX) by lia.
    destruct (salsa20_8_words (xorBlocks X (blockOf B i))) as [HX' HwX'].
    { unfold xorBlocks. rewrite length_zip_with, HX, blockOf_length by lia. reflexivity. }
    destruct (write_block_loop (salsa20_8 (xorBlocks X (blockOf B i))) Y i HX' HwX')
      as [HY' Htake']; [lia |].
    cbn [fst snd]. rewrite blocks_snoc, mixChain_snoc, last_last, concat_app.
    cbn [concat]. rewrite app_nil_r, <- Hlast.
    repeat split; try assumption; try congruence.
    replace (16 * S i)%nat with (16 * i + 16)%nat by lia.
    now rewrite Htake', Htake.
  - cbn [fst snd]. repeat split; assumption.
  - cbn [Nat.add] in *. rewrite <- Htake. symmetry. apply take_ge. lia.
Qed.

Lemma mixChain_words (blocks : list (list Z)) :
  forall X,
    length X = 16%nat -> Forall (fun b => length b = 16%nat) blocks ->
    length (concat (mixChain blocks X)) = (16 * length blocks)%nat /\
    words32 (concat (mixChain blocks X)).
Proof.
  induction blocks as [| b bs IH]; intros X HX Hbs; cbn [mixChain concat length].
  - split; [reflexivity | constructor].
  - inversion Hbs as [| ? ? Hb Hbs']; subst.
    destruct (salsa20_8_words (xorBlocks X b)) as [HX' HwX'].
    { unfold xorBlocks. rewrite length_zip_with, HX, Hb. reflexivity. }
    destruct (IH _ HX' Hbs') as [Hlen Hw].
    split; [rewrite length_app, Hlen, HX'; lia |].
    unfold words32 in *. apply Forall_app. split; assumption.
Qed.

Lemma flat_map_snoc (f : nat -> list Z) (i : nat) :
  flat_map f (seq 0 (S i)) = flat_map f (seq 0 i) ++ f i.
Proof. rewrite seq_S, flat_map_app. cbn [flat_map Nat.add]. now rewrite app_nil_r. Qed.

(** The last loop of [scryptBlockMix]: even blocks of [Y], then odd ones. *)
Lemma shuffle_loop (B Y : list Z) (r : nat) :
  length B = (32 * r)%nat -> length Y = (32 * r)%nat -> words32 Y ->
  forLoop r 0 (fun i B =>
    forLoop 16 0 (fun j B =>
      let B := setU32 B (i * 16 + j) (rd Y (i * 2 * 16 + j)) in
      setU32 B ((Z.of_nat r + i) * 16 + j) (rd Y ((i * 2 + 1) * 16 + j))) B) B
  = flat_map (fun i => blockOf Y (2 * i)) (seq 0 r) ++
    flat_map (fun i => blockOf Y (2 * i + 1)) (seq 0 r).
Proof.
  intros HB HY HwY.
  set (E := fun i => blockOf Y (2 * i)). set (O := fun i => blockOf Y (2 * i + 1)).
  set (inner := fun (i : Z) (B : list Z) => forLoop 16 0 _ B).
  pose proof (forLoop_invariant
    (fun i B' =>
       length B' = (32 * r)%nat /\
       take (16 * i) B' = flat_map E (seq 0 i) /\
       take (16 * i) (drop (16 * r) B') = flat_map O (seq 0 i))
    inner r 0%nat B) as Hinv.
  cbv beta in Hinv. change (Z.of_nat 0) with 0 in Hinv.
  destruct Hinv as (Hlen & HE & HO).
  - intros i B' Hi (Hl & HtE & HtO). unfold inner.
    pose proof (forLoop_invariant
      (fun j B'' =>
         length B'' = (32 * r)%nat /\
         take (16 * i + j) B'' = flat_map E (seq 0 i) ++ take j (E i) /\
         take (16 * i + j) (drop (16 * r) B'') = flat_map O (seq 0 i) ++ take j (O i))
      (fun j B =>
         let B := setU32 B (Z.of_nat i * 16 + j) (rd Y (Z.of_nat i * 2 * 16 + j)) in
         setU32 B ((Z.of_nat r + Z.of_nat i) * 16 + j) (rd Y ((Z.of_nat i * 2 + 1) * 16 + j)))
      16 0%nat B') as Hin.
    cbv beta in Hin. change (Z.of_nat 0) with 0 in Hin.
    destruct Hin as (Hl' & HtE' & HtO').
    + intros j B'' Hj (Hl'' & HtE'' & HtO''). cbv zeta. unfold setU32.
      destruct (Z.ltb_spec (Z.of_nat i * 16 + Z.of_nat j) 0) as [| _]; [lia |].
      destruct (Z.ltb_spec ((Z.of_nat r + Z.of_nat i) * 16 + Z.of_nat j) 0) as [| _]; [lia |].
      replace (Z.to_nat (Z.of_nat i * 16 + Z.of_nat j)) with (16 * i + j)%nat by lia.
      replace (Z.to_nat ((Z.of_nat r + Z.of_nat i) * 16 + Z.of_nat j))
        with (16 * r + (16 * i + j))%nat by lia.
      replace (Z.of_nat i * 2 * 16 + Z.of_nat j) with (Z.of_nat (16 * (2 * i) + j)) by lia.
      replace ((Z.of_nat i * 2 + 1) * 16 + Z.of_nat j)
        with (Z.of_nat (16 * (2 * i + 1) + j)) by lia.
      rewrite !length_insert. split; [exact Hl'' |].
      replace (16 * i + S j)%nat with (S (16 * i + j)) by lia.
      assert (HEj : take (S j) (E i) = take j (E i) ++ [toUint32 (rd Y (Z.of_nat (16 * (2 * i) + j)))]).
      { apply take_S_r. unfold E. rewrite blockOf_lookup by lia. apply rd_word; [exact HwY | lia]. }
      assert (HOj : take (S j) (O i) = take j (O i) ++ [toUint32 (rd Y (Z.of_nat (16 * (2 * i + 1) + j)))]).
      { apply take_S_r. unfold O. rewrite blockOf_lookup by lia. apply rd_word; [exact HwY | lia]. }
      split.
      * rewrite take_insert_ge by lia. rewrite take_S_insert by lia.
        rewrite HtE'', HEj. now rewrite <- app_assoc.
      * rewrite drop_insert_ge by lia. rewrite drop_insert_lt by lia.
        replace (16 * r + (16 * i + j) - 16 * r)%nat with (16 * i + j)%nat by lia.
        rewrite take_S_insert by (rewrite length_drop; lia).
        rewrite HtO'', HOj. now rewrite <- app_assoc.
    + split; [exact Hl |]. rewrite Nat.add_0_r. cbn [take]. rewrite !app_nil_r. auto.
    + split; [exact Hl' |]. cbn [Nat.add] in HtE', HtO'.
      replace (16 * S i)%nat with (16 * i + 16)%nat by lia.
      rewrite !flat_map_snoc, HtE', HtO'.
      rewrite (take_ge (E i)), (take_ge (O i)); [auto | |];
        unfold E, O, blockOf; rewrite length_take; lia.
  - split; [exact HB |]. split; reflexivity.
  - cbn [Nat.add] in *. rewrite <- HE, <- HO.
    rewrite (take_ge (drop (16 * r) _)) by (rewrite length_drop; lia).
    symmetry. apply take_drop.
Qed.

Lemma scryptBlockMix_blockMixOf (B : list Z) (r : nat) :
  length B = (32 * r)%nat -> words32 B -> scryptBlockMix B r = blockMixOf B r.
Proof.
  intros HB HwB.
  destruct r as [| r'].
  { destruct B; [reflexivity | discriminate]. }
  set (r := S r') in *.
  unfold scryptBlockMix, blockMixOf. cbv zeta.
  rewrite (copy_last_block B r ltac:(lia) HB HwB).
  assert (HX0 : length (blockOf B (2 * r - 1)) = 16%nat) by (apply blockOf_length; lia).
  assert (HwX0 : words32 (blockOf B (2 * r - 1))) by (apply blockOf_words; exact HwB).
  pose proof (mix_loop B (blockOf B (2 * r - 1)) (repeat 0 (Z.to_nat (32 * Z.of_nat r))) r
                HB HX0 HwX0 ltac:(rewrite repeat_length; lia)) as Hmix.
  destruct (forLoop (Z.to_nat (2 * Z.of_nat r)) 0 _ _) as [Xf Yf]. cbn [snd] in Hmix.
  destruct (mixChain_words (map (blockOf B) (seq 0 (2 * r))) (blockOf B (2 * r - 1)) HX0)
    as [HlenY HwY].
  { apply List.Forall_forall. intros b Hb. apply in_map_iff in Hb as (i & <- & Hi).
    apply in_seq in Hi. apply blockOf_length. lia. }
  rewrite length_map, length_seq in HlenY.
  rewrite <- Hmix in HlenY, HwY |- *.
  rewrite Nat2Z.id.
  apply shuffle_loop; [exact HB | lia | exact HwY].
Qed.

(** ** ROMix over BlockMix in block form *)

Lemma blockMixOf_ok (B : list Z) (r : nat) : stateOk r B -> stateOk r (blockMixOf B r).
Proof.
  intros [HB HwB].
  assert (Hlen : length (blockMixOf B r) = (32 * r)%nat).
  { rewrite <- scryptBlockMix_blockMixOf by assumption. now rewrite scryptBlockMix_length. }
  split; [exact Hlen |].
  destruct r as [| r']; [destruct (blockMixOf B 0); [constructor | discriminate] |].
  set (r := S r') in *.
  unfold blockMixOf. cbv zeta.
  destruct (mixChain_words (map (blockOf B) (seq 0 (2 * r))) (blockOf B (2 * r - 1)))
    as [_ HwY].
  { apply blockOf_length. lia. }
  { apply List.Forall_forall. intros b Hb. apply in_map_iff in Hb as (i & <- & Hi).
    apply in_seq in Hi. apply blockOf_length. lia. }
  unfold words32. apply Forall_app.
  split; apply Forall_flat_map, List.Forall_forall; intros i _; now apply blockOf_words.
Qed.

(** X24. On a state of 2r blocks of sixteen 32-bit words,
    [scryptBlockMix] computes what its comments describe: starting from the
    last block, X := Salsa20/8 (X xor B_i) for each block in turn, the
    values Y_0 .. Y_(2r-1) kept, and the result is Y_0, Y_2, ..., Y_(2r-2)
    followed by Y_1, Y_3, ..., Y_(2r-1); it is again a state of 2r blocks
    of 32-bit words. *)
Theorem scryptBlockMix_blocks (B : list Z) (r : nat) :
  length B = (32 * r)%nat -> words32 B ->
  scryptBlockMix B r = blockMixOf B r /\
  length (scryptBlockMix B r) = (32 * r)%nat /\ words32 (scryptBlockMix B r).
Proof.
  intros HB HwB. rewrite (scryptBlockMix_blockMixOf B r HB HwB).
  split; [reflexivity |]. apply blockMixOf_ok. split; assumption.
Qed.

Lemma scryptBlockMix_blocks_witness :
  scryptBlockMix (map Z.of_nat (seq 7 32)) 1 = blockMixOf (map Z.of_nat (seq 7 32)) 1.
Proof.
  apply (scryptBlockMix_blocks (map Z.of_nat (seq 7 32)) 1); [reflexivity |].
  unfold words32. apply List.Forall_forall. intros w Hw.
  apply in_map_iff in Hw as (n & <- & Hn). apply in_seq in Hn. lia.
Defined.

Lemma xorBlocks_ok (r : nat) (a b : list Z) :
  length a = (32 * r)%nat -> length b = (32 * r)%nat -> stateOk r (xorBlocks a b).
Proof.
  intros Ha Hb. unfold xorBlocks. split.
  - rewrite length_zip_with. lia.
  - unfold words32. apply Forall_lookup. intros i w Hw.
    rewrite lookup_zip_with in Hw.
    destruct (a !! i); [| discriminate]. destruct (b !! i); [| discriminate].
    cbn in Hw. injection Hw as <-. apply toUint32_range.
Qed.

Lemma fillPhase_blocks (n r : nat) :
  forall s, stateOk r s ->
    fillPhase n r s = fillPhaseOf n r s /\
    Forall (stateOk r) (fst (fillPhaseOf n r s)) /\ stateOk r (snd (fillPhaseOf n r s)).
Proof.
  induction n as [| n IH]; intros s Hs; cbn [fillPhase fillPhaseOf].
  - repeat split; try apply Hs. constructor.
  - destruct Hs as [Hlen Hw].
    rewrite (scryptBlockMix_blockMixOf s r Hlen Hw).
    destruct (IH (blockMixOf s r) (blockMixOf_ok s r (conj Hlen Hw))) as (Heq & Hall & Hfin).
    rewrite Heq. destruct (fillPhaseOf n r (blockMixOf s r)) as [V final].
    cbn [fst snd] in *. split; [reflexivity |]. split; [| exact Hfin].
    constructor; [split; assumption | exact Hall].
Qed.

Lemma mixStep_blocks (V : list (list Z)) (N r : nat) (s : list Z) :
  (1 <= N)%nat -> length V = N -> Forall (stateOk r) V -> stateOk r s ->
  mixStep (firstWordOfLastBlock r) V N r s = mixStepOf V N r s /\
  stateOk r (mixStepOf V N r s).
Proof.
  intros HN HV Hall Hs. unfold mixStep, mixStepOf. cbv zeta.
  set (j := Z.land (s !!! firstWordOfLastBlock r) (Z.of_nat N - 1)).
  assert (Hj : 0 <= j <= Z.of_nat N - 1) by (apply land_mask_range; lia).
  destruct (lookup_lt_is_Some_2 V (Z.to_nat j) ltac:(lia)) as [v Hv].
  rewrite (list_lookup_total_correct V _ v Hv).
  assert (Hvok : stateOk r v).
  { rewrite Forall_lookup in Hall. exact (Hall _ _ Hv). }
  destruct (xorBlocks_ok r s v (proj1 Hs) (proj1 Hvok)) as [Hxl Hxw].
  split; [now apply scryptBlockMix_blockMixOf |].
  apply blockMixOf_ok. split; assumption.
Qed.

Lemma iter_blocks (V : list (list Z)) (N r : nat) (s : list Z) :
  (1 <= N)%nat -> length V = N -> Forall (stateOk r) V -> stateOk r s ->
  forall n,
    Nat.iter n (mixStep (firstWordOfLastBlock r) V N r) s = Nat.iter n (mixStepOf V N r) s /\
    stateOk r (Nat.iter n (mixStepOf V N r) s).
Proof.
  intros HN HV Hall Hs. induction n as [| n [IHeq IHok]].
  - split; [reflexivity | exact Hs].
  - rewrite !Nat.iter_succ, IHeq. now apply mixStep_blocks.
Qed.

(** X25. For a state of 2r blocks of 32-bit words, r >= 1 and
    1 <= N <= 2^31, [scryptROMix] returns the ROMix chain over BlockMix in
    block form, and the result is again a state of 2r blocks of 32-bit
    words. *)
Theorem scryptROMix_blocks (B : list Z) (N r : nat) :
  (1 <= r)%nat -> (1 <= N)%nat -> Z.of_nat N <= 2 ^ 31 ->
  length B = (32 * r)%nat -> words32 B ->
  scryptROMix B N r = Normal (romixOf B N r) /\
  length (romixOf B N r) = (32 * r)%nat /\ words32 (romixOf B N r).
Proof.
  intros Hr HN HN31 HB HwB.
  destruct (fillPhase_blocks N r B (conj HB HwB)) as (Hfill & Hall & Hfin).
  destruct (fillPhase_lengths N r B) as (HV & HallLen & HfinLen).
  unfold scryptROMix, romixOf. rewrite romixFill_fillPhase. cbn [app].
  rewrite Hfill in *.
  destruct (fillPhaseOf N r B) as [V state]. cbn [fst snd] in *.
  rewrite romixMix_iter; try assumption; try (now rewrite HfinLen).
  destruct (iter_blocks V N r state HN HV Hall Hfin N) as [Heq Hok].
  rewrite Heq. split; [reflexivity | exact Hok].
Qed.

Lemma scryptROMix_blocks_witness :
  scryptROMix (map Z.of_nat (seq 7 32)) 4 1 = Normal (romixOf (map Z.of_nat (seq 7 32)) 4 1).
Proof.
  apply (scryptROMix_blocks (map Z.of_nat (seq 7 32)) 4 1);
    [lia | lia | vm_compute; discriminate | reflexivity |].
  unfold words32. apply List.Forall_forall. intros w Hw.
  apply in_map_iff in Hw as (n & <- & Hn). apply in_seq in Hn. lia.
Defined.

(** X26. A header created, as [startMining] does, with the hex rendering
    of 32 bytes as previous hash keeps that string, and its serialisation
    carries exactly those 32 bytes at offsets 4..35. *)
Theorem createBlockHeader_previous_hash (blockData : list ascii) (prevHashBytes : list Z)
    (bits seconds : Z) :
  length prevHashBytes = 32%nat -> Forall (fun b => 0 <= b < 256) prevHashBytes ->
  previousBlockHash (createBlockHeader blockData (bytesToHex prevHashBytes) bits seconds)
    = bytesToHex prevHashBytes /\
  take 32 (drop 4 (serializeBlockHeader
                     (createBlockHeader blockData (bytesToHex prevHashBytes) bits seconds)))
    = prevHashBytes.
Proof.
  intros Hlen Hbytes.
  assert (Hprev : previousBlockHash
                    (createBlockHeader blockData (bytesToHex prevHashBytes) bits seconds)
                  = bytesToHex prevHashBytes).
  { unfold createBlockHeader. cbn [previousBlockHash].
    destruct prevHashBytes as [| b bs]; [discriminate |].
    inversion Hbytes as [| ? ? Hb _]; subst.
    now rewrite (bytesToHex_cons b bs Hb). }
  split; [exact Hprev |].
  rewrite serializeBlockHeader_layout, Hprev.
  rewrite drop_app_length' by reflexivity.
  rewrite take_app_length' by (now rewrite hashField_length).
  unfold hashField. rewrite (decode_render prevHashBytes Hbytes).
  rewrite take_app_length' by (now rewrite Hlen). reflexivity.
Qed.

Lemma createBlockHeader_previous_hash_witness :
  take 32 (drop 4 (serializeBlockHeader
                     (createBlockHeader (str "Alice pays Bob 1 BTC")
                        (bytesToHex (map Z.of_nat (seq 100 32))) 486604799 1700000000)))
    = map Z.of_nat (seq 100 32).
Proof.
  apply (createBlockHeader_previous_hash (str "Alice pays Bob 1 BTC")
           (map Z.of_nat (seq 100 32)) 486604799 1700000000); [reflexivity |].
  apply List.Forall_forall. intros w Hw.
  apply in_map_iff in Hw as (n & <- & Hn). apply in_seq in Hn. lia.
Defined.
